(** * util/log/file.go: file I/O for leveled logs

    A shallow embedding of the log-file name codec ([logName],
    [parseLogFilename]), of the segment creator ([create]) and of the entry
    fetcher ([FetchEntiresFromFiles], [readAllEntriesFromFile]) of
    [util/log/file.go], with the properties of the specification that concern
    them.

    Go values are modelled as follows: [string] is a sequence of bytes
    ([String.string]); [int] and [int64] are [Z], with the wrap-around of
    [int64] arithmetic written out where the code subtracts; a pair
    [(value, error)] returned by a Go function is a pair whose second
    component is [None] for a nil error; a call that may panic returns an
    [outcome]; [map[int64]FileInfo] is a [gmap Z FileInfo]. *)

From Stdlib Require Import ZArith Ascii String List Sorting.Sorted Permutation.
From stdpp Require Import base option list sorting gmap strings.

Local Open Scope Z_scope.

(** ** Go strings *)

Module GoStrings.

(** [strings.HasPrefix(s, prefix)]. *)
Fixpoint HasPrefix (s prefix : string) : bool :=
  match prefix, s with
  | EmptyString, _ => true
  | String p prefix', String c s' => if Ascii.eqb c p then HasPrefix s' prefix' else false
  | String _ _, EmptyString => false
  end.

(** The scan of [strings.Replace] for a non-empty [old]: the leftmost
    occurrence of [old] from the current position is replaced and the scan
    resumes after it, so occurrences never overlap. [skip] counts the bytes
    of the occurrence just replaced that are still to be passed over. *)
Fixpoint replaceFrom (old new : string) (skip : nat) (s : string) : string :=
  match s with
  | EmptyString => EmptyString
  | String c s' =>
      match skip with
      | S k => replaceFrom old new k s'
      | O =>
          if HasPrefix s old
          then new +:+ replaceFrom old new (String.length old - 1)%nat s'
          else String c (replaceFrom old new 0 s')
      end
  end.

(** With an empty [old], [strings.Replace] inserts [new] before every
    character and at the end (bytes stand for characters here). *)
Fixpoint insertEvery (new s : string) : string :=
  match s with
  | EmptyString => new
  | String c s' => new +:+ String c (insertEvery new s')
  end.

(** [strings.Replace(s, old, new, -1)]: every non-overlapping instance of
    [old] replaced by [new]. *)
Definition Replace (s old new : string) : string :=
  if String.eqb old new then s
  else match old with
       | EmptyString => insertEvery new s
       | String _ _ => replaceFrom old new 0 s
       end.

(** [strings.Index(s, ".") >= 0] together with the slice [s[:i]]: the part
    of [s] before the first occurrence of byte [c], if there is one. *)
Fixpoint beforeByte (c : ascii) (s : string) : option string :=
  match s with
  | EmptyString => None
  | String a s' =>
      if Ascii.eqb a c then Some EmptyString
      else match beforeByte c s' with
           | Some p => Some (String a p)
           | None => None
           end
  end.

End GoStrings.

Import GoStrings.

(** ** The escaping of identity fields (file.go, lines 99-110) *)

(** [escapeStringForFilename]: every underscore is doubled, then every
    period becomes an underscore. *)
Definition escapeStringForFilename (s : string) : string :=
  let sEscapedPartial := Replace s "_" "__" in
  Replace sEscapedPartial "." "_".

(** [unescapeStringForFilename]: every underscore becomes a period, then
    every double underscore becomes an underscore. *)
Definition unescapeStringForFilename (s : string) : string :=
  let sUnescapedPartial := Replace s "_" "." in
  Replace sUnescapedPartial "__" "_".

(** [shortHostname] (lines 92-97): the argument truncated at its first
    period. *)
Definition shortHostname (hostname : string) : string :=
  match beforeByte "."%char hostname with
  | Some p => p
  | None => hostname
  end.


(** Go's [error] values are represented by their message. *)
Definition error := string.

(** ** Decimal conversions (strconv, fmt's [%d]) *)

Module GoStrconv.

Definition digitChar (d : Z) : ascii := ascii_of_N (Z.to_N (48 + d)).

Definition isDigit (c : ascii) : bool :=
  (48 <=? Z.of_N (N_of_ascii c)) && (Z.of_N (N_of_ascii c) <=? 57).

Definition digitVal (c : ascii) : Z := Z.of_N (N_of_ascii c) - 48.

(** The digit loop of [strconv.FormatInt]: the decimal digits of [u >= 0],
    least significant first, pushed in front of [acc]. A 64-bit value has at
    most twenty digits, which bounds the loop. *)
Fixpoint formatBits (fuel : nat) (u : Z) (acc : string) : string :=
  match fuel with
  | O => acc
  | S fuel' =>
      if u <? 10 then String (digitChar u) acc
      else formatBits fuel' (u / 10) (String (digitChar (u mod 10)) acc)
  end.

(** [strconv.FormatInt(i, 10)], which is also what [%d] prints. *)
Definition FormatInt (i : Z) : string :=
  if i <? 0 then String "-" (formatBits 20 (- i) EmptyString)
  else formatBits 20 i EmptyString.

(** The digit loop of [strconv.ParseUint]: [None] at the first byte that is
    not a decimal digit. *)
Fixpoint parseDigits (acc : Z) (s : string) : option Z :=
  match s with
  | EmptyString => Some acc
  | String c s' => if isDigit c then parseDigits (acc * 10 + digitVal c) s' else None
  end.

Definition errSyntax : error := "invalid syntax".
Definition errRange : error := "value out of range".

(** [strconv.ParseInt(s, 10, 0)] on a platform whose [int] has 64 bits: an
    optional sign, then one or more decimal digits; values that do not fit
    an [int64] are range errors. *)
Definition ParseInt (s : string) : Z + error :=
  let '(neg, body) :=
    match s with
    | String "+" s' => (false, s')
    | String "-" s' => (true, s')
    | _ => (false, s)
    end in
  match body with
  | EmptyString => inr errSyntax
  | String _ _ =>
      match parseDigits 0 body with
      | None => inr errSyntax
      | Some un =>
          if negb neg && (2 ^ 63 <=? un) then inr errRange
          else if neg && (2 ^ 63 <? un) then inr errRange
          else inl (if neg then - un else un)
      end
  end.

End GoStrconv.

Import GoStrconv.

(** ** Severity levels *)

(** Modelled from the spec: the type [Level], its method [String] and
    [LevelFromString] are declared outside file.go. The specification
    describes an ordered enumeration INFO < WARNING < ERROR < FATAL with a
    bidirectional, case-sensitive name mapping. *)
Inductive Level := INFO | WARNING | ERROR | FATAL.

#[global] Instance Level_eq_dec : EqDecision Level.
Proof. solve_decision. Defined.

(** Modelled from the spec: [level.String()], the name of a level. *)
Definition Level_String (l : Level) : string :=
  match l with
  | INFO => "INFO"
  | WARNING => "WARNING"
  | ERROR => "ERROR"
  | FATAL => "FATAL"
  end.

(** Modelled from the spec: [LevelFromString], the level of a name and
    whether the name is known. The zero level is returned with [false]. *)
Definition LevelFromString (s : string) : Level * bool :=
  if String.eqb s "INFO" then (INFO, true)
  else if String.eqb s "WARNING" then (WARNING, true)
  else if String.eqb s "ERROR" then (ERROR, true)
  else if String.eqb s "FATAL" then (FATAL, true)
  else (INFO, false).

(** ** Times (package time) *)

(** A [time.Time] is represented by its calendar fields in its own zone and
    the offset of that zone east of UTC, in minutes. The model covers what
    file.go uses: [Format] and [Parse] with the layout [time.RFC3339]
    ("2006-01-02T15:04:05Z07:00") and [UnixNano]. *)
Module GoTime.

Record Time := mkTime {
  year : Z;
  month : Z;
  day : Z;
  hour : Z;
  minute : Z;
  second : Z;
  nanosecond : Z;
  zoneMinutes : Z
}.

(** The zero [Time]: January 1, year 1, 00:00:00 UTC. *)
Definition zeroTime : Time := mkTime 1 1 1 0 0 0 0 0.

Definition isLeap (y : Z) : bool :=
  (y mod 4 =? 0) && (negb (y mod 100 =? 0) || (y mod 400 =? 0)).

Definition daysIn (m y : Z) : Z :=
  if m =? 2 then (if isLeap y then 29 else 28)
  else if (m =? 4) || (m =? 6) || (m =? 9) || (m =? 11) then 30
  else 31.

(** Days from 1970-01-01 to the given date of the proleptic Gregorian
    calendar. *)
Definition daysFromCivil (y m d : Z) : Z :=
  let y' := if m <=? 2 then y - 1 else y in
  let era := y' / 400 in
  let yoe := y' - era * 400 in
  let doy := (153 * (m + (if 2 <? m then -3 else 9)) + 2) / 5 + d - 1 in
  let doe := yoe * 365 + yoe / 4 - yoe / 100 + doy in
  era * 146097 + doe - 719468.

(** [t.Unix()]: seconds since 1970-01-01T00:00:00Z. *)
Definition Unix (t : Time) : Z :=
  daysFromCivil (year t) (month t) (day t) * 86400
  + hour t * 3600 + minute t * 60 + second t - zoneMinutes t * 60.

(** The value of an [int64] computation whose exact result is [z]. *)
Definition wrap64 (z : Z) : Z := (z + 2 ^ 63) mod 2 ^ 64 - 2 ^ 63.

Definition MaxInt64 : Z := 2 ^ 63 - 1.

(** [t.UnixNano()], an [int64]. *)
Definition UnixNano (t : Time) : Z :=
  wrap64 (Unix t * 1000000000 + nanosecond t).

Fixpoint zeros (n : nat) : string :=
  match n with
  | O => EmptyString
  | S n' => String "0" (zeros n')
  end.

(** [appendInt]: the decimal form of [x], zero-padded to [width]. *)
Definition appendInt (x : Z) (width : nat) : string :=
  let digits := formatBits 20 (Z.abs x) EmptyString in
  (if x <? 0 then "-" else "")
    +:+ zeros (width - String.length digits) +:+ digits.

Definition formatZone (z : Z) : string :=
  if z =? 0 then "Z"
  else (if z <? 0 then "-" else "+")
         +:+ appendInt (Z.abs z / 60) 2 +:+ ":" +:+ appendInt (Z.abs z mod 60) 2.

(** [t.Format(time.RFC3339)]. The nanoseconds are not printed. *)
Definition Format (t : Time) : string :=
  appendInt (year t) 4 +:+ "-" +:+ appendInt (month t) 2 +:+ "-"
    +:+ appendInt (day t) 2 +:+ "T" +:+ appendInt (hour t) 2 +:+ ":"
    +:+ appendInt (minute t) 2 +:+ ":" +:+ appendInt (second t) 2
    +:+ formatZone (zoneMinutes t).

(** [getnum]: a number of two digits, or of one digit when [fixed] is
    false and no second digit follows. *)
Definition getnum (s : string) (fixed : bool) : option (Z * string) :=
  match s with
  | String a s1 =>
      if isDigit a then
        match s1 with
        | String b s2 =>
            if isDigit b then Some (digitVal a * 10 + digitVal b, s2)
            else if fixed then None else Some (digitVal a, s1)
        | EmptyString => if fixed then None else Some (digitVal a, s1)
        end
      else None
  | EmptyString => None
  end.

(** The four digits of the year. *)
Definition getyear (s : string) : option (Z * string) :=
  match s with
  | String a (String b (String c (String d rest))) =>
      if isDigit a && isDigit b && isDigit c && isDigit d
      then Some (((digitVal a * 10 + digitVal b) * 10 + digitVal c) * 10 + digitVal d, rest)
      else None
  | _ => None
  end.

(** A literal byte of the layout. *)
Definition expect (c : ascii) (s : string) : option string :=
  match s with
  | String a s' => if Ascii.eqb a c then Some s' else None
  | EmptyString => None
  end.

(** The zone of the layout element "Z07:00": [Z], or a sign, two digits, a
    colon and two digits. *)
Definition getzone (s : string) : option (Z * string) :=
  match s with
  | String "Z" rest => Some (0, rest)
  | String sign s1 =>
      '(hh, s2) ← getnum s1 true;
      s3 ← expect ":" s2;
      '(mm, s4) ← getnum s3 true;
      if Ascii.eqb sign "+" then Some (hh * 60 + mm, s4)
      else if Ascii.eqb sign "-" then Some (- (hh * 60 + mm), s4)
      else None
  | EmptyString => None
  end.

Definition parseFields (value : string) : option Time :=
  '(y, v) ← getyear value;
  v ← expect "-" v;
  '(mo, v) ← getnum v true;
  v ← expect "-" v;
  '(d, v) ← getnum v true;
  v ← expect "T" v;
  '(h, v) ← getnum v false;
  v ← expect ":" v;
  '(mi, v) ← getnum v true;
  v ← expect ":" v;
  '(s, v) ← getnum v true;
  '(z, v) ← getzone v;
  match v with
  | EmptyString => Some (mkTime y mo d h mi s 0 z)
  | String _ _ => None
  end.

Definition inRange (t : Time) : bool :=
  (1 <=? month t) && (month t <=? 12)
  && (1 <=? day t) && (day t <=? daysIn (month t) (year t))
  && (hour t <? 24) && (minute t <? 60) && (second t <? 60).

(** [time.Parse(time.RFC3339, value)] on a value without a fractional
    second (the time token of a log file name contains no period, so the
    optional fraction that [Parse] tolerates cannot occur there). *)
Definition Parse (value : string) : Time + error :=
  match parseFields value with
  | None => inr ("parsing time: cannot parse " +:+ value)
  | Some t => if inRange t then inl t else inr ("parsing time " +:+ value +:+ ": out of range")
  end.

End GoTime.

Import GoTime.


(** ** Regular expressions (package regexp) *)

(** The fragment of the syntax that [logFileRE] uses, matched the way Go's
    [regexp] specifies: the match found is the one a backtracking matcher
    finds first (leftmost, alternatives tried in order, [+] greedy). *)
Module GoRegexp.

Inductive regex :=
| Eps
| Byte (c : ascii)
| ClassPlus (p : ascii -> bool)
| Seq (r1 r2 : regex)
| Alt (r1 r2 : regex)
| Group (n : nat) (r : regex).

(** A literal string. *)
Fixpoint Lit (s : string) : regex :=
  match s with
  | EmptyString => Eps
  | String c s' => Seq (Byte c) (Lit s')
  end.

Definition Cat (rs : list regex) : regex := foldr Seq Eps rs.

(** The bytes of [s] that were consumed to reach its suffix [s']. *)
Definition consumed (s s' : string) : string :=
  substring 0 (String.length s - String.length s') s.

(** [c+] for a class [c]: the longest run is tried first, then shorter
    ones. *)
Fixpoint plusLoop (p : ascii -> bool) (k : string -> option (list string))
    (s : string) : option (list string) :=
  match s with
  | String c s' =>
      if p c then
        match plusLoop p k s' with
        | Some r => Some r
        | None => k s'
        end
      else None
  | EmptyString => None
  end.

(** [rmatch r s caps k]: match [r] at the start of [s], then continue with
    [k] on the rest of the input and the submatches recorded so far;
    [None] when every way of matching [r] makes [k] fail. *)
Fixpoint rmatch (r : regex) (s : string) (caps : list string)
    (k : string -> list string -> option (list string)) : option (list string) :=
  match r with
  | Eps => k s caps
  | Byte c =>
      match s with
      | String a s' => if Ascii.eqb a c then k s' caps else None
      | EmptyString => None
      end
  | ClassPlus p => plusLoop p (fun s' => k s' caps) s
  | Seq r1 r2 => rmatch r1 s caps (fun s' caps' => rmatch r2 s' caps' k)
  | Alt r1 r2 =>
      match rmatch r1 s caps k with
      | Some res => Some res
      | None => rmatch r2 s caps k
      end
  | Group n r' => rmatch r' s caps (fun s' caps' => k s' (<[n := consumed s s']> caps'))
  end.

(** A match that starts at the first byte of [s]; submatch 0 is the whole
    match. *)
Definition matchAt (ngroups : nat) (r : regex) (s : string) : option (list string) :=
  rmatch (Group 0 r) s (replicate (S ngroups) EmptyString) (fun _ caps => Some caps).

(** [re.FindStringSubmatch(s)]: the submatches of the leftmost match, or
    [None] (a nil slice) when nothing matches. The expression is not
    anchored: the match may start at any byte of [s]. *)
Fixpoint FindStringSubmatch (ngroups : nat) (r : regex) (s : string) : option (list string) :=
  match matchAt ngroups r s with
  | Some caps => Some caps
  | None =>
      match s with
      | EmptyString => None
      | String _ s' => FindStringSubmatch ngroups r s'
      end
  end.

(** [re.MatchString(s)]. *)
Definition MatchString (ngroups : nat) (r : regex) (s : string) : bool :=
  bool_decide (is_Some (FindStringSubmatch ngroups r s)).

End GoRegexp.

Import GoRegexp.

(** ** The file-name codec (file.go, lines 58-60 and 112-171) *)

Definition notDot (c : ascii) : bool := negb (Ascii.eqb c ".").

(** [logFileRE]:
    [([^\.]+)\.([^\.]+)\.([^\.]+)\.log\.(ERROR|WARNING|INFO)\.([^\.]+)\.(\d+)] *)
Definition logFileRE : regex :=
  Cat [ Group 1 (ClassPlus notDot); Byte ".";
        Group 2 (ClassPlus notDot); Byte ".";
        Group 3 (ClassPlus notDot); Lit ".log.";
        Group 4 (Alt (Lit "ERROR") (Alt (Lit "WARNING") (Lit "INFO"))); Byte ".";
        Group 5 (ClassPlus notDot); Byte ".";
        Group 6 (ClassPlus isDigit) ].

Definition logFileRE_groups : nat := 6.

(** The identity of the process, set once at start-up (lines 68-88). *)
Record Identity := {
  pid : Z;
  program : string;
  host : string;
  userName : string
}.

(** The package variables before [init] runs (lines 68-73): [os.Getpid()],
    the base name of [os.Args[0]] and the two defaults. *)
Definition initialIdentity (os_Getpid : Z) (arg0 : string) : Identity :=
  {| pid := os_Getpid; program := arg0; host := "unknownhost"; userName := "unknownuser" |}.

(** [init] (lines 75-88), given what [os.Hostname()] and [user.Current()]
    return (of the user, its [Username]). *)
Definition init (id : Identity) (os_Hostname : string + error)
    (user_Current : string + error) : Identity :=
  let host := match os_Hostname with inl h => shortHostname h | inr _ => host id end in
  let userName := match user_Current with inl u => u | inr _ => userName id end in
  {| pid := pid id; program := program id; host := host;
     userName := Replace userName (String "092"%char EmptyString) "_" |}.

(** [logName]: the name of a new log file for [level] with start time [t],
    and the name of the symlink for [level]. *)
Definition logName (id : Identity) (level : Level) (t : Time) : string * string :=
  let tFormatted := Replace (Format t) ":" "_" in
  let name :=
    escapeStringForFilename (program id) +:+ "."
      +:+ escapeStringForFilename (host id) +:+ "."
      +:+ escapeStringForFilename (userName id) +:+ ".log."
      +:+ Level_String level +:+ "."
      +:+ tFormatted +:+ "."
      +:+ FormatInt (pid id) in
  (name, program id +:+ "." +:+ Level_String level).

(** [FileDetails]: what the name of a log file tells. *)
Record FileDetails := {
  Program : string;
  Host : string;
  UserName : string;
  Level_ : Level;
  Time_ : Time;
  PID : Z
}.

(** The zero value [FileDetails{}]. *)
Definition zeroFileDetails : FileDetails :=
  {| Program := ""; Host := ""; UserName := ""; Level_ := INFO; Time_ := zeroTime; PID := 0 |}.

(** [matches[i]]; the index is in range wherever the code uses it. *)
Definition nth_match (matches : list string) (i : nat) : string :=
  default EmptyString (matches !! i).

(** [parseLogFilename]. *)
Definition parseLogFilename (filename : string) : FileDetails * option error :=
  match FindStringSubmatch logFileRE_groups logFileRE filename with
  | None => (zeroFileDetails, Some "not a log file")
  | Some matches =>
      if negb (length matches =? 7)%nat then (zeroFileDetails, Some "not a log file")
      else
        let '(level, levelFound) := LevelFromString (nth_match matches 4) in
        if negb levelFound
        then (zeroFileDetails, Some "not a log file, couldn't parse level")
        else
          let fixTime := Replace (nth_match matches 5) "_" ":" in
          match Parse fixTime with
          | inr err => (zeroFileDetails, Some err)
          | inl time =>
              match ParseInt (nth_match matches 6) with
              | inr err => (zeroFileDetails, Some err)
              | inl pid =>
                  ({| Program := unescapeStringForFilename (nth_match matches 1);
                      Host := unescapeStringForFilename (nth_match matches 2);
                      UserName := unescapeStringForFilename (nth_match matches 3);
                      Level_ := level;
                      Time_ := time;
                      PID := pid |}, None)
              end
          end
  end.


(** ** The operating system and the package state *)

(** The outcome of a call that may panic. *)
Inductive outcome (A : Type) :=
| Returns (a : A)
| Panics (msg : string).
Arguments Returns {A} a.
Arguments Panics {A} msg.

(** Modelled from the spec: [proto.LogEntry], declared outside file.go; the
    fetcher reads only its [Time] field (nanoseconds since the epoch). *)
Record LogEntry := {
  Severity : Level;
  Time : Z;
  Message : string
}.

(** An opened [*os.File]. Modelled from the spec: [NewEntryDecoder] and
    [Decode] are declared outside file.go; the decoder delivers a finite
    sequence of entries and then either [io.EOF] ([None]) or a decoding
    error, and that sequence is what an open file stands for here. *)
Record File := {
  file_path : string;
  file_entries : list LogEntry;
  file_ending : option error
}.

(** A non-nil [io.ReadCloser]: it holds a [*os.File], which may itself be
    nil. A nil interface value is [None : option ReadCloser]. *)
Inductive ReadCloser :=
| NilFile
| OpenFile_ (f : File).

(** [os.FileInfo], as far as file.go looks at it. *)
Record OsFileInfo := {
  fi_Name : string;
  fi_Mode : Z;
  fi_Size : Z;
  fi_ModTime : Z
}.

Definition ModeDir : Z := Z.shiftl 1 31.
Definition ModeSymlink : Z := Z.shiftl 1 27.
Definition ModeDevice : Z := Z.shiftl 1 26.
Definition ModeNamedPipe : Z := Z.shiftl 1 25.
Definition ModeSocket : Z := Z.shiftl 1 24.

(** [os.ModeType]. *)
Definition ModeType : Z :=
  Z.lor ModeDir (Z.lor ModeSymlink (Z.lor ModeNamedPipe (Z.lor ModeSocket ModeDevice))).

(** The calls into the file system that [create] makes, in order. *)
Inductive FsCall :=
| CallOpenFile (fname : string)
| CallRemove (name : string)
| CallSymlink (oldname newname : string).

(** The package-level variables of file.go and the functions of the
    standard library that reach outside the process. *)
Record Env := {
  identity : Identity;
  EntiresCutoff : Z;
  logDir : string;
  logDirs : list string;
  onceLogDirs : bool;              (* whether onceLogDirs.Do has run *)
  ioutil_ReadDir : string -> list OsFileInfo + error;
  os_Stat : string -> OsFileInfo + error;
  os_Open : string -> File + error;
  os_OpenFile : string -> File + error;
  path_IsAbs : string -> bool;
  path_Base : string -> string;
  path_Join : string -> string -> string;
  filepath_Join : string -> string -> string
}.

Definition set_logDirs (env : Env) (dirs : list string) (once : bool) : Env :=
  {| identity := identity env; EntiresCutoff := EntiresCutoff env;
     logDir := logDir env; logDirs := dirs; onceLogDirs := once;
     ioutil_ReadDir := ioutil_ReadDir env; os_Stat := os_Stat env;
     os_Open := os_Open env; os_OpenFile := os_OpenFile env;
     path_IsAbs := path_IsAbs env; path_Base := path_Base env;
     path_Join := path_Join env; filepath_Join := filepath_Join env |}.

(** ** Creating a segment (file.go, lines 62-66 and 173-205) *)

(** [createLogDirs], run once through [onceLogDirs.Do]. *)
Definition createLogDirs (env : Env) : Env :=
  if onceLogDirs env then env
  else if negb (String.eqb (logDir env) "")
       then set_logDirs env (logDirs env ++ [logDir env]) true
       else set_logDirs env (logDirs env) true.

(** The loop of [create] over the candidate directories (lines 186-204).
    Both branches of its body return, the first one as soon as
    [os.OpenFile] fails: no round after the first is ever run, and the
    assignment to [lastErr] that ends the body is never reached. *)
Definition createLoop (env : Env) (name link : string) (dirs : list string)
    (lastErr : option error) : list FsCall * (option File * string * option error) :=
  match dirs with
  | [] =>
      ([], (None, "", Some ("log: cannot create log: " +:+ default "<nil>" lastErr)))
  | dir :: dirs' =>
      let fname := filepath_Join env dir name in
      match os_OpenFile env fname with
      | inr err =>
          ([CallOpenFile fname], (None, "", Some ("log: cannot create log: " +:+ err)))
      | inl f =>
          let symlink := filepath_Join env dir link in
          ([CallOpenFile fname; CallRemove symlink; CallSymlink name symlink],
           (Some f, fname, None))
      end
  end.

(** [create]: the new state of the package, the calls made, and the
    returned [(f, filename, err)]. *)
Definition create (env : Env) (level : Level) (t : GoTime.Time)
    : Env * list FsCall * (option File * string * option error) :=
  let env := createLogDirs env in
  if (length (logDirs env) =? 0)%nat
  then (env, [], (None, "", Some "log: no log dirs"))
  else
    let '(name, link) := logName (identity env) level t in
    let '(calls, res) := createLoop env name link (logDirs env) None in
    (env, calls, res).

(** ** Listing the segments (file.go, lines 207-262) *)

(** [verifyFileInfo]. *)
Definition verifyFileInfo (info : OsFileInfo) : FileDetails * option error :=
  if negb (Z.land (fi_Mode info) ModeType =? 0)
  then (zeroFileDetails, Some "not a regular file")
  else
    match parseLogFilename (fi_Name info) with
    | (_, Some err) => (zeroFileDetails, Some err)
    | (details, None) => (details, None)
    end.

(** [verifyFile]. *)
Definition verifyFile (env : Env) (filename : string) : option error :=
  match os_Stat env filename with
  | inr err => Some err
  | inl info => snd (verifyFileInfo info)
  end.

(** [FileInfo]: the name and size of a log file, with its details. *)
Record FileInfo := {
  Name : string;
  SizeBytes : Z;
  ModTimeNanos : Z;
  Details : FileDetails
}.

Definition zeroFileInfo : FileInfo :=
  {| Name := ""; SizeBytes := 0; ModTimeNanos := 0; Details := zeroFileDetails |}.

(** The inner loop of [ListLogFiles] over the entries of one directory. *)
Fixpoint listInfos (infos : list OsFileInfo) (results : list FileInfo) : list FileInfo :=
  match infos with
  | [] => results
  | info :: infos' =>
      match verifyFileInfo info with
      | (details, None) =>
          listInfos infos'
            (results ++ [{| Name := fi_Name info; SizeBytes := fi_Size info;
                            ModTimeNanos := fi_ModTime info; Details := details |}])
      | (_, Some _) => listInfos infos' results
      end
  end.

(** The outer loop of [ListLogFiles] over the log directories. *)
Fixpoint listDirs (env : Env) (dirs : list string) (results : list FileInfo)
    : list FileInfo * option error :=
  match dirs with
  | [] => (results, None)
  | dir :: dirs' =>
      match ioutil_ReadDir env dir with
      | inr err => (results, Some err)
      | inl infos => listDirs env dirs' (listInfos infos results)
      end
  end.

(** [ListLogFiles]. *)
Definition ListLogFiles (env : Env) : list FileInfo * option error :=
  listDirs env (logDirs env) [].

(** ** Opening a segment (file.go, lines 264-298) *)

(** The loop of [GetLogReader] over the log directories; [filename] is
    reassigned in every round. *)
Fixpoint getLogReaderLoop (env : Env) (dirs : list string) (filename : string)
    (err : option error) : option ReadCloser * option error :=
  match dirs with
  | [] => (None, err)
  | dir :: dirs' =>
      let filename := path_Join env dir filename in
      match verifyFile env filename with
      | None =>
          match os_Open env filename with
          | inl f => (Some (OpenFile_ f), None)
          | inr e => getLogReaderLoop env dirs' filename (Some e)
          end
      | Some _ => getLogReaderLoop env dirs' filename err
      end
  end.

(** [GetLogReader]. *)
Definition GetLogReader (env : Env) (filename : string) (allowAbsolute : bool)
    : option ReadCloser * option error :=
  let absolute : option (option ReadCloser * option error) :=
    if path_IsAbs env filename then
      if negb allowAbsolute
      then Some (None, Some ("absolute pathnames are forbidden: " +:+ filename))
      else
        match verifyFile env filename with
        | None =>
            match os_Open env filename with
            | inl f => Some (Some (OpenFile_ f), None)
            | inr e => Some (Some NilFile, Some e)
            end
        | Some _ => None
        end
    else None in
  match absolute with
  | Some res => res
  | None =>
      if negb (String.eqb (path_Base env filename) filename)
      then (None, Some ("pathnames must be basenames only: " +:+ filename))
      else if negb (MatchString logFileRE_groups logFileRE filename)
      then (None, Some ("filename is not a cockroach log file: " +:+ filename))
      else getLogReaderLoop env (logDirs env) filename None
  end.

(** ** Fetching entries (file.go, lines 300-387) *)

(** The decoding loop of [readAllEntriesFromFile]: every entry inside the
    window is put in front of the entries kept so far. *)
Fixpoint decodeLoop (startTimeNano endTimeNano : Z) (stream : list LogEntry)
    (ending : option error) (entries : list LogEntry) : list LogEntry * option error :=
  match stream with
  | [] =>
      match ending with
      | None => (entries, None)
      | Some err => ([], Some err)
      end
  | entry :: stream' =>
      if (startTimeNano <=? Time entry) && (Time entry <=? endTimeNano)
      then decodeLoop startTimeNano endTimeNano stream' ending (entry :: entries)
      else decodeLoop startTimeNano endTimeNano stream' ending entries
  end.

(** [readAllEntriesFromFile]. [defer reader.Close()] comes before the test
    of [reader] against nil: calling a method of a nil interface value
    panics. A nil [*os.File] inside a non-nil reader only makes [Close] and
    the decoder report an error. *)
Definition readAllEntriesFromFile (env : Env) (file : FileInfo)
    (startTimeNano endTimeNano : Z) : outcome (list LogEntry * option error) :=
  let '(reader, err) := GetLogReader env (Name file) false in
  match reader with
  | None => Panics "invalid memory address or nil pointer dereference"
  | Some rc =>
      match err with
      | Some _ => Returns ([], err)
      | None =>
          match rc with
          | NilFile => Returns ([], Some "invalid argument")
          | OpenFile_ f =>
              Returns (decodeLoop startTimeNano endTimeNano
                         (file_entries f) (file_ending f) [])
          end
      end
  end.

(** The variables that the first loop of [FetchEntiresFromFiles] fills. *)
Record Selection := {
  logFileMap : gmap Z FileInfo;
  nanos : list Z;
  diffToStart : Z;
  closestToStartNano : Z
}.

Definition emptySelection : Selection :=
  {| logFileMap := ∅; nanos := []; diffToStart := MaxInt64; closestToStartNano := 0 |}.

(** One round of the first loop (lines 324-336). *)
Definition selectFile (level : Level) (startTimeNano endTimeNano : Z)
    (sel : Selection) (logFile : FileInfo) : Selection :=
  if decide (Level_ (Details logFile) = level) then
    let nano := UnixNano (Time_ (Details logFile)) in
    if nano <=? endTimeNano then
      let closer :=
        (nano <=? startTimeNano) && (wrap64 (startTimeNano - nano) <? diffToStart sel) in
      {| logFileMap := <[nano := logFile]> (logFileMap sel);
         nanos := nanos sel ++ [nano];
         diffToStart := if closer then wrap64 (startTimeNano - nano) else diffToStart sel;
         closestToStartNano := if closer then nano else closestToStartNano sel |}
    else sel
  else sel.

Definition selectFiles (level : Level) (startTimeNano endTimeNano : Z)
    (logFiles : list FileInfo) : Selection :=
  foldl (selectFile level startTimeNano endTimeNano) emptySelection logFiles.

(** [sort.Sort(sort.Reverse(nanos))]: the timestamps in descending order.
    Elements that compare equal are equal integers, so the result does not
    depend on the sorting algorithm. *)
Definition sortReverse (l : list Z) : list Z := merge_sort (flip Z.le) l.

(** The second loop (lines 346-359), with the files handed to
    [readAllEntriesFromFile] recorded in order. *)
Fixpoint fetchLoop (env : Env) (sel : Selection) (startTimeNano endTimeNano : Z)
    (todo : list Z) (entries : list LogEntry)
    : list FileInfo * outcome (list LogEntry * option error) :=
  match todo with
  | [] => ([], Returns (entries, None))
  | nano :: todo' =>
      let file := default zeroFileInfo (logFileMap sel !! nano) in
      match readAllEntriesFromFile env file startTimeNano endTimeNano with
      | Panics msg => ([file], Panics msg)
      | Returns (_, Some err) => ([file], Returns ([], Some err))
      | Returns (newEntries, None) =>
          let entries := entries ++ newEntries in
          if EntiresCutoff env <=? Z.of_nat (length entries)
          then ([file], Returns (entries, None))
          else if nano =? closestToStartNano sel
          then ([file], Returns (entries, None))
          else
            let '(opened, res) :=
              fetchLoop env sel startTimeNano endTimeNano todo' entries in
            (file :: opened, res)
      end
  end.

(** [FetchEntiresFromFiles], with the files it opened. *)
Definition FetchEntiresFromFiles_opened (env : Env) (level : Level)
    (startTimeNano endTimeNano : Z)
    : list FileInfo * outcome (list LogEntry * option error) :=
  match ListLogFiles env with
  | (_, Some err) => ([], Returns ([], Some err))
  | (logFiles, None) =>
      let sel := selectFiles level startTimeNano endTimeNano logFiles in
      if (length (nanos sel) =? 0)%nat then ([], Returns ([], None))
      else fetchLoop env sel startTimeNano endTimeNano (sortReverse (nanos sel)) []
  end.

(** [FetchEntiresFromFiles]. *)
Definition FetchEntiresFromFiles (env : Env) (level : Level)
    (startTimeNano endTimeNano : Z) : outcome (list LogEntry * option error) :=
  snd (FetchEntiresFromFiles_opened env level startTimeNano endTimeNano).

(** ** A file system in memory *)

(** Concrete environments for the examples: directories with plain layout,
    whose paths are joined with a slash. *)
Module Mem.

(** A file of a directory: its directory entry, what decoding it yields,
    and the error of [os.Open], if it cannot be opened. *)
Record MemFile := {
  mf_dir : string;
  mf_info : OsFileInfo;
  mf_entries : list LogEntry;
  mf_ending : option error;
  mf_openErr : option error
}.

Definition join (dir name : string) : string := dir +:+ "/" +:+ name.

Definition mf_path (f : MemFile) : string := join (mf_dir f) (fi_Name (mf_info f)).

(** The part of a path after its last slash. *)
Fixpoint base (acc s : string) : string :=
  match s with
  | EmptyString => acc
  | String c s' => if Ascii.eqb c "/" then base s' s' else base acc s'
  end.

Definition lookupFile (files : list MemFile) (path : string) : option MemFile :=
  List.find (fun f => String.eqb (mf_path f) path) files.

(** [files] lists the files of every directory in the order in which
    [ioutil.ReadDir] returns them (sorted by name); [readOnly] are the
    directories in which no file can be created. *)
Definition env (id : Identity) (cutoff : Z) (dir : string) (dirs : list string)
    (once : bool) (files : list MemFile) (readOnly : list string) : Env :=
  {| identity := id;
     EntiresCutoff := cutoff;
     logDir := dir;
     logDirs := dirs;
     onceLogDirs := once;
     ioutil_ReadDir := fun d =>
       inl (map mf_info (List.filter (fun f => String.eqb (mf_dir f) d) files));
     os_Stat := fun path =>
       match lookupFile files path with
       | Some f => inl (mf_info f)
       | None => inr ("stat " +:+ path +:+ ": no such file or directory")
       end;
     os_Open := fun path =>
       match lookupFile files path with
       | Some f =>
           match mf_openErr f with
           | Some e => inr e
           | None => inl {| file_path := path; file_entries := mf_entries f;
                            file_ending := mf_ending f |}
           end
       | None => inr ("open " +:+ path +:+ ": no such file or directory")
       end;
     os_OpenFile := fun path =>
       if existsb (fun d => HasPrefix path (d +:+ "/")) readOnly
       then inr ("open " +:+ path +:+ ": permission denied")
       else inl {| file_path := path; file_entries := []; file_ending := None |};
     path_IsAbs := fun s => HasPrefix s "/";
     path_Base := fun s => base s s;
     path_Join := join;
     filepath_Join := join |}.

Definition id0 : Identity :=
  {| pid := 4242; program := "cockroach"; host := "node1"; userName := "root" |}.

(** A regular file named by [logName] for the given process, level and
    time, with the given entries, ended by [io.EOF]. *)
Definition segmentOf (id : Identity) (dir : string) (level : Level) (t : GoTime.Time)
    (entries : list LogEntry) : MemFile :=
  {| mf_dir := dir;
     mf_info := {| fi_Name := fst (logName id level t); fi_Mode := 420;
                   fi_Size := 0; fi_ModTime := 0 |};
     mf_entries := entries;
     mf_ending := None;
     mf_openErr := None |}.

Definition segment := segmentOf id0.

(** The time [s] seconds after 1970-01-01T00:00:00Z, for [0 <= s < 60]
    minutes. *)
Definition at_second (s : Z) : GoTime.Time := mkTime 1970 1 1 0 (s / 60) (s mod 60) 0 0.

Definition sec : Z := 1000000000.

Definition entry (level : Level) (nano : Z) (msg : string) : LogEntry :=
  {| Severity := level; Time := nano; Message := msg |}.

End Mem.

(** ** Scenarios *)

Module Scenarios.

Import Mem.

(** INFO segments created 100 s and 200 s after the epoch and an ERROR
    segment created at 300 s, each with one entry stamped with the creation
    time of its segment. (The time token of a file name has a resolution of
    one second, so creation times are whole seconds.) *)
Definition three_segments : Env :=
  env id0 100000 "/logs" ["/logs"] true
    [ segment "/logs" ERROR (at_second 300) [entry ERROR (300 * sec) "e300"];
      segment "/logs" INFO (at_second 100) [entry INFO (100 * sec) "i100"];
      segment "/logs" INFO (at_second 200) [entry INFO (200 * sec) "i200"] ] [].

(** Two INFO segments and a cutoff of two entries; the newer segment alone
    holds three entries inside the window. *)
Definition small_cutoff : Env :=
  env id0 2 "/logs" ["/logs"] true
    [ segment "/logs" INFO (at_second 100)
        [entry INFO (100 * sec) "a"; entry INFO (110 * sec) "b"];
      segment "/logs" INFO (at_second 200)
        [entry INFO (200 * sec) "c"; entry INFO (210 * sec) "d";
         entry INFO (220 * sec) "e"] ] [].

Definition y1700 : GoTime.Time := mkTime 1700 1 1 0 0 0 0 0.
Definition y2000 : GoTime.Time := mkTime 2000 1 1 0 0 0 0 0.
Definition y2010 : GoTime.Time := mkTime 2010 1 1 0 0 0 0 0.
Definition y2011 : GoTime.Time := mkTime 2011 1 1 0 0 0 0 0.
Definition y2012 : GoTime.Time := mkTime 2012 1 1 0 0 0 0 0.

(** INFO segments stamped 1700, 2000 and 2011. *)
Definition far_apart : Env :=
  env id0 100000 "/logs" ["/logs"] true
    [ segment "/logs" INFO y1700 [entry INFO (UnixNano y1700) "old"];
      segment "/logs" INFO y2000 [entry INFO (UnixNano y2010 + 1) "mid"];
      segment "/logs" INFO y2011 [entry INFO (UnixNano y2011) "new"] ] [].

(** Two candidate directories; no file can be created in the first. *)
Definition two_dirs : Env :=
  env id0 100000 "" ["/ro"; "/logs"] true [] ["/ro"].

(** A listed segment that cannot be opened. *)
Definition unreadable : Env :=
  env id0 100000 "/logs" ["/logs"] true
    [ {| mf_dir := "/logs";
         mf_info := {| fi_Name := fst (logName id0 INFO (at_second 100));
                       fi_Mode := 420; fi_Size := 0; fi_ModTime := 0 |};
         mf_entries := [entry INFO (100 * sec) "i100"];
         mf_ending := None;
         mf_openErr := Some "permission denied" |} ] [].

(** A listed segment whose decoding fails after one entry. *)
Definition corrupt : Env :=
  env id0 100000 "/logs" ["/logs"] true
    [ {| mf_dir := "/logs";
         mf_info := {| fi_Name := fst (logName id0 INFO (at_second 100));
                       fi_Mode := 420; fi_Size := 0; fi_ModTime := 0 |};
         mf_entries := [entry INFO (100 * sec) "i100"];
         mf_ending := Some "unexpected EOF";
         mf_openErr := None |} ] [].

(** INFO segments created at 40 s, 100 s, 200 s and 300 s. *)
Definition four_segments : Env :=
  env id0 100000 "/logs" ["/logs"] true
    [ segment "/logs" INFO (at_second 40) [entry INFO (40 * sec) "i40"];
      segment "/logs" INFO (at_second 100) [entry INFO (100 * sec) "i100"];
      segment "/logs" INFO (at_second 200) [entry INFO (200 * sec) "i200"];
      segment "/logs" INFO (at_second 300) [entry INFO (300 * sec) "i300"] ] [].

(** Two INFO segments and a cutoff of three entries: one entry in the
    newer segment, three in the older one. *)
Definition cutoff_two_files : Env :=
  env id0 3 "/logs" ["/logs"] true
    [ segment "/logs" INFO (at_second 100)
        [entry INFO (100 * sec) "a"; entry INFO (110 * sec) "b";
         entry INFO (120 * sec) "c"];
      segment "/logs" INFO (at_second 200) [entry INFO (200 * sec) "d"] ] [].

Definition y9999 : GoTime.Time := mkTime 9999 12 31 23 59 59 0 0.

(** An INFO segment created at 100 s and one whose name is stamped with
    the last second of the year 9999. *)
Definition far_future : Env :=
  env id0 100000 "/logs" ["/logs"] true
    [ segment "/logs" INFO (at_second 100) [entry INFO (100 * sec) "i100"];
      segment "/logs" INFO y9999 [entry INFO (200 * sec) "i9999"] ] [].

Definition id1 : Identity :=
  {| pid := 77; program := "cockroach"; host := "node1"; userName := "root" |}.

(** Two INFO segments of two processes created in the same second, and an
    older one. *)
Definition same_second : Env :=
  env id0 100000 "/logs" ["/logs"] true
    [ segment "/logs" INFO (at_second 40) [entry INFO (40 * sec) "older"];
      segmentOf id0 "/logs" INFO (at_second 100) [entry INFO (160 * sec) "pid4242"];
      segmentOf id1 "/logs" INFO (at_second 100) [entry INFO (170 * sec) "pid77"] ] [].

(** The three segments again, with two more log directories after the
    first; the second directory cannot be read. *)
Definition unlistable : Env :=
  {| identity := identity three_segments;
     EntiresCutoff := EntiresCutoff three_segments;
     logDir := logDir three_segments;
     logDirs := ["/logs"; "/gone"; "/more"];
     onceLogDirs := true;
     ioutil_ReadDir := fun d =>
       if String.eqb d "/gone" then inr "open /gone: no such file or directory"
       else ioutil_ReadDir three_segments d;
     os_Stat := os_Stat three_segments;
     os_Open := os_Open three_segments;
     os_OpenFile := os_OpenFile three_segments;
     path_IsAbs := path_IsAbs three_segments;
     path_Base := path_Base three_segments;
     path_Join := path_Join three_segments;
     filepath_Join := filepath_Join three_segments |}.

(** The files that the fetches of the examples open. *)
Definition four_segments_opened : list FileInfo :=
  Eval vm_compute in
    (FetchEntiresFromFiles_opened four_segments INFO (150 * sec) (250 * sec)).1.

Definition cutoff_two_files_opened : list FileInfo :=
  Eval vm_compute in
    (FetchEntiresFromFiles_opened cutoff_two_files INFO (50 * sec) (250 * sec)).1.

Definition three_segments_opened : list FileInfo :=
  Eval vm_compute in
    (FetchEntiresFromFiles_opened three_segments INFO (50 * sec) (250 * sec)).1.

Definition small_cutoff_opened : list FileInfo :=
  Eval vm_compute in
    (FetchEntiresFromFiles_opened small_cutoff INFO (50 * sec) (250 * sec)).1.

End Scenarios.

(** ** Vocabulary of the properties *)

(** The creation time of a segment, as [FetchEntiresFromFiles] reads it. *)
Definition nanoOf (f : FileInfo) : Z := UnixNano (Time_ (Details f)).

(** A listed segment is retained by the first loop. *)
Definition retained (level : Level) (endTimeNano : Z) (f : FileInfo) : Prop :=
  Level_ (Details f) = level ∧ nanoOf f ≤ endTimeNano.

#[global] Instance retained_dec level e f : Decision (retained level e f).
Proof. unfold retained. apply _. Defined.

(** The file that the second loop reads for a timestamp. *)
Definition fileOf (sel : Selection) (nano : Z) : FileInfo :=
  default zeroFileInfo (logFileMap sel !! nano).

(** An entry lies inside the window. *)
Definition inWindow (startTimeNano endTimeNano : Z) (entry : LogEntry) : Prop :=
  startTimeNano ≤ Time entry ∧ Time entry ≤ endTimeNano.

#[global] Instance inWindow_dec s e x : Decision (inWindow s e x).
Proof. unfold inWindow. apply _. Defined.

(** The entries stored in a segment, in the order of the file, when the
    segment can be opened and decoded to its end. *)
Definition segmentEntries (env : Env) (f : FileInfo) : option (list LogEntry) :=
  match GetLogReader env (Name f) false with
  | (Some (OpenFile_ rd), None) =>
      match file_ending rd with
      | None => Some (file_entries rd)
      | Some _ => None
      end
  | _ => None
  end.

(** What a segment contributes to the result of a fetch. *)
Definition keptEntries (env : Env) (startTimeNano endTimeNano : Z) (f : FileInfo)
    : list LogEntry :=
  reverse (filter (inWindow startTimeNano endTimeNano) (default [] (segmentEntries env f))).

(** The [FileInfo] that [ListLogFiles] makes of a directory entry, if the
    entry is verified. *)
Definition toFileInfo (info : OsFileInfo) : option FileInfo :=
  match verifyFileInfo info with
  | (details, None) =>
      Some {| Name := fi_Name info; SizeBytes := fi_Size info;
              ModTimeNanos := fi_ModTime info; Details := details |}
  | (_, Some _) => None
  end.

(** The verified files of a directory, in the order of the directory. *)
Definition dirFiles (env : Env) (dir : string) : list FileInfo :=
  match ioutil_ReadDir env dir with
  | inl infos => omap toFileInfo infos
  | inr _ => []
  end.

(** The path that the loop of [GetLogReader] probes in its last round over
    [dirs]: every round joins its directory in front of the path of the
    round before. *)
Definition probePath (env : Env) (dirs : list string) (filename : string) : string :=
  foldl (λ path dir, path_Join env dir path) filename dirs.

(** Every byte of [s] replaced by a string. *)
Fixpoint substBytes (f : ascii → string) (s : string) : string :=
  match s with
  | EmptyString => EmptyString
  | String a s' => f a +:+ substBytes f s'
  end.

(** Every byte of [s] satisfies [p]. *)
Fixpoint allBytes (p : ascii → bool) (s : string) : bool :=
  match s with
  | EmptyString => true
  | String a s' => p a && allBytes p s'
  end.

Definition notUnderscore (c : ascii) : bool := negb (Ascii.eqb c "_").

(** What [escapeStringForFilename] makes of one byte. *)
Definition escapeByte (a : ascii) : string :=
  if Ascii.eqb a "_" then "__"
  else if Ascii.eqb a "." then "_"
  else String a EmptyString.

(** The times that [Format] renders in the fixed form of RFC 3339 and
    [Parse] accepts: a year of four digits, a date of the calendar, a time
    of the day, and a zone less than a day away from UTC. *)
Definition validTime (t : GoTime.Time) : Prop :=
  0 ≤ year t ≤ 9999
  ∧ 1 ≤ month t ≤ 12
  ∧ 1 ≤ day t ≤ daysIn (month t) (year t)
  ∧ 0 ≤ hour t < 24
  ∧ 0 ≤ minute t < 60
  ∧ 0 ≤ second t < 60
  ∧ -1440 < zoneMinutes t < 1440.

#[global] Instance validTime_dec t : Decision (validTime t).
Proof. unfold validTime. apply _. Defined.

(** A time without its fraction of a second. *)
Definition truncateSecond (t : GoTime.Time) : GoTime.Time :=
  mkTime (year t) (month t) (day t) (hour t) (minute t) (second t) 0 (zoneMinutes t).

Definition twoDigits (n : Z) : string :=
  String (digitChar (n / 10)) (String (digitChar (n mod 10)) EmptyString).

Definition fourDigits (n : Z) : string :=
  String (digitChar (n / 1000))
    (String (digitChar (n / 100 mod 10))
       (String (digitChar (n / 10 mod 10))
          (String (digitChar (n mod 10)) EmptyString))).

(** A byte that can stand in the time token of a file name as it is. *)
Definition plainByte (c : ascii) : bool := notDot c && notUnderscore c.

(** The input after a run of bytes of the class [p] does not go on with a
    byte of the class. *)
Definition stops (p : ascii → bool) (rest : string) : bool :=
  match rest with
  | EmptyString => true
  | String b _ => negb (p b)
  end.

(** [matches r s s' caps caps']: the expression [r] matches the text
    between [s] and its suffix [s'], and the submatches recorded go from
    [caps] to [caps']. *)
Fixpoint matches (r : regex) (s s' : string) (caps caps' : list string) : Prop :=
  match r with
  | Eps => s' = s ∧ caps' = caps
  | Byte c => s = String c s' ∧ caps' = caps
  | ClassPlus p => (∃ w, w ≠ "" ∧ allBytes p w = true ∧ s = w +:+ s') ∧ caps' = caps
  | Seq r1 r2 => ∃ s1 caps1, matches r1 s s1 caps caps1 ∧ matches r2 s1 s' caps1 caps'
  | Alt r1 r2 => matches r1 s s' caps caps' ∨ matches r2 s s' caps caps'
  | Group n r' => ∃ caps1, matches r' s s' caps caps1 ∧ caps' = <[n := consumed s s']> caps1
  end.

(** The creation time that the name of a segment states, in nanoseconds
    since the epoch, as an exact integer: what [UnixNano] returns when no
    [int64] overflows. *)
Definition createdAt (f : FileInfo) : Z :=
  Unix (Time_ (Details f)) * 1000000000 + nanosecond (Time_ (Details f)).

(** The creation time fits an [int64] count of nanoseconds (from
    1677-09-21 to 2262-04-11). *)
Definition representable (f : FileInfo) : Prop :=
  - 2 ^ 63 ≤ createdAt f ≤ MaxInt64.

#[global] Instance representable_dec f : Decision (representable f).
Proof. unfold representable. apply _. Defined.

(** Every segment of the level in a list has a representable creation
    time. *)
Definition representableAt (level : Level) (files : list FileInfo) : Prop :=
  Forall (λ f, Level_ (Details f) = level → representable f) files.

#[global] Instance representableAt_dec level files : Decision (representableAt level files).
Proof. unfold representableAt. apply _. Defined.

(** A segment of the level that was created at [endTimeNano] or before. *)
Definition createdBy (level : Level) (endTimeNano : Z) (f : FileInfo) : Prop :=
  Level_ (Details f) = level ∧ createdAt f ≤ endTimeNano.

#[global] Instance createdBy_dec level e f : Decision (createdBy level e f).
Proof. unfold createdBy. apply _. Defined.

(** The retained segments of a listing that have the timestamp [n], the
    [int64] that keys the file map. *)
Definition duplicates (level : Level) (endTimeNano n : Z) (files : list FileInfo)
    : list FileInfo :=
  filter (λ f, retained level endTimeNano f ∧ nanoOf f = n) files.

(** How many of the files opened have the timestamp [n]. *)
Definition timesOpened (n : Z) (opened : list FileInfo) : nat :=
  length (filter (λ f, nanoOf f = n) opened).

(** The entries of a segment, none if it cannot be read to its end. *)
Definition entriesOf (env : Env) (f : FileInfo) : list LogEntry :=
  default [] (segmentEntries env f).

(** Entries in the order of their times, oldest first and newest first. *)
Definition oldestFirst (es : list LogEntry) : Prop :=
  StronglySorted (λ x y, Time x ≤ Time y) es.

Definition newestFirst (es : list LogEntry) : Prop :=
  StronglySorted (λ x y, Time y ≤ Time x) es.

(** The number of bytes [c] in [s]. *)
Fixpoint countByte (c : ascii) (s : string) : nat :=
  match s with
  | EmptyString => 0
  | String a s' => (if Ascii.eqb a c then 1 else 0) + countByte c s'
  end.

(** * Properties *)

(** ** The first loop of [FetchEntiresFromFiles] *)

Section selection.
Context (level : Level) (startTimeNano endTimeNano : Z).

Local Abbreviation select := (selectFiles level startTimeNano endTimeNano).
Local Abbreviation keep := (retained level endTimeNano).

Lemma selectFiles_snoc logFiles f :
  select (logFiles ++ [f]) = selectFile level startTimeNano endTimeNano (select logFiles) f.
Proof. unfold selectFiles. by rewrite foldl_app. Qed.

Lemma selectFile_keep sel f :
  keep f →
  nanos (selectFile level startTimeNano endTimeNano sel f) = nanos sel ++ [nanoOf f]
  ∧ logFileMap (selectFile level startTimeNano endTimeNano sel f)
    = <[nanoOf f := f]> (logFileMap sel).
Proof.
  intros [Hl He]. unfold nanoOf in *. unfold selectFile.
  rewrite decide_True by done.
  apply Z.leb_le in He. by rewrite He.
Qed.

Lemma selectFile_drop sel f :
  ¬ keep f → selectFile level startTimeNano endTimeNano sel f = sel.
Proof.
  intros Hk. unfold selectFile.
  destruct (decide (Level_ (Details f) = level)) as [Hl|]; [|done].
  destruct (UnixNano (Time_ (Details f)) <=? endTimeNano) eqn:He; [|done].
  exfalso. apply Hk. split; [done|]. by apply Z.leb_le.
Qed.

(** The timestamps gathered are those of the retained segments, in the
    order of the listing. *)
Lemma nanos_selectFiles logFiles :
  nanos (select logFiles) = nanoOf <$> filter keep logFiles.
Proof.
  induction logFiles as [|f l IH] using rev_ind; [done|].
  rewrite selectFiles_snoc, filter_app, fmap_app.
  destruct (decide (keep f)) as [Hk|Hk].
  - destruct (selectFile_keep (select l) f Hk) as [-> _].
    rewrite IH. by rewrite filter_cons_True, filter_nil.
  - rewrite selectFile_drop by done.
    rewrite IH. rewrite filter_cons_False by done. by rewrite filter_nil, app_nil_r.
Qed.

(** The file map holds, for a timestamp, the last listed of the retained
    segments with that timestamp. *)
Lemma logFileMap_selectFiles logFiles nano :
  logFileMap (select logFiles) !! nano
  = last (filter (λ f, keep f ∧ nanoOf f = nano) logFiles).
Proof.
  induction logFiles as [|f l IH] using rev_ind; [done|].
  rewrite selectFiles_snoc, filter_app.
  destruct (decide (keep f)) as [Hk|Hk].
  - destruct (selectFile_keep (select l) f Hk) as [_ ->].
    destruct (decide (nanoOf f = nano)) as [<-|Hne].
    + rewrite lookup_insert_eq. rewrite filter_cons_True by done.
      rewrite filter_nil. by rewrite last_snoc.
    + rewrite lookup_insert_ne by done. rewrite IH.
      rewrite filter_cons_False by tauto. by rewrite filter_nil, app_nil_r.
  - rewrite selectFile_drop by done. rewrite IH.
    rewrite filter_cons_False by tauto. by rewrite filter_nil, app_nil_r.
Qed.

Lemma logFileMap_selectFiles_Some logFiles nano f :
  logFileMap (select logFiles) !! nano = Some f →
  f ∈ logFiles ∧ keep f ∧ nanoOf f = nano.
Proof.
  rewrite logFileMap_selectFiles. intros Hlast.
  apply last_Some in Hlast as [l' Hl'].
  assert (f ∈ filter (λ f, keep f ∧ nanoOf f = nano) logFiles) as Hin.
  { rewrite Hl'. set_solver. }
  apply list_elem_of_filter in Hin. tauto.
Qed.

Lemma nanos_selectFiles_lookup logFiles nano :
  nano ∈ nanos (select logFiles) → is_Some (logFileMap (select logFiles) !! nano).
Proof.
  rewrite nanos_selectFiles, logFileMap_selectFiles.
  intros (f & -> & Hf)%list_elem_of_fmap.
  apply list_elem_of_filter in Hf as [Hk Hf].
  destruct (last _) eqn:Hlast; [done|].
  apply last_None in Hlast.
  assert (f ∈ filter (λ g, keep g ∧ nanoOf g = nanoOf f) logFiles) as Hin.
  { apply list_elem_of_filter. done. }
  rewrite Hlast in Hin. by apply elem_of_nil in Hin.
Qed.

Lemma fileOf_selectFiles logFiles nano :
  nano ∈ nanos (select logFiles) →
  fileOf (select logFiles) nano ∈ logFiles
  ∧ keep (fileOf (select logFiles) nano)
  ∧ nanoOf (fileOf (select logFiles) nano) = nano.
Proof.
  intros [f Hf]%nanos_selectFiles_lookup. unfold fileOf. rewrite Hf. simpl.
  by apply logFileMap_selectFiles_Some.
Qed.
End selection.

(** ** Reading one segment *)

Lemma decodeLoop_eof s e stream acc :
  decodeLoop s e stream None acc = (reverse (filter (inWindow s e) stream) ++ acc, None).
Proof.
  revert acc. induction stream as [|x stream IH]; intros acc; simpl; [done|].
  destruct ((s <=? Time x) && (Time x <=? e)) eqn:Hw.
  - apply andb_true_iff in Hw as [H1%Z.leb_le H2%Z.leb_le].
    rewrite IH, filter_cons_True by done.
    by rewrite reverse_cons, <- app_assoc.
  - rewrite IH, filter_cons_False; [done|].
    intros [H1%Z.leb_le H2%Z.leb_le]. by rewrite H1, H2 in Hw.
Qed.

Lemma decodeLoop_error s e stream err acc :
  decodeLoop s e stream (Some err) acc = ([], Some err).
Proof.
  revert acc. induction stream as [|x stream IH]; intros acc; simpl; [done|].
  by destruct ((s <=? Time x) && (Time x <=? e)).
Qed.

(** A read that returns without an error returns the entries of the
    segment inside the window, newest first when the file is in
    chronological order. *)
Lemma readAllEntriesFromFile_ok env f s e entries :
  readAllEntriesFromFile env f s e = Returns (entries, None) →
  is_Some (segmentEntries env f) ∧ entries = keptEntries env s e f.
Proof.
  unfold readAllEntriesFromFile, keptEntries, segmentEntries.
  destruct (GetLogReader env (Name f) false) as [[[|rd]|] [err|]]; try done.
  destruct (file_ending rd) as [err|] eqn:Hend.
  - rewrite decodeLoop_error. done.
  - rewrite decodeLoop_eof, app_nil_r. intros [= <-]. split; [by eexists|done].
Qed.

Lemma readAllEntriesFromFile_segment env f s e es :
  segmentEntries env f = Some es →
  readAllEntriesFromFile env f s e = Returns (reverse (filter (inWindow s e) es), None).
Proof.
  unfold readAllEntriesFromFile, segmentEntries.
  destruct (GetLogReader env (Name f) false) as [[[|rd]|] [err|]]; try done.
  destruct (file_ending rd) as [err|] eqn:Hend; [done|].
  intros [= <-]. by rewrite decodeLoop_eof, app_nil_r.
Qed.

(** A nil reader makes the read panic, whatever the error that comes with
    it. *)
Lemma readAllEntriesFromFile_nil_reader env f s e err :
  GetLogReader env (Name f) false = (None, err) →
  ∃ msg, readAllEntriesFromFile env f s e = Panics msg.
Proof. unfold readAllEntriesFromFile. intros ->. by eexists. Qed.

(** ** The second loop of [FetchEntiresFromFiles] *)

Section scan.
Context (env : Env) (sel : Selection) (startTimeNano endTimeNano : Z).

Local Abbreviation loop := (fetchLoop env sel startTimeNano endTimeNano).
Local Abbreviation kept := (keptEntries env startTimeNano endTimeNano).

(** The files read are those of a prefix of the scan order. *)
Lemma fetchLoop_opened todo acc :
  ∃ scanned, scanned `prefix_of` todo ∧ (loop todo acc).1 = fileOf sel <$> scanned.
Proof.
  revert acc. induction todo as [|nano todo IH]; intros acc; simpl.
  { by exists []. }
  fold (fileOf sel nano).
  destruct (readAllEntriesFromFile env (fileOf sel nano) startTimeNano endTimeNano)
    as [[newEntries [err|]]|msg]; simpl.
  - exists [nano]. split; [apply prefix_cons, prefix_nil|done].
  - destruct (EntiresCutoff env <=? _).
    { exists [nano]. split; [apply prefix_cons, prefix_nil|done]. }
    destruct (nano =? closestToStartNano sel).
    { exists [nano]. split; [apply prefix_cons, prefix_nil|done]. }
    destruct (IH (acc ++ newEntries)) as (scanned & Hpre & Heq).
    destruct (loop todo (acc ++ newEntries)) as [opened res]. simpl in *.
    exists (nano :: scanned). split; [by apply prefix_cons|]. by rewrite Heq.
  - exists [nano]. split; [apply prefix_cons, prefix_nil|done].
Qed.

(** One round of a scan that ends without an error. *)
Lemma fetchLoop_cons_ok nano todo acc opened entries :
  loop (nano :: todo) acc = (opened, Returns (entries, None)) →
  is_Some (segmentEntries env (fileOf sel nano))
  ∧ ((opened = [fileOf sel nano]
      ∧ entries = acc ++ kept (fileOf sel nano)
      ∧ (EntiresCutoff env ≤ Z.of_nat (length entries) ∨ nano = closestToStartNano sel))
     ∨ (Z.of_nat (length (acc ++ kept (fileOf sel nano))) < EntiresCutoff env
        ∧ nano ≠ closestToStartNano sel
        ∧ ∃ opened', opened = fileOf sel nano :: opened'
            ∧ loop todo (acc ++ kept (fileOf sel nano)) = (opened', Returns (entries, None)))).
Proof.
  simpl. fold (fileOf sel nano).
  destruct (readAllEntriesFromFile env (fileOf sel nano) startTimeNano endTimeNano)
    as [[newEntries [err|]]|msg] eqn:Hread; try done.
  apply readAllEntriesFromFile_ok in Hread as [Hseg ->].
  destruct (EntiresCutoff env <=? _) eqn:Hcut.
  { intros [= <- <-]. split; [done|]. left. apply Z.leb_le in Hcut. auto. }
  apply Z.leb_gt in Hcut.
  destruct (nano =? closestToStartNano sel) eqn:Hclosest.
  { intros [= <- <-]. split; [done|]. left. apply Z.eqb_eq in Hclosest. auto. }
  apply Z.eqb_neq in Hclosest.
  destruct (loop todo _) as [opened' res] eqn:Hrest.
  intros [= <- ->]. split; [done|]. right. eauto.
Qed.

(** The result of a scan that ends without an error is made of what the
    files read contribute, in the order in which they were read. *)
Lemma fetchLoop_entries todo acc opened entries :
  loop todo acc = (opened, Returns (entries, None)) →
  entries = acc ++ concat (kept <$> opened)
  ∧ Forall (λ f, is_Some (segmentEntries env f)) opened.
Proof.
  revert acc opened. induction todo as [|nano todo IH]; intros acc opened.
  { simpl. intros [= <- <-]. by rewrite app_nil_r. }
  intros (Hseg & [(-> & -> & _)|(_ & _ & opened' & -> & Hrest)])%fetchLoop_cons_ok.
  - simpl. rewrite app_nil_r. auto.
  - apply IH in Hrest as [-> Hall]. simpl. rewrite <- app_assoc. auto.
Qed.

(** A further file is read only while fewer entries than the cutoff have
    been gathered. *)
Lemma fetchLoop_cutoff todo acc opened entries before f after :
  loop todo acc = (opened, Returns (entries, None)) →
  opened = before ++ f :: after → after ≠ [] →
  Z.of_nat (length (acc ++ concat (kept <$> before ++ [f]))) < EntiresCutoff env.
Proof.
  revert acc opened before. induction todo as [|nano todo IH]; intros acc opened before.
  { simpl. intros [= <- <-] Heq. by destruct before. }
  intros (Hseg & [(-> & -> & _)|(Hlt & _ & opened' & -> & Hrest)])%fetchLoop_cons_ok Heq Hafter.
  - destruct before as [|? [|]]; simplify_eq/=.
  - destruct before as [|g before]; simplify_eq/=.
    + by rewrite app_nil_r.
    + rewrite app_assoc. by eapply IH.
Qed.
End scan.

(** ** Which segments a fetch retains and opens *)

(** The files opened by a fetch are files of the map built by the first
    loop. *)
Lemma FetchEntiresFromFiles_opened_retained env level s e f :
  f ∈ (FetchEntiresFromFiles_opened env level s e).1 →
  ∃ nano, logFileMap (selectFiles level s e (ListLogFiles env).1) !! nano = Some f.
Proof.
  unfold FetchEntiresFromFiles_opened.
  destruct (ListLogFiles env) as [logFiles [err|]]; simpl.
  { by intros ?%elem_of_nil. }
  destruct (length _ =? 0)%nat; [by intros ?%elem_of_nil|].
  destruct (fetchLoop_opened env (selectFiles level s e logFiles) s e
              (sortReverse (nanos (selectFiles level s e logFiles))) [])
    as (scanned & Hpre & ->).
  intros (nano & -> & Hnano)%list_elem_of_fmap.
  assert (nano ∈ nanos (selectFiles level s e logFiles)) as Hin.
  { destruct Hpre as [rest Hrest].
    unfold sortReverse in Hrest.
    rewrite <- (merge_sort_Permutation (flip Z.le)), Hrest. set_solver. }
  apply nanos_selectFiles_lookup in Hin as [g Hg].
  exists nano. unfold fileOf. by rewrite Hg.
Qed.

(** [FetchEntiresFromFiles] retains in its file map, and opens, only
    listed segments whose decoded level is exactly the requested level (a
    more severe level is not retained either) and whose timestamp, the
    [int64] that [UnixNano] returns, is at most [endTimeNano]. *)
Lemma fetch_retains_int64 env level startTimeNano endTimeNano f :
  (∃ nano, logFileMap (selectFiles level startTimeNano endTimeNano (ListLogFiles env).1)
             !! nano = Some f)
  ∨ f ∈ (FetchEntiresFromFiles_opened env level startTimeNano endTimeNano).1 →
  f ∈ (ListLogFiles env).1
  ∧ Level_ (Details f) = level
  ∧ nanoOf f ≤ endTimeNano.
Proof.
  intros [Hmap|Hopened].
  - destruct Hmap as [nano Hnano].
    apply logFileMap_selectFiles_Some in Hnano as (Hin & [Hl He] & _). auto.
  - apply FetchEntiresFromFiles_opened_retained in Hopened as [nano Hnano].
    apply logFileMap_selectFiles_Some in Hnano as (Hin & [Hl He] & _). auto.
Qed.

(** ** The scenarios, evaluated *)

Section evaluated.
Import Mem Scenarios.

(** The names of the files opened and the result of a fetch. *)
Local Abbreviation run env level s e :=
  (Name <$> (FetchEntiresFromFiles_opened env level s e).1,
   FetchEntiresFromFiles env level s e).

(** C1, counterexample. With INFO segments created at 100 s and 200 s that
    each hold one entry stamped with the creation time, the fetch of level
    INFO over the window from 50 s to 250 s returns the entry of 200 before
    the entry of 100: the result is not in non-decreasing order of time. *)
Lemma fetch_three_segments_newest_first :
  FetchEntiresFromFiles three_segments INFO (50 * sec) (250 * sec)
  = Returns ([entry INFO (200 * sec) "i200"; entry INFO (100 * sec) "i100"], None)
  ∧ ¬ Sorted Z.le [200 * sec; 100 * sec].
Proof.
  split; [by vm_compute|].
  intros Hs. apply Sorted_inv in Hs as [_ Hhd].
  apply HdRel_inv in Hhd. vm_compute in Hhd. by apply Hhd.
Qed.

(** C2, counterexample. With a cutoff of two entries and five entries
    inside the window, three of them in the newest segment, the fetch
    returns three entries. *)
Lemma fetch_small_cutoff_returns_three :
  EntiresCutoff small_cutoff = 2
  ∧ run small_cutoff INFO (50 * sec) (250 * sec)
    = (["cockroach.node1.root.log.INFO.1970-01-01T00_03_20Z.4242"],
       Returns ([entry INFO (220 * sec) "e"; entry INFO (210 * sec) "d";
                 entry INFO (200 * sec) "c"], None)).
Proof. split; by vm_compute. Qed.

(** C3, evaluation at the failing input. Segments stamped 1700, 2000 and
    2011, a window from 2010 to 2012: the boundary segment is the one of
    2000, but the difference between the start of the window and the stamp
    of 1700 does not fit an [int64], wraps to a negative number and makes
    the segment of 1700 the closest one; it is opened after the boundary
    segment. *)
Theorem fetch_far_apart_opens_older_segment :
  wrap64 (UnixNano y2010 - UnixNano y1700) < 0
  ∧ closestToStartNano
      (selectFiles INFO (UnixNano y2010) (UnixNano y2012) (ListLogFiles far_apart).1)
    = UnixNano y1700
  ∧ run far_apart INFO (UnixNano y2010) (UnixNano y2012)
    = (["cockroach.node1.root.log.INFO.2011-01-01T00_00_00Z.4242";
        "cockroach.node1.root.log.INFO.2000-01-01T00_00_00Z.4242";
        "cockroach.node1.root.log.INFO.1700-01-01T00_00_00Z.4242"],
       Returns ([entry INFO (UnixNano y2011) "new";
                 entry INFO (UnixNano y2010 + 1) "mid"], None)).
Proof. repeat split; by vm_compute. Qed.

(** C4, evaluation at the failing input. The first replacement of
    [unescapeStringForFilename] turns every underscore into a period, so
    that the second one finds nothing to do: an underscore of the identity
    comes back as two periods. *)
Theorem unescape_escape_underscore :
  escapeStringForFilename "node_1" = "node__1"
  ∧ unescapeStringForFilename (escapeStringForFilename "node_1") = "node..1"
  ∧ unescapeStringForFilename (escapeStringForFilename "a_.b") = "a...b".
Proof. repeat split; by vm_compute. Qed.

(** C5, counterexample. The name that [logName] produces for the level
    FATAL is rejected by [parseLogFilename]: the expression [logFileRE]
    lists ERROR, WARNING and INFO only. And the name has no digits for the
    fraction of a second: a time with nanoseconds comes back without them,
    so that the time decoded is not the time encoded. *)
Lemma logName_not_reproduced :
  (logName id0 FATAL (mkTime 2015 3 7 9 5 0 0 0)).1
  = "cockroach.node1.root.log.FATAL.2015-03-07T09_05_00Z.4242"
  ∧ parseLogFilename (logName id0 FATAL (mkTime 2015 3 7 9 5 0 0 0)).1
    = (zeroFileDetails, Some "not a log file")
  ∧ (logName id0 INFO (mkTime 2015 3 7 9 5 0 123456 0)).1
    = "cockroach.node1.root.log.INFO.2015-03-07T09_05_00Z.4242"
  ∧ Time_ (parseLogFilename (logName id0 INFO (mkTime 2015 3 7 9 5 0 123456 0)).1).1
    = mkTime 2015 3 7 9 5 0 0 0
  ∧ mkTime 2015 3 7 9 5 0 0 0 ≠ mkTime 2015 3 7 9 5 0 123456 0.
Proof. repeat split; by vm_compute. Qed.

(** C6, evaluation at the failing inputs. [logFileRE] is not anchored and
    its last group takes the leading digits of the last field: a name with
    one more field in front, a name with one more field behind, and a name
    whose pid field is [123abc] are all decoded. *)
Theorem parseLogFilename_accepts_malformed :
  let details pid :=
    {| Program := "a"; Host := "b"; UserName := "c"; Level_ := INFO;
       Time_ := mkTime 2015 1 1 0 0 0 0 0; PID := pid |} in
  parseLogFilename "x.a.b.c.log.INFO.2015-01-01T00_00_00Z.7" = (details 7, None)
  ∧ parseLogFilename "a.b.c.log.INFO.2015-01-01T00_00_00Z.7.gz" = (details 7, None)
  ∧ parseLogFilename "a.b.c.log.INFO.2015-01-01T00_00_00Z.123abc" = (details 123, None).
Proof. repeat split; by vm_compute. Qed.

(** C8, evaluation at the failing input. With the candidate directories
    [/ro] and [/logs], of which only the first refuses new files, [create]
    fails after the single attempt in [/ro]; the file could have been
    opened in [/logs]. *)
Theorem create_stops_at_first_failure :
  let name := "cockroach.node1.root.log.INFO.1970-01-01T00_01_40Z.4242" in
  logDirs two_dirs = ["/ro"; "/logs"]
  ∧ (create two_dirs INFO (at_second 100)).1.2 = [CallOpenFile ("/ro/" +:+ name)]
  ∧ (create two_dirs INFO (at_second 100)).2
    = (None, "", Some ("log: cannot create log: open /ro/" +:+ name +:+ ": permission denied"))
  ∧ os_OpenFile two_dirs ("/logs/" +:+ name)
    = inl {| file_path := "/logs/" +:+ name; file_entries := []; file_ending := None |}.
Proof. repeat split; by vm_compute. Qed.

(** C9, evaluation at the failing input. A listed segment that cannot be
    opened makes [GetLogReader] return a nil reader with an error, and the
    fetch panics; a segment that is opened but cannot be decoded makes the
    fetch return the error without entries. *)
Theorem fetch_unreadable_panics :
  GetLogReader unreadable (logName id0 INFO (at_second 100)).1 false
  = (None, Some "permission denied")
  ∧ FetchEntiresFromFiles unreadable INFO (50 * sec) (250 * sec)
    = Panics "invalid memory address or nil pointer dereference"
  ∧ FetchEntiresFromFiles corrupt INFO (50 * sec) (250 * sec)
    = Returns ([], Some "unexpected EOF").
Proof. repeat split; by vm_compute. Qed.

(** C10, counterexample. Two INFO segments of the pids 4242 and 77 created
    at 100 s, in a window that starts at 150 s: the timestamp is that of
    the boundary segment, and the scan stops after the first of its two
    occurrences. The file of pid 77, listed last, is opened once, not once
    per occurrence, and its entries appear once. *)
Lemma fetch_same_second_boundary_opened_once :
  sortReverse (nanos (selectFiles INFO (150 * sec) (250 * sec) (ListLogFiles same_second).1))
  = [100 * sec; 100 * sec; 40 * sec]
  ∧ run same_second INFO (150 * sec) (250 * sec)
    = (["cockroach.node1.root.log.INFO.1970-01-01T00_01_40Z.77"],
       Returns ([entry INFO (170 * sec) "pid77"], None)).
Proof. split; by vm_compute. Qed.

End evaluated.

(** ** What a fetch returns *)

Lemma elem_of_concat {A} (x : A) (ls : list (list A)) :
  x ∈ concat ls ↔ ∃ l, x ∈ l ∧ l ∈ ls.
Proof.
  rewrite list_elem_of_In, in_concat. split.
  - intros (l & Hl & Hx). exists l. by rewrite !list_elem_of_In.
  - intros (l & Hx & Hl). exists l. by rewrite <- !list_elem_of_In.
Qed.

(** What [FetchEntiresFromFiles_opened] computes once the listing is
    known. *)
Lemma FetchEntiresFromFiles_opened_listed env level s e logFiles :
  ListLogFiles env = (logFiles, None) →
  nanos (selectFiles level s e logFiles) ≠ [] →
  FetchEntiresFromFiles_opened env level s e
  = fetchLoop env (selectFiles level s e logFiles) s e
      (sortReverse (nanos (selectFiles level s e logFiles))) [].
Proof.
  intros Hlist Hne. unfold FetchEntiresFromFiles_opened. rewrite Hlist.
  destruct (nanos (selectFiles level s e logFiles)); [done|done].
Qed.

(** The entries of a fetch that ends without an error, file by file. *)
Lemma FetchEntiresFromFiles_opened_entries env level s e opened entries :
  FetchEntiresFromFiles_opened env level s e = (opened, Returns (entries, None)) →
  entries = concat (keptEntries env s e <$> opened)
  ∧ Forall (λ f, is_Some (segmentEntries env f)) opened.
Proof.
  unfold FetchEntiresFromFiles_opened.
  destruct (ListLogFiles env) as [logFiles [err|]]; [done|].
  destruct (length _ =? 0)%nat.
  { by intros [= <- <-]. }
  apply fetchLoop_entries.
Qed.

(** X1. A fetch that ends without an error returns exactly what the files
    it opened contribute, in the order in which it opened them: for each
    file the entries inside the window, in the reverse of their order in
    the file. Every opened file but the last was followed by another one
    only because fewer entries than [EntiresCutoff] had been gathered. *)
Theorem fetch_returns_kept_entries env level s e opened entries :
  FetchEntiresFromFiles_opened env level s e = (opened, Returns (entries, None)) →
  entries = concat (keptEntries env s e <$> opened)
  ∧ Forall (λ f, is_Some (segmentEntries env f)) opened
  ∧ ∀ before f after,
      opened = before ++ f :: after → after ≠ [] →
      Z.of_nat (length (concat (keptEntries env s e <$> before ++ [f])))
      < EntiresCutoff env.
Proof.
  unfold FetchEntiresFromFiles_opened.
  destruct (ListLogFiles env) as [logFiles [err|]]; [done|].
  destruct (length _ =? 0)%nat.
  { intros [= <- <-]. repeat split; [done|].
    intros before f after Heq. by destruct before. }
  intros Hloop. split_and!.
  - by apply fetchLoop_entries in Hloop as [-> _].
  - by apply fetchLoop_entries in Hloop as [_ ?].
  - intros before f after Heq Hafter.
    by apply (fetchLoop_cutoff _ _ _ _ _ _ _ _ before f after Hloop).
Qed.

Lemma fetch_returns_kept_entries_witness :
  let opened := Scenarios.small_cutoff_opened in
  Mem.entry INFO (220 * Mem.sec) "e" :: Mem.entry INFO (210 * Mem.sec) "d"
    :: [Mem.entry INFO (200 * Mem.sec) "c"]
  = concat (keptEntries Scenarios.small_cutoff (50 * Mem.sec) (250 * Mem.sec) <$> opened)
  ∧ Forall (λ f, is_Some (segmentEntries Scenarios.small_cutoff f)) opened
  ∧ ∀ before f after,
      opened = before ++ f :: after → after ≠ [] →
      Z.of_nat (length (concat (keptEntries Scenarios.small_cutoff
                                  (50 * Mem.sec) (250 * Mem.sec) <$> before ++ [f])))
      < EntiresCutoff Scenarios.small_cutoff.
Proof.
  intros opened.
  apply (fetch_returns_kept_entries Scenarios.small_cutoff INFO
           (50 * Mem.sec) (250 * Mem.sec) opened).
  vm_compute. reflexivity.
Defined.

(** X2. Every entry that a fetch returns lies inside the window, bounds
    included, and is stored in one of the segments that the fetch
    opened. *)
Theorem fetch_entries_in_window env level s e opened entries x :
  FetchEntiresFromFiles_opened env level s e = (opened, Returns (entries, None)) →
  x ∈ entries →
  s ≤ Time x ≤ e
  ∧ ∃ f es, f ∈ opened ∧ segmentEntries env f = Some es ∧ x ∈ es.
Proof.
  intros (-> & Hall)%FetchEntiresFromFiles_opened_entries Hx.
  apply elem_of_concat in Hx as (l & Hxl & Hl).
  apply list_elem_of_fmap in Hl as (f & -> & Hf).
  unfold keptEntries in Hxl.
  apply elem_of_reverse, list_elem_of_filter in Hxl as [Hwin Hxes].
  split; [done|].
  rewrite Forall_forall in Hall. destruct (Hall f Hf) as [es Hes].
  exists f, es. rewrite Hes in Hxes. done.
Qed.

Lemma fetch_entries_in_window_witness :
  50 * Mem.sec ≤ Time (Mem.entry INFO (200 * Mem.sec) "i200") ≤ 250 * Mem.sec
  ∧ ∃ f es,
      f ∈ Scenarios.three_segments_opened
      ∧ segmentEntries Scenarios.three_segments f = Some es
      ∧ Mem.entry INFO (200 * Mem.sec) "i200" ∈ es.
Proof.
  apply (fetch_entries_in_window Scenarios.three_segments INFO
           (50 * Mem.sec) (250 * Mem.sec) Scenarios.three_segments_opened
           [Mem.entry INFO (200 * Mem.sec) "i200"; Mem.entry INFO (100 * Mem.sec) "i100"]).
  - vm_compute. reflexivity.
  - left.
Defined.

Lemma fetchLoop_error_drops_entries env sel s e todo acc entries err :
  (fetchLoop env sel s e todo acc).2 = Returns (entries, Some err) → entries = [].
Proof.
  revert acc. induction todo as [|nano todo IH]; intros acc; simpl; [done|].
  destruct (readAllEntriesFromFile _ _ _ _) as [[newEntries [err'|]]|msg]; simpl.
  - by intros [= <- _].
  - destruct (EntiresCutoff env <=? _); [done|].
    destruct (nano =? _); [done|].
    specialize (IH (acc ++ newEntries)).
    destruct (fetchLoop _ _ _ _ todo _) as [opened res]. simpl in *. done.
  - done.
Qed.

(** X3. A fetch never returns entries together with an error: when the
    listing, the opening or the decoding of a file fails, the entries
    gathered so far are dropped. *)
Theorem fetch_error_drops_entries env level s e entries err :
  FetchEntiresFromFiles env level s e = Returns (entries, Some err) →
  entries = [].
Proof.
  unfold FetchEntiresFromFiles, FetchEntiresFromFiles_opened.
  destruct (ListLogFiles env) as [logFiles [err'|]]; simpl; [by intros [= <- _]|].
  destruct (length _ =? 0)%nat; [done|].
  apply fetchLoop_error_drops_entries.
Qed.

Lemma fetch_error_drops_entries_witness :
  @nil LogEntry = [].
Proof.
  apply (fetch_error_drops_entries Scenarios.corrupt INFO (50 * Mem.sec) (250 * Mem.sec)
           [] "unexpected EOF").
  vm_compute. reflexivity.
Defined.

(** ** Listing *)

Lemma listInfos_app infos results :
  listInfos infos results = results ++ omap toFileInfo infos.
Proof.
  revert results. induction infos as [|info infos IH]; intros results; simpl.
  { by rewrite app_nil_r. }
  unfold toFileInfo. destruct (verifyFileInfo info) as [details [err|]].
  - apply IH.
  - rewrite IH, <- app_assoc. done.
Qed.

Lemma listDirs_readable env dirs results :
  Forall (λ d, ∃ infos, ioutil_ReadDir env d = inl infos) dirs →
  listDirs env dirs results = (results ++ concat (dirFiles env <$> dirs), None).
Proof.
  intros Hall. revert results.
  induction Hall as [|d dirs [infos Hd] _ IH]; intros results; simpl.
  { by rewrite app_nil_r. }
  unfold dirFiles at 1. rewrite Hd, IH, listInfos_app, <- app_assoc. done.
Qed.

Lemma listDirs_app env dirs1 dirs2 results :
  Forall (λ d, ∃ infos, ioutil_ReadDir env d = inl infos) dirs1 →
  listDirs env (dirs1 ++ dirs2) results
  = listDirs env dirs2 (results ++ concat (dirFiles env <$> dirs1)).
Proof.
  intros Hall. revert results.
  induction Hall as [|d dirs [infos Hd] _ IH]; intros results; simpl.
  { by rewrite app_nil_r. }
  unfold dirFiles at 1. rewrite Hd, IH, listInfos_app, <- app_assoc. done.
Qed.

(** X4. When every log directory can be read, [ListLogFiles] returns,
    without an error, the verified files of the directories: the
    directories in the order of [logDirs], the files of a directory in the
    order in which [ioutil.ReadDir] gives them. *)
Theorem ListLogFiles_readable env :
  Forall (λ d, ∃ infos, ioutil_ReadDir env d = inl infos) (logDirs env) →
  ListLogFiles env = (concat (dirFiles env <$> logDirs env), None).
Proof. intros Hall. unfold ListLogFiles. by rewrite listDirs_readable. Qed.

Lemma ListLogFiles_readable_witness :
  ListLogFiles Scenarios.three_segments
  = (concat (dirFiles Scenarios.three_segments <$> logDirs Scenarios.three_segments), None).
Proof.
  apply ListLogFiles_readable.
  constructor; [|constructor].
  eexists. reflexivity.
Defined.

(** X5. The first log directory that cannot be read ends the listing:
    [ListLogFiles] returns the error together with the files of the
    directories before it, and reads no later directory (the result does
    not depend on them). [FetchEntiresFromFiles] then returns the error
    alone and opens no file. *)
Theorem ListLogFiles_unreadable env level s e before dir after err :
  logDirs env = before ++ dir :: after →
  Forall (λ d, ∃ infos, ioutil_ReadDir env d = inl infos) before →
  ioutil_ReadDir env dir = inr err →
  ListLogFiles env = (concat (dirFiles env <$> before), Some err)
  ∧ FetchEntiresFromFiles_opened env level s e = ([], Returns ([], Some err)).
Proof.
  intros Hdirs Hbefore Hdir.
  assert (ListLogFiles env = (concat (dirFiles env <$> before), Some err)) as Hlist.
  { unfold ListLogFiles. rewrite Hdirs, listDirs_app by done. simpl. by rewrite Hdir. }
  split; [done|].
  unfold FetchEntiresFromFiles_opened. by rewrite Hlist.
Qed.

Lemma ListLogFiles_unreadable_witness :
  ListLogFiles Scenarios.unlistable
  = (concat (dirFiles Scenarios.unlistable <$> ["/logs"]),
     Some "open /gone: no such file or directory")
  ∧ FetchEntiresFromFiles_opened Scenarios.unlistable INFO (50 * Mem.sec) (250 * Mem.sec)
    = ([], Returns ([], Some "open /gone: no such file or directory")).
Proof.
  apply (ListLogFiles_unreadable Scenarios.unlistable INFO (50 * Mem.sec) (250 * Mem.sec)
           ["/logs"] "/gone" ["/more"]).
  - reflexivity.
  - constructor; [|constructor]. eexists. reflexivity.
  - reflexivity.
Defined.

(** X6. Every file that [ListLogFiles] returns, with or without an error,
    is an entry of one of the log directories that is a regular file, and
    its [Details] are what [parseLogFilename] decodes from its name. *)
Theorem ListLogFiles_sound env f :
  f ∈ (ListLogFiles env).1 →
  parseLogFilename (Name f) = (Details f, None)
  ∧ ∃ dir infos info,
      dir ∈ logDirs env
      ∧ ioutil_ReadDir env dir = inl infos
      ∧ info ∈ infos
      ∧ Z.land (fi_Mode info) ModeType = 0
      ∧ Name f = fi_Name info
      ∧ SizeBytes f = fi_Size info
      ∧ ModTimeNanos f = fi_ModTime info.
Proof.
  unfold ListLogFiles.
  assert (∀ dirs results,
    f ∈ (listDirs env dirs results).1 →
    f ∈ results ∨ ∃ dir infos, dir ∈ dirs ∧ ioutil_ReadDir env dir = inl infos
                   ∧ f ∈ omap toFileInfo infos) as Hloop.
  { induction dirs as [|d dirs IH]; intros results; simpl; [auto|].
    destruct (ioutil_ReadDir env d) as [infos|err] eqn:Hd; simpl; [|auto].
    intros [Hin|(dir & infos' & ? & ? & ?)]%IH.
    - rewrite listInfos_app in Hin. apply elem_of_app in Hin as [?|?]; [auto|].
      right. exists d, infos. split; [left|done].
    - right. exists dir, infos'. split; [by right|done]. }
  intros [Hnil|(dir & infos & Hdir & Hread & Hf)]%Hloop.
  { by apply elem_of_nil in Hnil. }
  apply list_elem_of_omap in Hf as (info & Hinfo & Hto).
  unfold toFileInfo, verifyFileInfo in Hto.
  destruct (Z.land (fi_Mode info) ModeType =? 0) eqn:Hmode; [|done]. simpl in Hto.
  destruct (parseLogFilename (fi_Name info)) as [details [err|]] eqn:Hparse; [done|].
  injection Hto as <-. simpl. split; [done|].
  exists dir, infos, info. apply Z.eqb_eq in Hmode. by repeat split.
Qed.

Lemma ListLogFiles_sound_witness :
  let f := fileOf (selectFiles INFO (50 * Mem.sec) (250 * Mem.sec)
                     (ListLogFiles Scenarios.three_segments).1) (200 * Mem.sec) in
  parseLogFilename (Name f) = (Details f, None)
  ∧ ∃ dir infos info,
      dir ∈ logDirs Scenarios.three_segments
      ∧ ioutil_ReadDir Scenarios.three_segments dir = inl infos
      ∧ info ∈ infos
      ∧ Z.land (fi_Mode info) ModeType = 0
      ∧ Name f = fi_Name info
      ∧ SizeBytes f = fi_Size info
      ∧ ModTimeNanos f = fi_ModTime info.
Proof.
  intros f. apply (ListLogFiles_sound Scenarios.three_segments f).
  vm_compute. right. right. left.
Defined.

(** When the listing succeeds and the first loop retains no segment, the
    fetch returns an empty sequence without an error and opens no file. *)
Lemma fetch_nothing_retained_int64 env level s e logFiles :
  ListLogFiles env = (logFiles, None) →
  Forall (λ f, ¬ retained level e f) logFiles →
  FetchEntiresFromFiles_opened env level s e = ([], Returns ([], None)).
Proof.
  intros Hlist Hnone. unfold FetchEntiresFromFiles_opened. rewrite Hlist.
  rewrite nanos_selectFiles.
  assert (filter (retained level e) logFiles = []) as ->; [|done].
  clear Hlist. induction Hnone as [|f l Hf _ IH]; [done|].
  by rewrite filter_cons_False.
Qed.

(** ** Opening a segment *)

Lemma getLogReaderLoop_cases env dirs filename err :
  (∃ err', getLogReaderLoop env dirs filename err = (None, err'))
  ∨ ∃ f scanned,
      getLogReaderLoop env dirs filename err = (Some (OpenFile_ f), None)
      ∧ scanned `prefix_of` dirs ∧ scanned ≠ []
      ∧ verifyFile env (probePath env scanned filename) = None
      ∧ os_Open env (probePath env scanned filename) = inl f.
Proof.
  revert filename err. induction dirs as [|dir dirs IH]; intros filename err; simpl.
  { left. by eexists. }
  assert (∀ err0,
    (∃ err', getLogReaderLoop env dirs (path_Join env dir filename) err0 = (None, err'))
    ∨ ∃ f scanned,
        getLogReaderLoop env dirs (path_Join env dir filename) err0
        = (Some (OpenFile_ f), None)
        ∧ scanned `prefix_of` dir :: dirs ∧ scanned ≠ []
        ∧ verifyFile env (probePath env scanned filename) = None
        ∧ os_Open env (probePath env scanned filename) = inl f) as Hrest.
  { intros err0.
    destruct (IH (path_Join env dir filename) err0)
      as [?|(f & scanned & -> & Hpre & _ & Hver & Hopen)]; [by left|].
    right. exists f, (dir :: scanned). split_and!; try done. by apply prefix_cons. }
  destruct (verifyFile env (path_Join env dir filename)) as [verr|] eqn:Hver; [apply Hrest|].
  destruct (os_Open env (path_Join env dir filename)) as [f|e] eqn:Hopen; [|apply Hrest].
  right. exists f, [dir]. split_and!; try done.
  apply prefix_cons, prefix_nil.
Qed.

(** A request from outside gets a nil reader, or an open file and a nil
    error. *)
Lemma GetLogReader_external_reader env filename :
  (∃ err, GetLogReader env filename false = (None, err))
  ∨ ∃ f, GetLogReader env filename false = (Some (OpenFile_ f), None).
Proof.
  unfold GetLogReader.
  destruct (path_IsAbs env filename); simpl; [left; by eexists|].
  destruct (String.eqb (path_Base env filename) filename); simpl; [|left; by eexists].
  destruct (MatchString logFileRE_groups logFileRE filename); simpl; [|left; by eexists].
  destruct (getLogReaderLoop_cases env (logDirs env) filename None)
    as [?|(f & scanned & -> & _)]; [by left|].
  right. by exists f.
Qed.

(** X8. What [GetLogReader] returns for a request from outside
    ([allowAbsolute] false) is either a nil reader, or an open file with a
    nil error. In the second case the name is not absolute, is its own
    base name and matches [logFileRE], and the file was opened under a path
    that [verifyFile] accepted. That path is the name joined behind the
    directories of a non-empty prefix of [logDirs], all of them: the path
    probed in the second directory still carries the first directory. *)
Theorem GetLogReader_external env filename :
  (∃ err, GetLogReader env filename false = (None, err))
  ∨ ∃ f scanned,
      GetLogReader env filename false = (Some (OpenFile_ f), None)
      ∧ path_IsAbs env filename = false
      ∧ path_Base env filename = filename
      ∧ MatchString logFileRE_groups logFileRE filename = true
      ∧ scanned `prefix_of` logDirs env ∧ scanned ≠ []
      ∧ verifyFile env (probePath env scanned filename) = None
      ∧ os_Open env (probePath env scanned filename) = inl f.
Proof.
  unfold GetLogReader.
  destruct (path_IsAbs env filename) eqn:Habs; simpl.
  { left. by eexists. }
  destruct (String.eqb (path_Base env filename) filename) eqn:Hbase; simpl.
  2:{ left. by eexists. }
  destruct (MatchString logFileRE_groups logFileRE filename) eqn:Hre; simpl.
  2:{ left. by eexists. }
  destruct (getLogReaderLoop_cases env (logDirs env) filename None)
    as [?|(f & scanned & -> & ? & ? & ? & ?)]; [by left|].
  right. exists f, scanned. apply String.eqb_eq in Hbase. by split_and!.
Qed.

(** X9. [readAllEntriesFromFile] panics exactly when [GetLogReader] returns
    a nil reader, with or without an error; otherwise the file is open and
    what is returned is the outcome of decoding it. A failure to open a
    segment is therefore never returned as an error. *)
Theorem readAllEntriesFromFile_outcomes env file s e :
  (∃ err, GetLogReader env (Name file) false = (None, err)
     ∧ ∃ msg, readAllEntriesFromFile env file s e = Panics msg)
  ∨ (∃ f, GetLogReader env (Name file) false = (Some (OpenFile_ f), None)
       ∧ readAllEntriesFromFile env file s e
         = Returns (match file_ending f with
                    | None => (reverse (filter (inWindow s e) (file_entries f)), None)
                    | Some err => ([], Some err)
                    end)).
Proof.
  unfold readAllEntriesFromFile.
  destruct (GetLogReader_external_reader env (Name file)) as [[err ->]|(f & ->)].
  - left. exists err. split; [done|]. by eexists.
  - right. exists f. split; [done|].
    destruct (file_ending f) as [err|].
    + by rewrite decodeLoop_error.
    + by rewrite decodeLoop_eof, app_nil_r.
Qed.

(** ** Creating a segment *)

(** X10. With no candidate directory, [create] makes no call and returns
    the error [log: no log dirs]. Otherwise it makes exactly one attempt to
    open a file, in the first candidate directory, however many
    directories follow. When the attempt succeeds, the returned name is
    the path that was opened, the name of the file is the one that
    [logName] gives, and the symlink of the level is removed and made anew
    in the same directory, after the file was opened. When it fails, that
    attempt is the only call: no file and an empty name are returned with
    the error of [os.OpenFile], and no symlink is touched. *)
Theorem create_outcomes env level t env' calls f filename err :
  create env level t = (env', calls, (f, filename, err)) →
  env' = createLogDirs env
  ∧ match logDirs env' with
    | [] => calls = [] ∧ f = None ∧ filename = "" ∧ err = Some "log: no log dirs"
    | dir :: _ =>
        let name := (logName (identity env') level t).1 in
        let symlink := filepath_Join env' dir (logName (identity env') level t).2 in
        let fname := filepath_Join env' dir name in
        match os_OpenFile env' fname with
        | inl file =>
            calls = [CallOpenFile fname; CallRemove symlink; CallSymlink name symlink]
            ∧ f = Some file ∧ filename = fname ∧ err = None
        | inr e =>
            calls = [CallOpenFile fname]
            ∧ f = None ∧ filename = "" ∧ err = Some ("log: cannot create log: " +:+ e)
        end
    end.
Proof.
  unfold create.
  destruct (logDirs (createLogDirs env)) as [|dir rest] eqn:Hdirs; cbn [length Nat.eqb].
  { intros [= <- <- <- <- <-]. rewrite Hdirs. done. }
  destruct (logName (identity (createLogDirs env)) level t) as [name link] eqn:Hname.
  unfold createLoop.
  destruct (os_OpenFile (createLogDirs env) (filepath_Join (createLogDirs env) dir name))
    as [file|e] eqn:Hopen.
  - intros [= <- <- <- <- <-]. rewrite Hdirs, Hname. cbn [fst snd]. cbv zeta.
    rewrite Hopen. done.
  - intros [= <- <- <- <- <-]. rewrite Hdirs, Hname. cbn [fst snd]. cbv zeta.
    rewrite Hopen. done.
Qed.

Lemma create_outcomes_witness :
  let env' := createLogDirs Scenarios.two_dirs in
  let name := "cockroach.node1.root.log.INFO.1970-01-01T00_01_40Z.4242" in
  env' = createLogDirs Scenarios.two_dirs
  ∧ logDirs env' = ["/ro"; "/logs"]
  ∧ [CallOpenFile ("/ro/" +:+ name)] = [CallOpenFile ("/ro/" +:+ name)]
  ∧ @None File = None ∧ "" = ""
  ∧ Some ("log: cannot create log: open /ro/" +:+ name +:+ ": permission denied")
    = Some ("log: cannot create log: " +:+ "open /ro/" +:+ name +:+ ": permission denied").
Proof.
  intros env' name.
  split; [reflexivity|]. split; [reflexivity|].
  apply (create_outcomes Scenarios.two_dirs INFO (Mem.at_second 100) env'
           [CallOpenFile ("/ro/" +:+ name)] None ""
           (Some ("log: cannot create log: open /ro/" +:+ name +:+ ": permission denied"))).
  vm_compute. reflexivity.
Defined.

(** X11. [createLogDirs] takes effect once: after a first [create], the
    package state records that it has run, and no later [create] changes
    the state again; the first call adds at most [logDir] to the
    candidate directories. *)
Theorem create_logDirs_once env level1 t1 level2 t2 :
  let env1 := (create env level1 t1).1.1 in
  onceLogDirs env1 = true
  ∧ (create env1 level2 t2).1.1 = env1
  ∧ (logDirs env1 = logDirs env ∨ logDirs env1 = logDirs env ++ [logDir env]).
Proof.
  assert (∀ e level t, (create e level t).1.1 = createLogDirs e) as Hstate.
  { intros e level t. unfold create.
    destruct (length _ =? 0)%nat; [done|].
    destruct (logName _ _ _) as [name link]. by destruct (createLoop _ _ _ _ _). }
  simpl. rewrite !Hstate.
  assert (onceLogDirs (createLogDirs env) = true) as Honce.
  { unfold createLogDirs. destruct (onceLogDirs env) eqn:H; [done|].
    by destruct (negb _). }
  split_and!; [done| |].
  - unfold createLogDirs at 1. by rewrite Honce.
  - unfold createLogDirs. destruct (onceLogDirs env); [by left|].
    destruct (negb _); simpl; auto.
Qed.

(** ** Strings *)

Lemma string_app_nil_l (s : string) : "" +:+ s = s.
Proof. reflexivity. Qed.

Lemma string_app_cons a (s1 s2 : string) : String a s1 +:+ s2 = String a (s1 +:+ s2).
Proof. reflexivity. Qed.

(** Computation with [+:+], which [simpl] leaves alone. *)
Ltac string_simpl := simpl; rewrite ?string_app_cons, ?string_app_nil_l; simpl.

Lemma string_app_nil_r (s : string) : s +:+ "" = s.
Proof. induction s; string_simpl; congruence. Qed.

Lemma string_app_assoc (s1 s2 s3 : string) : (s1 +:+ s2) +:+ s3 = s1 +:+ s2 +:+ s3.
Proof. induction s1; string_simpl; congruence. Qed.

Lemma string_app_length (s1 s2 : string) :
  String.length (s1 +:+ s2) = (String.length s1 + String.length s2)%nat.
Proof. induction s1; string_simpl; congruence. Qed.

Lemma substBytes_app f s1 s2 :
  substBytes f (s1 +:+ s2) = substBytes f s1 +:+ substBytes f s2.
Proof.
  induction s1 as [|a s1 IH]; string_simpl; [done|]. by rewrite IH, string_app_assoc.
Qed.

Lemma substBytes_substBytes f g s :
  substBytes g (substBytes f s) = substBytes (λ a, substBytes g (f a)) s.
Proof.
  induction s as [|a s IH]; simpl; [done|]. by rewrite substBytes_app, IH.
Qed.

Lemma substBytes_ext f g s :
  (∀ a, f a = g a) → substBytes f s = substBytes g s.
Proof. intros Hfg. induction s as [|a s IH]; simpl; [done|]. by rewrite Hfg, IH. Qed.

Lemma substBytes_id s : substBytes (λ a, String a "") s = s.
Proof. induction s as [|a s IH]; string_simpl; congruence. Qed.

Lemma substBytes_allBytes_id c new s :
  allBytes (λ a, negb (Ascii.eqb a c)) s = true →
  substBytes (λ a, if Ascii.eqb a c then new else String a "") s = s.
Proof.
  induction s as [|a s IH]; simpl; [done|].
  intros [Ha Hs]%andb_true_iff. apply negb_true_iff in Ha. rewrite Ha. string_simpl.
  by rewrite IH.
Qed.

Lemma allBytes_app p s1 s2 :
  allBytes p (s1 +:+ s2) = allBytes p s1 && allBytes p s2.
Proof. induction s1 as [|a s1 IH]; string_simpl; [done|]. by rewrite IH, andb_assoc. Qed.

Lemma allBytes_substBytes p f s :
  (∀ a, allBytes p (f a) = true) → allBytes p (substBytes f s) = true.
Proof.
  intros Hf. induction s as [|a s IH]; simpl; [done|].
  by rewrite allBytes_app, Hf, IH.
Qed.

(** Replacing a single byte is a substitution of bytes. *)
Lemma Replace_byte s c new :
  Replace s (String c "") new
  = substBytes (λ a, if Ascii.eqb a c then new else String a "") s.
Proof.
  unfold Replace.
  destruct (String.eqb_spec (String c "") new) as [<-|Hne].
  - symmetry. rewrite <- (substBytes_id s) at 2. apply substBytes_ext.
    intros a. destruct (Ascii.eqb_spec a c) as [->|]; done.
  - induction s as [|a s IH]; simpl; [done|].
    destruct (Ascii.eqb a c); string_simpl; [|by rewrite IH].
    assert (HasPrefix s "" = true) as -> by (by destruct s).
    by rewrite IH.
Qed.

(** Replacing a double underscore does nothing where there is no
    underscore. *)
Lemma Replace_double_underscore_absent s :
  allBytes notUnderscore s = true → Replace s "__" "_" = s.
Proof.
  unfold Replace. simpl.
  induction s as [|a s IH]; simpl; [done|].
  intros [Ha Hs]%andb_true_iff. unfold notUnderscore in Ha.
  apply negb_true_iff in Ha. rewrite Ha. by rewrite IH.
Qed.

(** ** Escaping *)

Lemma escapeStringForFilename_bytes s :
  escapeStringForFilename s = substBytes escapeByte s.
Proof.
  unfold escapeStringForFilename. rewrite !Replace_byte, substBytes_substBytes.
  apply substBytes_ext. intros a. unfold escapeByte.
  destruct (Ascii.eqb_spec a "_") as [->|Hu]; [done|].
  string_simpl. by rewrite string_app_nil_r.
Qed.

Lemma escapeStringForFilename_notDot s :
  allBytes notDot (escapeStringForFilename s) = true.
Proof.
  rewrite escapeStringForFilename_bytes.
  apply allBytes_substBytes. intros a. unfold escapeByte.
  destruct (Ascii.eqb_spec a "_") as [->|Hu]; [done|].
  destruct (Ascii.eqb_spec a ".") as [->|Hd]; [done|].
  simpl. unfold notDot. apply Ascii.eqb_neq in Hd. by rewrite Hd.
Qed.

Lemma escapeStringForFilename_empty s :
  escapeStringForFilename s = "" → s = "".
Proof.
  rewrite escapeStringForFilename_bytes.
  destruct s as [|a s]; [done|]. simpl. unfold escapeByte.
  destruct (Ascii.eqb a "_"); [done|]. by destruct (Ascii.eqb a ".").
Qed.

(** X12. An escaped identity field contains no period, whatever the
    field: the separator of the file name never occurs inside a field. An
    escaped field is empty only if the field is. *)
Theorem escapeStringForFilename_no_period s :
  allBytes notDot (escapeStringForFilename s) = true
  ∧ (escapeStringForFilename s = "" → s = "").
Proof.
  split; [apply escapeStringForFilename_notDot|apply escapeStringForFilename_empty].
Qed.

(** X13. Escaping works byte by byte, so that it distributes over
    concatenation, and it maps an underscore and two periods to the same
    text: two identities that differ in an underscore against two periods
    have the same escaped form, and no function can undo the escaping for
    both. *)
Theorem escapeStringForFilename_not_injective s1 s2 :
  escapeStringForFilename (s1 +:+ s2)
  = escapeStringForFilename s1 +:+ escapeStringForFilename s2
  ∧ escapeStringForFilename (s1 +:+ "_" +:+ s2)
    = escapeStringForFilename (s1 +:+ ".." +:+ s2).
Proof.
  rewrite !escapeStringForFilename_bytes, !substBytes_app. done.
Qed.

(** Unescaping after escaping, byte by byte. *)
Lemma unescape_escape_bytes s :
  unescapeStringForFilename (escapeStringForFilename s)
  = substBytes (λ a, if Ascii.eqb a "_" then ".." else String a "") s.
Proof.
  unfold unescapeStringForFilename.
  rewrite escapeStringForFilename_bytes, !Replace_byte, substBytes_substBytes.
  assert (∀ a, substBytes (λ b, if Ascii.eqb b "_" then "." else String b "") (escapeByte a)
               = if Ascii.eqb a "_" then ".." else String a "") as Hbyte.
  { intros a. unfold escapeByte.
    destruct (Ascii.eqb_spec a "_") as [->|Hu]; [done|].
    destruct (Ascii.eqb_spec a ".") as [->|Hd]; [done|].
    simpl. apply Ascii.eqb_neq in Hu. by rewrite Hu. }
  rewrite (substBytes_ext _ _ s Hbyte).
  apply Replace_double_underscore_absent, allBytes_substBytes.
  intros a. destruct (Ascii.eqb_spec a "_") as [->|Hu]; [done|].
  simpl. unfold notUnderscore. apply Ascii.eqb_neq in Hu. by rewrite Hu.
Qed.

(** X14. Unescaping an escaped identity gives the identity with every
    underscore replaced by two periods. *)
Theorem unescape_escape s :
  unescapeStringForFilename (escapeStringForFilename s) = Replace s "_" "..".
Proof. by rewrite unescape_escape_bytes, Replace_byte. Qed.

(** X15. [unescapeStringForFilename] reverts [escapeStringForFilename] on
    every identity without an underscore, periods included. *)
Theorem unescape_escape_no_underscore s :
  allBytes notUnderscore s = true →
  unescapeStringForFilename (escapeStringForFilename s) = s.
Proof.
  intros Hs. rewrite unescape_escape_bytes.
  by apply substBytes_allBytes_id.
Qed.

Lemma unescape_escape_no_underscore_witness :
  unescapeStringForFilename (escapeStringForFilename "www.cockroachlabs.com")
  = "www.cockroachlabs.com".
Proof. apply unescape_escape_no_underscore. reflexivity. Defined.

(** X16. [shortHostname] returns the part of the host name before its
    first period: the result has no period, and the host name is the
    result followed by nothing or by a period and the rest. *)
Theorem shortHostname_prefix hostname :
  allBytes notDot (shortHostname hostname) = true
  ∧ (hostname = shortHostname hostname
     ∨ ∃ rest, hostname = shortHostname hostname +:+ "." +:+ rest).
Proof.
  unfold shortHostname.
  induction hostname as [|a h IH]; simpl; [auto|].
  destruct (Ascii.eqb_spec a ".") as [->|Hd].
  { split; [done|]. right. by exists h. }
  apply Ascii.eqb_neq in Hd.
  destruct (beforeByte "." h) as [p|] eqn:Hp; simpl in *.
  - destruct IH as [Hall Hrest]. unfold notDot at 1. rewrite Hd, Hall.
    split; [done|]. right.
    destruct Hrest as [->|[rest ->]].
    + exfalso. clear Hall. induction p as [|b p IHp]; simpl in Hp; [done|].
      destruct (Ascii.eqb b "."); [done|].
      destruct (beforeByte "." p) as [q|]; [|done].
      injection Hp as Hq. apply IHp. by rewrite Hq.
    + by exists rest.
  - destruct IH as [Hall _]. unfold notDot at 1. rewrite Hd, Hall. auto.
Qed.

(** ** Decimal digits *)

Lemma digit_cases d :
  0 ≤ d < 10 →
  d = 0 ∨ d = 1 ∨ d = 2 ∨ d = 3 ∨ d = 4 ∨ d = 5 ∨ d = 6 ∨ d = 7 ∨ d = 8 ∨ d = 9.
Proof. lia. Qed.

Ltac each_digit H :=
  destruct (digit_cases _ H) as [->|[->|[->|[->|[->|[->|[->|[->|[->| ->]]]]]]]]].

Lemma isDigit_digitChar d : 0 ≤ d < 10 → isDigit (digitChar d) = true.
Proof. intros H. each_digit H; reflexivity. Qed.

Lemma digitVal_digitChar d : 0 ≤ d < 10 → digitVal (digitChar d) = d.
Proof. intros H. each_digit H; reflexivity. Qed.

Lemma isDigit_notDot c : isDigit c = true → notDot c = true.
Proof. destruct c as [[] [] [] [] [] [] [] []]; try discriminate; reflexivity. Qed.

Lemma isDigit_notUnderscore c : isDigit c = true → notUnderscore c = true.
Proof. destruct c as [[] [] [] [] [] [] [] []]; try discriminate; reflexivity. Qed.

Lemma allBytes_impl (p q : ascii → bool) s :
  (∀ c, p c = true → q c = true) → allBytes p s = true → allBytes q s = true.
Proof.
  intros Hpq. induction s as [|a s IH]; simpl; [done|].
  intros [Ha Hs]%andb_true_iff. by rewrite (Hpq a Ha), IH.
Qed.

(** What the digit loop of [FormatInt] writes, read back by the digit loop
    of [ParseUint]. *)
Lemma formatBits_S fuel u acc :
  formatBits (S fuel) u acc
  = if u <? 10 then String (digitChar u) acc
    else formatBits fuel (u / 10) (String (digitChar (u mod 10)) acc).
Proof. reflexivity. Qed.

Lemma formatBits_digits fuel u tail :
  0 ≤ u < 10 ^ Z.of_nat (S fuel) →
  ∃ digits,
    formatBits (S fuel) u tail = digits +:+ tail
    ∧ digits ≠ ""
    ∧ allBytes isDigit digits = true
    ∧ ∀ v rest, parseDigits v (digits +:+ rest)
                = parseDigits (v * 10 ^ Z.of_nat (String.length digits) + u) rest.
Proof.
  revert u tail. induction fuel as [|fuel IH]; intros u tail Hu.
  - change (10 ^ Z.of_nat 1) with 10 in Hu.
    simpl. assert ((u <? 10) = true) as -> by lia.
    exists (String (digitChar u) "").
    split_and!; [done|done| |].
    + simpl. by rewrite isDigit_digitChar by lia.
    + intros v rest. string_simpl.
      rewrite isDigit_digitChar, digitVal_digitChar by lia.
      f_equal; try change (Z.of_nat 1) with 1; lia.
  - rewrite formatBits_S. destruct (u <? 10) eqn:Hlt.
    + apply Z.ltb_lt in Hlt. exists (String (digitChar u) "").
      split_and!; [done|done| |].
      * simpl. by rewrite isDigit_digitChar by lia.
      * intros v rest. string_simpl.
        rewrite isDigit_digitChar, digitVal_digitChar by lia.
        f_equal; try change (Z.of_nat 1) with 1; lia.
    + apply Z.ltb_ge in Hlt.
      assert (0 ≤ u `div` 10 < 10 ^ Z.of_nat (S fuel)) as Hdiv.
      { rewrite (Nat2Z.inj_succ (S fuel)), Z.pow_succ_r in Hu by lia.
        split; [apply Z.div_pos; lia|]. apply Z.div_lt_upper_bound; lia. }
      destruct (IH (u `div` 10) (String (digitChar (u `mod` 10)) tail) Hdiv)
        as (digits & Heq & Hne & Hall & Hparse).
      assert (0 ≤ u `mod` 10 < 10) as Hmod by (apply Z.mod_pos_bound; lia).
      exists (digits +:+ String (digitChar (u `mod` 10)) "").
      split_and!.
      * by rewrite Heq, string_app_assoc.
      * destruct digits; [done|]. done.
      * rewrite allBytes_app, Hall. simpl. by rewrite isDigit_digitChar.
      * intros v rest. rewrite string_app_assoc, Hparse. string_simpl.
        rewrite isDigit_digitChar, digitVal_digitChar by done.
        f_equal. rewrite string_app_length. simpl String.length.
        rewrite Nat2Z.inj_add, Z.pow_add_r by lia.
        try change (10 ^ Z.of_nat 1) with 10.
        pose proof (Z.div_mod u 10). lia.
Qed.

Lemma ParseInt_digits a s :
  isDigit a = true →
  ParseInt (String a s)
  = match parseDigits 0 (String a s) with
    | None => inr errSyntax
    | Some un => if 2 ^ 63 <=? un then inr errRange else inl un
    end.
Proof.
  intros Ha. unfold ParseInt.
  destruct a as [[] [] [] [] [] [] [] []]; try discriminate; reflexivity.
Qed.

(** A non-negative [int] printed with [%d] is read back by [ParseInt]; it
    consists of decimal digits only. *)
Lemma ParseInt_FormatInt i :
  0 ≤ i < 2 ^ 63 →
  ParseInt (FormatInt i) = inl i
  ∧ FormatInt i ≠ ""
  ∧ allBytes isDigit (FormatInt i) = true.
Proof.
  intros Hi. unfold FormatInt.
  assert ((i <? 0) = false) as -> by lia.
  destruct (formatBits_digits 19 i "") as (digits & Heq & Hne & Hall & Hparse).
  { split; [lia|]. change (10 ^ Z.of_nat 20) with 100000000000000000000. lia. }
  rewrite string_app_nil_r in Heq. rewrite Heq. split_and!; [|done..].
  destruct digits as [|a digits]; [done|].
  simpl in Hall. apply andb_true_iff in Hall as [Ha _].
  rewrite ParseInt_digits by done.
  specialize (Hparse 0 ""). rewrite string_app_nil_r in Hparse.
  rewrite Hparse. cbn [parseDigits].
  destruct (2 ^ 63 <=? _) eqn:Hrange; [lia|].
  f_equal; lia.
Qed.

(** ** Times in file names *)

(** Linear arithmetic with quotients and remainders by constants. *)
Ltac div_lia := Z.div_mod_to_equations; lia.

Lemma formatBits_lt10 fuel u acc :
  0 ≤ u < 10 → formatBits (S fuel) u acc = String (digitChar u) acc.
Proof. intros Hu. rewrite formatBits_S. by assert ((u <? 10) = true) as -> by lia. Qed.

Lemma formatBits_ge10 fuel u acc :
  10 ≤ u →
  formatBits (S fuel) u acc = formatBits fuel (u / 10) (String (digitChar (u mod 10)) acc).
Proof. intros Hu. rewrite formatBits_S. by assert ((u <? 10) = false) as -> by lia. Qed.

Lemma appendInt_two n : 0 ≤ n < 100 → appendInt n 2 = twoDigits n.
Proof.
  intros Hn. unfold appendInt, twoDigits.
  assert ((n <? 0) = false) as -> by lia. rewrite Z.abs_eq by lia.
  destruct (Z_lt_ge_dec n 10) as [Hlt|Hge].
  - rewrite formatBits_lt10 by lia.
    rewrite Z.div_small, Z.mod_small by lia. reflexivity.
  - rewrite formatBits_ge10, formatBits_lt10 by div_lia. reflexivity.
Qed.

Lemma appendInt_four n : 0 ≤ n ≤ 9999 → appendInt n 4 = fourDigits n.
Proof.
  intros Hn. unfold appendInt, fourDigits.
  assert ((n <? 0) = false) as -> by div_lia. rewrite Z.abs_eq by div_lia.
  destruct (Z_lt_ge_dec n 10) as [H1|H1].
  { rewrite formatBits_lt10 by div_lia.
    rewrite !(Z.div_small n), (Z.mod_small n) by div_lia. reflexivity. }
  rewrite formatBits_ge10 by div_lia.
  destruct (Z_lt_ge_dec n 100) as [H2|H2].
  { rewrite formatBits_lt10 by div_lia.
    rewrite (Z.div_small n 1000), (Z.div_small n 100) by div_lia.
    rewrite (Z.mod_small (n / 10)) by div_lia. reflexivity. }
  rewrite formatBits_ge10 by div_lia.
  rewrite Z.div_div by lia. change (10 * 10) with 100.
  destruct (Z_lt_ge_dec n 1000) as [H3|H3].
  { rewrite formatBits_lt10 by div_lia.
    rewrite (Z.div_small n 1000) by div_lia.
    rewrite (Z.mod_small (n / 100)) by div_lia. reflexivity. }
  rewrite formatBits_ge10, formatBits_lt10 by div_lia.
  rewrite Z.div_div by lia. change (100 * 10) with 1000. reflexivity.
Qed.

Lemma getnum_twoDigits n rest fixed :
  0 ≤ n < 100 → getnum (twoDigits n +:+ rest) fixed = Some (n, rest).
Proof.
  intros Hn. unfold twoDigits. rewrite !string_app_cons, string_app_nil_l.
  assert (0 ≤ n / 10 < 10) by div_lia.
  assert (0 ≤ n mod 10 < 10) by div_lia.
  unfold getnum. rewrite !isDigit_digitChar, !digitVal_digitChar by done.
  do 2 f_equal. div_lia.
Qed.

Lemma getyear_fourDigits n rest :
  0 ≤ n ≤ 9999 → getyear (fourDigits n +:+ rest) = Some (n, rest).
Proof.
  intros Hn. unfold fourDigits. rewrite !string_app_cons, string_app_nil_l.
  assert (0 ≤ n / 1000 < 10) by div_lia.
  assert (0 ≤ n / 100 mod 10 < 10) by div_lia.
  assert (0 ≤ n / 10 mod 10 < 10) by div_lia.
  assert (0 ≤ n mod 10 < 10) by div_lia.
  unfold getyear. rewrite !isDigit_digitChar, !digitVal_digitChar by done.
  simpl. do 2 f_equal. div_lia.
Qed.

Lemma expect_byte c rest : expect c (String c "" +:+ rest) = Some rest.
Proof. rewrite string_app_cons, string_app_nil_l. simpl. by rewrite Ascii.eqb_refl. Qed.

Lemma Format_valid t :
  validTime t →
  Format t
  = fourDigits (year t) +:+ "-" +:+ twoDigits (month t) +:+ "-"
      +:+ twoDigits (day t) +:+ "T" +:+ twoDigits (hour t) +:+ ":"
      +:+ twoDigits (minute t) +:+ ":" +:+ twoDigits (second t)
      +:+ (if zoneMinutes t =? 0 then "Z"
           else (if zoneMinutes t <? 0 then "-" else "+")
                  +:+ twoDigits (Z.abs (zoneMinutes t) / 60) +:+ ":"
                  +:+ twoDigits (Z.abs (zoneMinutes t) mod 60)).
Proof.
  intros (Hy & Hm & Hd & Hh & Hmi & Hs & Hz). unfold Format, formatZone.
  assert (day t ≤ 31).
  { unfold daysIn in Hd. repeat case_match; lia. }
  rewrite appendInt_four by done.
  rewrite !appendInt_two by (try lia; div_lia). done.
Qed.

Lemma getzone_formatZone z :
  -1440 < z < 1440 →
  getzone (if z =? 0 then "Z"
           else (if z <? 0 then "-" else "+")
                  +:+ twoDigits (Z.abs z / 60) +:+ ":" +:+ twoDigits (Z.abs z mod 60))
  = Some (z, "").
Proof.
  intros Hz. destruct (z =? 0) eqn:H0.
  { apply Z.eqb_eq in H0 as ->. reflexivity. }
  apply Z.eqb_neq in H0.
  assert (0 ≤ Z.abs z / 60 < 100) by div_lia.
  assert (0 ≤ Z.abs z mod 60 < 100) by div_lia.
  rewrite <- (string_app_nil_r (twoDigits (Z.abs z `mod` 60))).
  destruct (z <? 0) eqn:Hneg; rewrite string_app_cons, string_app_nil_l;
    cbn [getzone]; rewrite getnum_twoDigits by done; cbn [mbind option_bind];
    rewrite expect_byte; cbn [mbind option_bind];
    rewrite getnum_twoDigits by done; cbn [mbind option_bind]; simpl;
    do 2 f_equal; div_lia.
Qed.

(** The rendering of a valid time is parsed back to the same time,
    without its fraction of a second. *)
Lemma Parse_Format t :
  validTime t → Parse (Format t) = inl (truncateSecond t).
Proof.
  intros Hv. rewrite Format_valid by done.
  destruct Hv as (Hy & Hm & Hd & Hh & Hmi & Hs & Hz).
  assert (day t ≤ 31).
  { unfold daysIn in Hd. repeat case_match; lia. }
  unfold Parse, parseFields.
  rewrite getyear_fourDigits by done. cbn [mbind option_bind].
  rewrite expect_byte. cbn [mbind option_bind].
  rewrite getnum_twoDigits by lia. cbn [mbind option_bind].
  rewrite expect_byte. cbn [mbind option_bind].
  rewrite getnum_twoDigits by lia. cbn [mbind option_bind].
  rewrite expect_byte. cbn [mbind option_bind].
  rewrite getnum_twoDigits by lia. cbn [mbind option_bind].
  rewrite expect_byte. cbn [mbind option_bind].
  rewrite getnum_twoDigits by lia. cbn [mbind option_bind].
  rewrite expect_byte. cbn [mbind option_bind].
  rewrite getnum_twoDigits by lia. cbn [mbind option_bind].
  rewrite getzone_formatZone by done. cbn [mbind option_bind].
  unfold inRange. cbn [month day year hour minute second].
  assert ((1 <=? month t) = true) as -> by lia.
  assert ((month t <=? 12) = true) as -> by lia.
  assert ((1 <=? day t) = true) as -> by lia.
  assert ((day t <=? daysIn (month t) (year t)) = true) as -> by lia.
  assert ((hour t <? 24) = true) as -> by lia.
  assert ((minute t <? 60) = true) as -> by lia.
  assert ((second t <? 60) = true) as -> by lia.
  reflexivity.
Qed.

Lemma allBytes_twoDigits n : 0 ≤ n < 100 → allBytes plainByte (twoDigits n) = true.
Proof.
  intros Hn. unfold twoDigits, plainByte. simpl.
  rewrite !isDigit_notDot, !isDigit_notUnderscore
    by (apply isDigit_digitChar; div_lia). done.
Qed.

Lemma allBytes_fourDigits n : 0 ≤ n ≤ 9999 → allBytes plainByte (fourDigits n) = true.
Proof.
  intros Hn. unfold fourDigits, plainByte. simpl.
  rewrite !isDigit_notDot, !isDigit_notUnderscore
    by (apply isDigit_digitChar; div_lia). done.
Qed.

Lemma Format_plain t :
  validTime t → allBytes plainByte (Format t) = true ∧ Format t ≠ "".
Proof.
  intros Hv. rewrite Format_valid by done.
  destruct Hv as (Hy & Hm & Hd & Hh & Hmi & Hs & Hz).
  assert (day t ≤ 31).
  { unfold daysIn in Hd. repeat case_match; lia. }
  split; [|done].
  rewrite !allBytes_app, allBytes_fourDigits, !allBytes_twoDigits by lia. simpl.
  destruct (zoneMinutes t =? 0); [done|].
  rewrite !allBytes_app, !allBytes_twoDigits by div_lia.
  by destruct (zoneMinutes t <? 0).
Qed.

(** The colons of a time that were replaced by underscores for the file
    name are restored by the inverse replacement; the token has no
    period. *)
Lemma Replace_colons s :
  allBytes plainByte s = true →
  allBytes notDot (Replace s ":" "_") = true
  ∧ Replace (Replace s ":" "_") "_" ":" = s
  ∧ (s ≠ "" → Replace s ":" "_" ≠ "").
Proof.
  rewrite !Replace_byte. intros Hs. split_and!.
  - induction s as [|a s IH]; [done|]. simpl in *.
    apply andb_true_iff in Hs as [[Ha _]%andb_true_iff Hs].
    destruct (Ascii.eqb a ":"); string_simpl; [by rewrite IH|].
    by rewrite Ha, IH.
  - rewrite substBytes_substBytes.
    induction s as [|a s IH]; [done|]. simpl in *.
    apply andb_true_iff in Hs as [[_ Ha]%andb_true_iff Hs].
    rewrite IH by done. unfold notUnderscore in Ha. apply negb_true_iff in Ha.
    destruct (Ascii.eqb_spec a ":") as [->|Hc]; [done|].
    simpl. by rewrite Ha.
  - destruct s as [|a s]; [done|]. intros _. simpl.
    by destruct (Ascii.eqb a ":").
Qed.

(** ** Matching [logFileRE] *)

Lemma plusLoop_stops p k rest : stops p rest = true → plusLoop p k rest = None.
Proof. destruct rest as [|b rest]; simpl; [done|]. by intros ->%negb_true_iff. Qed.

(** A maximal run of bytes of a class is what [c+] takes first. *)
Lemma plusLoop_run p k w rest r :
  w ≠ "" → allBytes p w = true → stops p rest = true →
  k rest = Some r →
  plusLoop p k (w +:+ rest) = Some r.
Proof.
  intros Hne Hall Hstop Hk. induction w as [|a w IH]; [done|].
  simpl in Hall. apply andb_true_iff in Hall as [Ha Hw].
  rewrite string_app_cons. simpl. rewrite Ha.
  destruct w as [|b w].
  - rewrite string_app_nil_l, plusLoop_stops by done. done.
  - by rewrite IH.
Qed.

Lemma substring_app_prefix (w rest : string) :
  substring 0 (String.length w) (w +:+ rest) = w.
Proof.
  induction w as [|a w IH].
  - by destruct rest.
  - rewrite string_app_cons. simpl. by rewrite IH.
Qed.

Lemma consumed_app w rest : consumed (w +:+ rest) rest = w.
Proof.
  unfold consumed. rewrite string_app_length.
  replace (String.length w + String.length rest - String.length rest)%nat
    with (String.length w) by lia.
  apply substring_app_prefix.
Qed.

Lemma consumed_all s : consumed s "" = s.
Proof. rewrite <- (string_app_nil_r s) at 1. apply consumed_app. Qed.

Lemma rmatch_group n r s caps k :
  rmatch (Group n r) s caps k
  = rmatch r s caps (λ s' caps', k s' (<[n := consumed s s']> caps')).
Proof. reflexivity. Qed.

Lemma rmatch_seq r1 r2 s caps k :
  rmatch (Seq r1 r2) s caps k = rmatch r1 s caps (λ s' caps', rmatch r2 s' caps' k).
Proof. reflexivity. Qed.

Lemma rmatch_group_run n p (w rest : string) caps k r :
  w ≠ "" → allBytes p w = true → stops p rest = true →
  k rest (<[n := w]> caps) = Some r →
  rmatch (Group n (ClassPlus p)) (w +:+ rest) caps k = Some r.
Proof.
  intros Hne Hall Hstop Hk. cbn [rmatch].
  apply plusLoop_run; try done. by rewrite consumed_app.
Qed.

Lemma rmatch_byte c rest caps k :
  rmatch (Byte c) (String c "" +:+ rest) caps k = k rest caps.
Proof. rewrite string_app_cons, string_app_nil_l. cbn [rmatch]. by rewrite Ascii.eqb_refl. Qed.

Lemma rmatch_lit l rest caps k :
  rmatch (Lit l) (l +:+ rest) caps k = k rest caps.
Proof.
  revert caps k. induction l as [|c l IH]; intros caps k; [done|].
  rewrite string_app_cons. cbn [Lit rmatch]. by rewrite Ascii.eqb_refl, IH.
Qed.

Lemma rmatch_lit_mismatch c l a s caps k :
  a ≠ c → rmatch (Lit (String c l)) (String a s) caps k = None.
Proof. intros Hne. cbn [Lit rmatch]. apply Ascii.eqb_neq in Hne. by rewrite Hne. Qed.

Lemma rmatch_level n L rest caps k r :
  L = "ERROR" ∨ L = "WARNING" ∨ L = "INFO" →
  k rest (<[n := L]> caps) = Some r →
  rmatch (Group n (Alt (Lit "ERROR") (Alt (Lit "WARNING") (Lit "INFO")))) (L +:+ rest) caps k
  = Some r.
Proof.
  intros HL Hk. rewrite rmatch_group. cbn [rmatch].
  destruct HL as [->|[->| ->]].
  - rewrite rmatch_lit, consumed_app. by rewrite Hk.
  - rewrite (string_app_cons _ _ rest) at 1. rewrite rmatch_lit_mismatch by done.
    rewrite rmatch_lit, consumed_app. by rewrite Hk.
  - rewrite (string_app_cons _ _ rest) at 1. rewrite rmatch_lit_mismatch by done.
    rewrite (string_app_cons _ _ rest) at 1. rewrite rmatch_lit_mismatch by done.
    rewrite rmatch_lit, consumed_app. done.
Qed.

Lemma matchAt_logFileRE (P H U T D : string) L :
  P ≠ "" → allBytes notDot P = true →
  H ≠ "" → allBytes notDot H = true →
  U ≠ "" → allBytes notDot U = true →
  T ≠ "" → allBytes notDot T = true →
  D ≠ "" → allBytes isDigit D = true →
  L = "ERROR" ∨ L = "WARNING" ∨ L = "INFO" →
  matchAt logFileRE_groups logFileRE
    (P +:+ "." +:+ H +:+ "." +:+ U +:+ ".log." +:+ L +:+ "." +:+ T +:+ "." +:+ D)
  = Some [P +:+ "." +:+ H +:+ "." +:+ U +:+ ".log." +:+ L +:+ "." +:+ T +:+ "." +:+ D;
          P; H; U; L; T; D].
Proof.
  intros HP1 HP2 HH1 HH2 HU1 HU2 HT1 HT2 HD1 HD2 HL.
  unfold matchAt, logFileRE, Cat, logFileRE_groups.
  cbn [foldr replicate].
  set (whole := P +:+ _).
  rewrite rmatch_group, rmatch_seq. unfold whole at 1.
  apply rmatch_group_run; [done..|]. rewrite rmatch_seq, rmatch_byte.
  rewrite rmatch_seq. apply rmatch_group_run; [done..|]. rewrite rmatch_seq, rmatch_byte.
  rewrite rmatch_seq. apply rmatch_group_run; [done..|]. rewrite rmatch_seq, rmatch_lit.
  rewrite rmatch_seq. apply rmatch_level; [done|]. rewrite rmatch_seq, rmatch_byte.
  rewrite rmatch_seq. apply rmatch_group_run; [done..|]. rewrite rmatch_seq, rmatch_byte.
  rewrite rmatch_seq. rewrite <- (string_app_nil_r D) at 1.
  apply rmatch_group_run; [done..|]. cbn [rmatch].
  rewrite consumed_all. reflexivity.
Qed.

Lemma FindStringSubmatch_matchAt n r s caps :
  matchAt n r s = Some caps → FindStringSubmatch n r s = Some caps.
Proof. intros Hm. destruct s; simpl; by rewrite Hm. Qed.

Lemma LevelFromString_String level :
  LevelFromString (Level_String level) = (level, true).
Proof. by destruct level. Qed.

(** ** The round trip of the codec *)

(** The details that [parseLogFilename] reads from a name made by
    [logName]. *)
Lemma parseLogFilename_logName_details id level t :
  level ≠ FATAL →
  validTime t →
  program id ≠ "" → host id ≠ "" → userName id ≠ "" →
  0 ≤ pid id < 2 ^ 63 →
  parseLogFilename (logName id level t).1
  = ({| Program := unescapeStringForFilename (escapeStringForFilename (program id));
        Host := unescapeStringForFilename (escapeStringForFilename (host id));
        UserName := unescapeStringForFilename (escapeStringForFilename (userName id));
        Level_ := level;
        Time_ := truncateSecond t;
        PID := pid id |}, None)
  ∧ logName id level (truncateSecond t) = logName id level t.
Proof.
  intros Hlevel Ht Hprogram Hhost Huser Hpid. split; [|done].
  destruct (Format_plain t Ht) as [Hplain Hne].
  destruct (Replace_colons (Format t) Hplain) as (Hnodot & Hback & Hne').
  destruct (ParseInt_FormatInt (pid id) Hpid) as (Hparse & Hdne & Hdigits).
  pose proof (escapeStringForFilename_notDot (program id)) as HP1.
  pose proof (escapeStringForFilename_empty (program id)) as HP2.
  pose proof (escapeStringForFilename_notDot (host id)) as HH1.
  pose proof (escapeStringForFilename_empty (host id)) as HH2.
  pose proof (escapeStringForFilename_notDot (userName id)) as HU1.
  pose proof (escapeStringForFilename_empty (userName id)) as HU2.
  unfold logName. cbn [fst]. unfold parseLogFilename.
  erewrite FindStringSubmatch_matchAt; cycle 1.
  { apply matchAt_logFileRE; auto. destruct level; auto. done. }
  unfold nth_match. cbn [length Nat.eqb negb lookup list_lookup default].
  unfold Datatypes.id.
  rewrite LevelFromString_String. cbn [negb].
  rewrite Hback, Parse_Format by done.
  by rewrite Hparse.
Qed.

(** X17. For the levels INFO, WARNING and ERROR, every valid time, and
    every process identity with a non-empty program, host and user name
    and a pid that is a non-negative [int], [parseLogFilename] decodes the
    name that [logName] produces: it returns no error, the level, the time
    without its fraction of a second (which the name does not carry), and
    the pid; program, host and user come back unescaped. Encoding the
    decoded level and time again gives the same names. *)
Theorem parseLogFilename_logName id level t :
  level ≠ FATAL →
  validTime t →
  program id ≠ "" → host id ≠ "" → userName id ≠ "" →
  0 ≤ pid id < 2 ^ 63 →
  parseLogFilename (logName id level t).1
  = ({| Program := unescapeStringForFilename (escapeStringForFilename (program id));
        Host := unescapeStringForFilename (escapeStringForFilename (host id));
        UserName := unescapeStringForFilename (escapeStringForFilename (userName id));
        Level_ := level;
        Time_ := truncateSecond t;
        PID := pid id |}, None)
  ∧ logName id level (truncateSecond t) = logName id level t.
Proof. apply parseLogFilename_logName_details. Qed.

Lemma parseLogFilename_logName_witness :
  parseLogFilename (logName Mem.id0 WARNING (mkTime 2015 3 7 9 5 0 123456 (-300))).1
  = ({| Program := unescapeStringForFilename (escapeStringForFilename (program Mem.id0));
        Host := unescapeStringForFilename (escapeStringForFilename (host Mem.id0));
        UserName := unescapeStringForFilename (escapeStringForFilename (userName Mem.id0));
        Level_ := WARNING;
        Time_ := truncateSecond (mkTime 2015 3 7 9 5 0 123456 (-300));
        PID := pid Mem.id0 |}, None)
  ∧ logName Mem.id0 WARNING (truncateSecond (mkTime 2015 3 7 9 5 0 123456 (-300)))
    = logName Mem.id0 WARNING (mkTime 2015 3 7 9 5 0 123456 (-300)).
Proof.
  apply parseLogFilename_logName.
  - done.
  - apply (bool_decide_unpack _). vm_compute. reflexivity.
  - done.
  - done.
  - done.
  - vm_compute. split; [discriminate|reflexivity].
Defined.

(** ** What [logFileRE] accepts *)

Lemma plusLoop_sound p k s res :
  plusLoop p k s = Some res →
  ∃ w s', w ≠ "" ∧ allBytes p w = true ∧ s = w +:+ s' ∧ k s' = Some res.
Proof.
  induction s as [|a s IH]; simpl; [done|].
  destruct (p a) eqn:Ha; [|done].
  destruct (plusLoop p k s) as [res'|] eqn:Hloop.
  - intros [= ->]. destruct (IH eq_refl) as (w & s' & Hne & Hall & -> & Hk).
    exists (String a w), s'. simpl. by rewrite Ha, Hall.
  - intros Hk. exists (String a ""), s. simpl. by rewrite Ha.
Qed.

(** Whatever [rmatch] finds is a match in the sense of [matches]. *)
Lemma rmatch_sound r s caps k res :
  rmatch r s caps k = Some res →
  ∃ s' caps', matches r s s' caps caps' ∧ k s' caps' = Some res.
Proof.
  revert s caps k. induction r as [|c|p|r1 IH1 r2 IH2|r1 IH1 r2 IH2|n r IH];
    intros s caps k; cbn [rmatch matches].
  - intros Hk. by exists s, caps.
  - destruct s as [|a s]; [done|]. destruct (Ascii.eqb_spec a c) as [->|]; [|done].
    intros Hk. by exists s, caps.
  - intros (w & s' & Hne & Hall & -> & Hk)%plusLoop_sound.
    exists s', caps. split; [|done]. split; [|done]. by exists w.
  - intros (s1 & caps1 & Hm1 & (s' & caps' & Hm2 & Hk)%IH2)%IH1.
    exists s', caps'. split; [|done]. by exists s1, caps1.
  - destruct (rmatch r1 s caps k) as [res'|] eqn:H1.
    + intros [= ->]. apply IH1 in H1 as (s' & caps' & Hm & Hk).
      exists s', caps'. auto.
    + intros (s' & caps' & Hm & Hk)%IH2. exists s', caps'. auto.
  - intros (s' & caps1 & Hm & Hk)%IH.
    exists s', (<[n := consumed s s']> caps1). split; [|done]. by exists caps1.
Qed.

Lemma FindStringSubmatch_sound n r s caps :
  FindStringSubmatch n r s = Some caps →
  ∃ before s0, s = before +:+ s0 ∧ matchAt n r s0 = Some caps.
Proof.
  induction s as [|a s IH]; simpl.
  - destruct (matchAt n r "") eqn:Hm; [|done]. intros [= ->]. by exists "", "".
  - destruct (matchAt n r (String a s)) eqn:Hm.
    + intros [= ->]. by exists "", (String a s).
    + intros (before & s0 & -> & Hm0)%IH. by exists (String a before), s0.
Qed.

Lemma matches_Lit w s s' caps caps' :
  matches (Lit w) s s' caps caps' → s = w +:+ s' ∧ caps' = caps.
Proof.
  revert s caps. induction w as [|c w IH]; intros s caps; cbn [Lit matches].
  - by intros [-> ->].
  - intros (s1 & caps1 & [-> ->] & [-> ->]%IH). done.
Qed.

Lemma matches_class_group n p s s' caps caps' :
  matches (Group n (ClassPlus p)) s s' caps caps' →
  ∃ w, w ≠ "" ∧ allBytes p w = true ∧ s = w +:+ s' ∧ caps' = <[n := w]> caps.
Proof.
  cbn [matches]. intros (caps1 & [(w & Hne & Hall & ->) ->] & ->).
  exists w. by rewrite consumed_app.
Qed.

(** Whatever [logFileRE] finds in a string has the shape of a log file
    name; the submatches are the match and its six fields. *)
Lemma FindStringSubmatch_logFileRE s caps :
  FindStringSubmatch logFileRE_groups logFileRE s = Some caps →
  ∃ before P H U L T D after,
    s = before +:+ (P +:+ "." +:+ H +:+ "." +:+ U +:+ ".log." +:+ L
                      +:+ "." +:+ T +:+ "." +:+ D) +:+ after
    ∧ caps = [P +:+ "." +:+ H +:+ "." +:+ U +:+ ".log." +:+ L +:+ "." +:+ T +:+ "." +:+ D;
              P; H; U; L; T; D]
    ∧ (P ≠ "" ∧ allBytes notDot P = true)
    ∧ (H ≠ "" ∧ allBytes notDot H = true)
    ∧ (U ≠ "" ∧ allBytes notDot U = true)
    ∧ (L = "ERROR" ∨ L = "WARNING" ∨ L = "INFO")
    ∧ (T ≠ "" ∧ allBytes notDot T = true)
    ∧ (D ≠ "" ∧ allBytes isDigit D = true).
Proof.
  intros (before & s0 & -> & Hm)%FindStringSubmatch_sound.
  unfold matchAt in Hm.
  apply rmatch_sound in Hm as (after & caps' & Hm & [= <-]).
  unfold logFileRE, Cat in Hm. cbn [foldr] in Hm.
  destruct Hm as (c0 & Hm & Hcaps).
  destruct Hm as (s1 & c1 & (P & HP1 & HP2 & Hs0 & Hc1)%matches_class_group & Hm).
  destruct Hm as (s2 & c2 & [Hs1 Hc2] & Hm).
  destruct Hm as (s3 & c3 & (H & HH1 & HH2 & Hs2 & Hc3)%matches_class_group & Hm).
  destruct Hm as (s4 & c4 & [Hs3 Hc4] & Hm).
  destruct Hm as (s5 & c5 & (U & HU1 & HU2 & Hs4 & Hc5)%matches_class_group & Hm).
  destruct Hm as (s6 & c6 & [Hs5 Hc6]%matches_Lit & Hm).
  destruct Hm as (s7 & c7 & (c7' & Hlevel & Hc7) & Hm).
  destruct Hm as (s8 & c8 & [Hs7 Hc8] & Hm).
  destruct Hm as (s9 & c9 & (T & HT1 & HT2 & Hs8 & Hc9)%matches_class_group & Hm).
  destruct Hm as (s10 & c10 & [Hs9 Hc10] & Hm).
  destruct Hm as (s11 & c11 & (D & HD1 & HD2 & Hs10 & Hc11)%matches_class_group & [Hs11 Hc0]).
  assert (∃ L, (L = "ERROR" ∨ L = "WARNING" ∨ L = "INFO")
               ∧ s6 = L +:+ s7 ∧ c7' = c6) as (L & HL & Hs6 & Hc7').
  { cbn [matches] in Hlevel. destruct Hlevel as [Hl|[Hl|Hl]];
      apply matches_Lit in Hl as [-> ->]; eauto 10. }
  subst s11. subst.
  exists before, P, H, U, L, T, D, after.
  assert (Hshape : ∀ rest : string,
             P +:+ String "." (H +:+ String "." (U +:+ ".log." +:+ L
               +:+ String "." (T +:+ String "." (D +:+ rest))))
             = (P +:+ "." +:+ H +:+ "." +:+ U +:+ ".log." +:+ L
                  +:+ "." +:+ T +:+ "." +:+ D) +:+ rest).
  { intros rest. repeat (rewrite ?string_app_assoc; string_simpl). reflexivity. }
  split.
  { f_equal. apply Hshape. }
  split; [|done].
  rewrite Hshape, !consumed_app. reflexivity.
Qed.

Lemma parseDigits_digits s acc :
  allBytes isDigit s = true → 0 ≤ acc →
  ∃ v, parseDigits acc s = Some v ∧ acc ≤ v.
Proof.
  revert acc. induction s as [|a s IH]; simpl; intros acc Hall Hacc.
  - exists acc. split; [done|lia].
  - apply andb_true_iff in Hall as [Ha Hs]. rewrite Ha.
    assert (0 ≤ digitVal a).
    { unfold isDigit in Ha. unfold digitVal. lia. }
    destruct (IH (acc * 10 + digitVal a) Hs) as (v & -> & Hv); [lia|].
    exists v. split; [done|lia].
Qed.

(** [ParseInt] on a non-empty run of digits: the value of the digits, or a
    range error; never a syntax error. *)
Lemma ParseInt_run D :
  D ≠ "" → allBytes isDigit D = true →
  ∃ v, parseDigits 0 D = Some v ∧ 0 ≤ v
       ∧ ParseInt D = if 2 ^ 63 <=? v then inr errRange else inl v.
Proof.
  intros Hne Hall. destruct D as [|a D]; [done|].
  destruct (parseDigits_digits (String a D) 0 Hall) as (v & Hv & Hpos); [done|].
  exists v. split; [done|]. split; [done|].
  rewrite ParseInt_digits, Hv; [done|].
  simpl in Hall. by apply andb_true_iff in Hall as [? _].
Qed.

Lemma countByte_app c s1 s2 :
  countByte c (s1 +:+ s2) = (countByte c s1 + countByte c s2)%nat.
Proof. induction s1 as [|a s1 IH]; string_simpl; [done|]. rewrite IH. lia. Qed.

(** The steps of [parseLogFilename] after the expression has matched. *)
Lemma parseLogFilename_found s caps :
  FindStringSubmatch logFileRE_groups logFileRE s = Some caps →
  ∃ L level,
    nth_match caps 4 = L ∧ Level_String level = L ∧ level ≠ FATAL
    ∧ parseLogFilename s
      = match Parse (Replace (nth_match caps 5) "_" ":") with
        | inr err => (zeroFileDetails, Some err)
        | inl time =>
            match ParseInt (nth_match caps 6) with
            | inr err => (zeroFileDetails, Some err)
            | inl pid =>
                ({| Program := unescapeStringForFilename (nth_match caps 1);
                    Host := unescapeStringForFilename (nth_match caps 2);
                    UserName := unescapeStringForFilename (nth_match caps 3);
                    Level_ := level;
                    Time_ := time;
                    PID := pid |}, None)
            end
        end.
Proof.
  intros Hfind. unfold parseLogFilename. rewrite Hfind.
  apply FindStringSubmatch_logFileRE in Hfind
    as (before & P & H & U & L & T & D & after & _ & -> & _ & _ & _ & HL & _).
  exists L. destruct HL as [->|[->| ->]].
  - exists ERROR. done.
  - exists WARNING. done.
  - exists INFO. done.
Qed.

(** X18. A name that [parseLogFilename] accepts contains, after any text
    and before any text, seven fields separated by periods: three non-empty
    fields without a period, the word [log], the name of the level decoded
    (never FATAL), a field that [time.Parse] reads as the time decoded once
    its underscores are colons, and a non-empty run of digits whose value
    is the pid decoded, between 0 and the largest [int64]. *)
Theorem parseLogFilename_sound s d :
  parseLogFilename s = (d, None) →
  ∃ before P H U T D after,
    s = before +:+ (P +:+ "." +:+ H +:+ "." +:+ U +:+ ".log."
                      +:+ Level_String (Level_ d) +:+ "." +:+ T +:+ "." +:+ D) +:+ after
    ∧ (P ≠ "" ∧ allBytes notDot P = true ∧ Program d = unescapeStringForFilename P)
    ∧ (H ≠ "" ∧ allBytes notDot H = true ∧ Host d = unescapeStringForFilename H)
    ∧ (U ≠ "" ∧ allBytes notDot U = true ∧ UserName d = unescapeStringForFilename U)
    ∧ Level_ d ≠ FATAL
    ∧ (allBytes notDot T = true ∧ Parse (Replace T "_" ":") = inl (Time_ d))
    ∧ (D ≠ "" ∧ allBytes isDigit D = true ∧ parseDigits 0 D = Some (PID d)
       ∧ 0 ≤ PID d < 2 ^ 63).
Proof.
  intros Hparse.
  destruct (FindStringSubmatch logFileRE_groups logFileRE s) as [caps|] eqn:Hfind;
    [|unfold parseLogFilename in Hparse; by rewrite Hfind in Hparse].
  destruct (parseLogFilename_found s caps Hfind) as (L & level & HL & Hname & Hlevel & Heq).
  rewrite Heq in Hparse. clear Heq.
  apply FindStringSubmatch_logFileRE in Hfind
    as (before & P & H & U & L' & T & D & after & -> & -> & HP & HH & HU & _ & HT & HD).
  change (L' = L) in HL. subst L'.
  unfold nth_match in Hparse. cbn [lookup list_lookup default] in Hparse.
  unfold Datatypes.id in Hparse.
  destruct (Parse (Replace T "_" ":")) as [time|] eqn:Htime; [|done].
  destruct (ParseInt_run D) as (v & Hv & Hpos & Hint); [tauto..|].
  rewrite Hint in Hparse.
  destruct (2 ^ 63 <=? v) eqn:Hrange; [done|].
  injection Hparse as <-. cbn [Program Host UserName Level_ Time_ PID].
  exists before, P, H, U, T, D, after. rewrite Hname.
  split; [done|]. split; [tauto|]. split; [tauto|]. split; [tauto|].
  split; [done|]. split; [tauto|].
  split; [tauto|]. split; [tauto|]. split; [done|]. lia.
Qed.

Lemma parseLogFilename_sound_witness :
  ∃ before P H U T D after,
    "/logs/cockroach.node1.me.log.ERROR.2015-03-07T09_05_00Z.042.gz"
    = before +:+ (P +:+ "." +:+ H +:+ "." +:+ U +:+ ".log."
                    +:+ Level_String ERROR +:+ "." +:+ T +:+ "." +:+ D) +:+ after
    ∧ (P ≠ "" ∧ allBytes notDot P = true ∧ "/logs/cockroach" = unescapeStringForFilename P)
    ∧ (H ≠ "" ∧ allBytes notDot H = true ∧ "node1" = unescapeStringForFilename H)
    ∧ (U ≠ "" ∧ allBytes notDot U = true ∧ "me" = unescapeStringForFilename U)
    ∧ ERROR ≠ FATAL
    ∧ (allBytes notDot T = true
       ∧ Parse (Replace T "_" ":") = inl (mkTime 2015 3 7 9 5 0 0 0))
    ∧ (D ≠ "" ∧ allBytes isDigit D = true ∧ parseDigits 0 D = Some 42
       ∧ 0 ≤ 42 < 2 ^ 63).
Proof.
  apply (parseLogFilename_sound
           "/logs/cockroach.node1.me.log.ERROR.2015-03-07T09_05_00Z.042.gz"
           {| Program := "/logs/cockroach"; Host := "node1"; UserName := "me";
              Level_ := ERROR; Time_ := mkTime 2015 3 7 9 5 0 0 0; PID := 42 |}).
  vm_compute. reflexivity.
Defined.

(** X19. The ways in which [parseLogFilename] fails. It then returns the
    zero details, and either the expression matches nowhere in the name
    (error [not a log file]), or [time.Parse] rejects the time field, or
    the digits of the pid field make a number above the largest [int64]
    (a range error). The checks of the number of submatches and of the
    level never fail, and the pid field is never a syntax error. *)
Theorem parseLogFilename_errors s d err :
  parseLogFilename s = (d, Some err) →
  d = zeroFileDetails
  ∧ ((FindStringSubmatch logFileRE_groups logFileRE s = None ∧ err = "not a log file")
     ∨ (∃ caps, FindStringSubmatch logFileRE_groups logFileRE s = Some caps
                ∧ Parse (Replace (nth_match caps 5) "_" ":") = inr err)
     ∨ (∃ caps v, FindStringSubmatch logFileRE_groups logFileRE s = Some caps
                  ∧ parseDigits 0 (nth_match caps 6) = Some v ∧ 2 ^ 63 ≤ v
                  ∧ err = errRange)).
Proof.
  intros Hparse.
  destruct (FindStringSubmatch logFileRE_groups logFileRE s) as [caps|] eqn:Hfind.
  - destruct (parseLogFilename_found s caps Hfind) as (L & level & _ & _ & _ & Heq).
    rewrite Heq in Hparse. clear Heq.
    destruct (Parse (Replace (nth_match caps 5) "_" ":")) as [time|err'] eqn:Htime.
    + pose proof Hfind as Hshape. apply FindStringSubmatch_logFileRE in Hshape
        as (before & P & H & U & L' & T & D & after & _ & -> & _ & _ & _ & _ & _ & HD).
      destruct (ParseInt_run D) as (v & Hv & Hpos & Hint); [tauto..|].
      change (nth_match _ 6) with D in Hparse. rewrite Hint in Hparse.
      destruct (2 ^ 63 <=? v) eqn:Hrange; [|done].
      injection Hparse as <- <-. split; [done|]. right. right.
      eexists _, v. split; [done|]. split; [done|]. split; [lia|done].
    + injection Hparse as <- <-. split; [done|]. right. left. by exists caps.
  - unfold parseLogFilename in Hparse. rewrite Hfind in Hparse.
    injection Hparse as <- <-. auto.
Qed.

Lemma parseLogFilename_errors_witness :
  zeroFileDetails = zeroFileDetails
  ∧ ((FindStringSubmatch logFileRE_groups logFileRE
        "cockroach.node1.me.log.INFO.2015-03-07T09_05_00Z.9223372036854775808" = None
      ∧ errRange = "not a log file")
     ∨ (∃ caps, FindStringSubmatch logFileRE_groups logFileRE
                  "cockroach.node1.me.log.INFO.2015-03-07T09_05_00Z.9223372036854775808"
                = Some caps
                ∧ Parse (Replace (nth_match caps 5) "_" ":") = inr errRange)
     ∨ (∃ caps v, FindStringSubmatch logFileRE_groups logFileRE
                    "cockroach.node1.me.log.INFO.2015-03-07T09_05_00Z.9223372036854775808"
                  = Some caps
                  ∧ parseDigits 0 (nth_match caps 6) = Some v ∧ 2 ^ 63 ≤ v
                  ∧ errRange = errRange)).
Proof.
  apply (parseLogFilename_errors
           "cockroach.node1.me.log.INFO.2015-03-07T09_05_00Z.9223372036854775808"
           zeroFileDetails errRange).
  vm_compute. reflexivity.
Defined.

(** X20. A name with fewer than six periods is not a log file name:
    [parseLogFilename] rejects it with [not a log file], and
    [logFileRE.MatchString] is false. *)
Theorem parseLogFilename_needs_six_periods s :
  (countByte "." s < 6)%nat →
  parseLogFilename s = (zeroFileDetails, Some "not a log file")
  ∧ MatchString logFileRE_groups logFileRE s = false.
Proof.
  intros Hcount.
  destruct (FindStringSubmatch logFileRE_groups logFileRE s) as [caps|] eqn:Hfind.
  - exfalso. apply FindStringSubmatch_logFileRE in Hfind
      as (before & P & H & U & L & T & D & after & -> & _).
    rewrite !countByte_app in Hcount. cbn [countByte Ascii.eqb Bool.eqb] in Hcount. lia.
  - unfold parseLogFilename, MatchString. rewrite Hfind. split; [done|].
    apply bool_decide_eq_false. by intros [? ?].
Qed.

Lemma parseLogFilename_needs_six_periods_witness :
  parseLogFilename "cockroach.node1.log.INFO.2015-03-07T09_05_00Z.42"
  = (zeroFileDetails, Some "not a log file")
  ∧ MatchString logFileRE_groups logFileRE
      "cockroach.node1.log.INFO.2015-03-07T09_05_00Z.42" = false.
Proof.
  apply (parseLogFilename_needs_six_periods
           "cockroach.node1.log.INFO.2015-03-07T09_05_00Z.42").
  vm_compute. lia.
Defined.

(** ** The scan order and the boundary segment *)

Lemma wrap64_small z : - 2 ^ 63 ≤ z < 2 ^ 63 → wrap64 z = z.
Proof. intros Hz. unfold wrap64. rewrite Z.mod_small by lia. lia. Qed.

Lemma sortReverse_sorted l : StronglySorted (flip Z.le) (sortReverse l).
Proof.
  unfold sortReverse. apply StronglySorted_merge_sort.
  - intros x y z. unfold flip. lia.
  - intros x y. unfold flip. lia.
Qed.

Lemma sortReverse_elem_of l x : x ∈ sortReverse l ↔ x ∈ l.
Proof. unfold sortReverse. by rewrite merge_sort_Permutation. Qed.

Section boundary.
Context (level : Level) (startTimeNano endTimeNano : Z).

Local Abbreviation select := (selectFiles level startTimeNano endTimeNano).
Local Abbreviation keep := (retained level endTimeNano).

(** One round of the first loop on a retained segment. *)
Lemma selectFile_closest sel f :
  keep f →
  let closer := (nanoOf f <=? startTimeNano)
                && (wrap64 (startTimeNano - nanoOf f) <? diffToStart sel) in
  diffToStart (selectFile level startTimeNano endTimeNano sel f)
  = (if closer then wrap64 (startTimeNano - nanoOf f) else diffToStart sel)
  ∧ closestToStartNano (selectFile level startTimeNano endTimeNano sel f)
    = (if closer then nanoOf f else closestToStartNano sel).
Proof.
  intros [Hl He]. unfold nanoOf in *. unfold selectFile.
  rewrite decide_True by exact Hl.
  apply Z.leb_le in He. rewrite He. split; reflexivity.
Qed.

(** What the first loop leaves in [closestToStartNano] when no difference
    [startTimeNano - nano] reaches the largest [int64]: the newest of the
    retained timestamps that are at most [startTimeNano], or zero when
    there is none. *)
Lemma closestToStartNano_selectFiles logFiles :
  (∀ f, f ∈ logFiles → keep f → nanoOf f ≤ startTimeNano →
        startTimeNano - nanoOf f < MaxInt64) →
  (diffToStart (select logFiles) = MaxInt64
   ∧ closestToStartNano (select logFiles) = 0
   ∧ ∀ f, f ∈ logFiles → keep f → startTimeNano < nanoOf f)
  ∨ (diffToStart (select logFiles) = startTimeNano - closestToStartNano (select logFiles)
     ∧ closestToStartNano (select logFiles) ≤ startTimeNano
     ∧ startTimeNano - closestToStartNano (select logFiles) < MaxInt64
     ∧ closestToStartNano (select logFiles) ∈ nanos (select logFiles)
     ∧ ∀ f, f ∈ logFiles → keep f → nanoOf f ≤ startTimeNano →
            nanoOf f ≤ closestToStartNano (select logFiles)).
Proof.
  induction logFiles as [|f l IH] using rev_ind; intros Hsmall.
  { left. split; [reflexivity|]. split; [reflexivity|]. by intros f ?%elem_of_nil. }
  assert (∀ g, g ∈ l → keep g → nanoOf g ≤ startTimeNano →
               startTimeNano - nanoOf g < MaxInt64) as Hsmall'.
  { intros g Hg. apply Hsmall. apply elem_of_app. by left. }
  specialize (IH Hsmall').
  rewrite selectFiles_snoc.
  destruct (decide (keep f)) as [Hk|Hk]; cycle 1.
  { rewrite selectFile_drop by exact Hk.
    destruct IH as [(Hd & Hc & Hnone)|(Hd & Hle & Hlt & Hin & Hmax)].
    - left. split; [exact Hd|]. split; [exact Hc|].
      intros g [Hg| ->%list_elem_of_singleton]%elem_of_app Hkg;
        [by apply Hnone|contradiction].
    - right. split; [exact Hd|]. split; [exact Hle|]. split; [exact Hlt|].
      split; [exact Hin|].
      intros g [Hg| ->%list_elem_of_singleton]%elem_of_app Hkg;
        [by apply Hmax|contradiction]. }
  destruct (selectFile_keep level startTimeNano endTimeNano (select l) f Hk) as [Hn _].
  destruct (selectFile_closest (select l) f Hk) as [Hd' Hc'].
  cbv zeta in Hd', Hc'.
  assert (nanoOf f ≤ startTimeNano → startTimeNano - nanoOf f < MaxInt64) as Hf.
  { apply Hsmall; [|exact Hk]. apply elem_of_app. right. by apply list_elem_of_singleton. }
  revert Hn Hd' Hc' Hf IH.
  generalize (selectFile level startTimeNano endTimeNano (select l) f).
  generalize (select l). intros sel sel'.
  assert (∀ g, g ∈ l ++ [f] ↔ g ∈ l ∨ g = f) as Helem.
  { intros g. rewrite elem_of_app, list_elem_of_singleton. tauto. }
  revert Helem. generalize (l ++ [f]). intros l' Helem.
  assert (∃ n, nanoOf f = n) as [n Hnf] by eauto.
  rewrite Hnf.
  intros Hn Hd' Hc' Hf IH.
  assert (∀ g, g ∈ l' → keep g → nanoOf g ≤ startTimeNano →
               (g ∈ l ∧ keep g ∧ nanoOf g ≤ startTimeNano) ∨ nanoOf g = n) as Hcases.
  { intros g [Hg| ->]%Helem Hkg Hgs; [left|right]; tauto. }
  assert (∀ g, g ∈ l' → keep g → g ∈ l ∨ nanoOf g = n) as Hcases'.
  { intros g [Hg| ->]%Helem Hkg; [left|right]; tauto. }
  assert (n ∈ nanos sel') as Hnin.
  { rewrite Hn. apply elem_of_app. right. by apply list_elem_of_singleton. }
  assert (∀ m, m ∈ nanos sel → m ∈ nanos sel') as Hmono.
  { intros m Hm. rewrite Hn. apply elem_of_app. by left. }
  clear Hn Helem Hsmall Hsmall' Hk Hnf.
  destruct (n <=? startTimeNano) eqn:Hstart; cbn [andb] in Hd', Hc'.
  - apply Z.leb_le in Hstart. specialize (Hf Hstart).
    rewrite wrap64_small in Hd', Hc' by (unfold MaxInt64 in Hf; lia).
    destruct IH as [(Hd & Hc & Hnone)|(Hd & Hle & Hlt & Hin & Hmax)].
    + rewrite Hd in Hd', Hc'.
      assert ((startTimeNano - n <? MaxInt64) = true) as Hcmp by lia.
      rewrite Hcmp in Hd', Hc'. right. rewrite Hd', Hc'.
      split; [reflexivity|]. split; [exact Hstart|]. split; [exact Hf|].
      split; [exact Hnin|].
      intros g Hg Hkg Hgs. destruct (Hcases g Hg Hkg Hgs) as [(Hgl & _ & _)|Hgn]; [|lia].
      specialize (Hnone g Hgl Hkg). lia.
    + rewrite Hd in Hd', Hc'.
      destruct (startTimeNano - n <? startTimeNano - closestToStartNano sel) eqn:Hcmp.
      * apply Z.ltb_lt in Hcmp. right. rewrite Hd', Hc'.
        split; [reflexivity|]. split; [exact Hstart|]. split; [exact Hf|].
        split; [exact Hnin|].
        intros g Hg Hkg Hgs. destruct (Hcases g Hg Hkg Hgs) as [(Hgl & _ & _)|Hgn]; [|lia].
        specialize (Hmax g Hgl Hkg Hgs). lia.
      * apply Z.ltb_ge in Hcmp. right. rewrite Hd', Hc'.
        split; [reflexivity|]. split; [exact Hle|]. split; [exact Hlt|].
        split; [by apply Hmono|].
        intros g Hg Hkg Hgs. destruct (Hcases g Hg Hkg Hgs) as [(Hgl & _ & _)|Hgn]; [|lia].
        by apply Hmax.
  - apply Z.leb_gt in Hstart.
    destruct IH as [(Hd & Hc & Hnone)|(Hd & Hle & Hlt & Hin & Hmax)].
    + left. rewrite Hd', Hc'. split; [exact Hd|]. split; [exact Hc|].
      intros g Hg Hkg. destruct (Hcases' g Hg Hkg) as [Hgl|Hgn]; [|lia].
      by apply Hnone.
    + right. rewrite Hd', Hc'.
      split; [exact Hd|]. split; [exact Hle|]. split; [exact Hlt|].
      split; [by apply Hmono|].
      intros g Hg Hkg Hgs. destruct (Hcases g Hg Hkg Hgs) as [(Hgl & _ & _)|Hgn]; [|lia].
      by apply Hmax.
Qed.
End boundary.

(** A scan that ends without an error and below the cutoff reads the
    timestamps in front of the first occurrence of [closestToStartNano],
    then that one, and nothing behind it. *)
Lemma fetchLoop_boundary env sel s e todo acc opened entries :
  fetchLoop env sel s e todo acc = (opened, Returns (entries, None)) →
  Z.of_nat (length entries) < EntiresCutoff env →
  closestToStartNano sel ∈ todo →
  ∃ newer older,
    todo = newer ++ (closestToStartNano sel :: older)
    ∧ (closestToStartNano sel ∉ newer)
    ∧ opened = fileOf sel <$> (newer ++ [closestToStartNano sel]).
Proof.
  revert acc opened. induction todo as [|nano todo IH]; intros acc opened.
  { by intros _ _ ?%elem_of_nil. }
  intros (_ & [(-> & -> & Hstop)|(_ & Hne & opened' & -> & Hrest)])%fetchLoop_cons_ok
         Hcut Hin.
  - destruct Hstop as [Hstop| ->]; [lia|].
    exists [], todo. split; [done|]. split; [apply not_elem_of_nil|done].
  - apply elem_of_cons in Hin as [Heq|Hin]; [done|].
    destruct (IH _ _ Hrest Hcut Hin) as (newer & older & -> & Hnotin & ->).
    exists (nano :: newer), older. split; [done|]. split; [|done].
    intros [?|?]%elem_of_cons; done.
Qed.

(** A scan that never meets [closestToStartNano] and stays below the cutoff
    reads every timestamp. *)
Lemma fetchLoop_all env sel s e todo acc opened entries :
  fetchLoop env sel s e todo acc = (opened, Returns (entries, None)) →
  Z.of_nat (length entries) < EntiresCutoff env →
  closestToStartNano sel ∉ todo →
  opened = fileOf sel <$> todo.
Proof.
  revert acc opened. induction todo as [|nano todo IH]; intros acc opened.
  { simpl. by intros [= <- _]. }
  intros (_ & [(-> & -> & Hstop)|(_ & Hne & opened' & -> & Hrest)])%fetchLoop_cons_ok
         Hcut Hnotin.
  - destruct Hstop as [Hstop| ->]; [lia|]. exfalso. apply Hnotin. by left.
  - rewrite (IH _ _ Hrest Hcut); [done|]. intros ?. apply Hnotin. by right.
Qed.

(** In a list in descending order, what stands in front of the first
    occurrence of [b] is what is greater than [b]. *)
Lemma descending_split newer older b :
  StronglySorted (flip Z.le) (newer ++ b :: older) → b ∉ newer →
  newer = filter (λ n, b < n) (newer ++ b :: older).
Proof.
  intros Hsorted Hnotin.
  assert (Forall (λ n, b < n) newer) as Hnewer.
  { apply Forall_forall. intros n Hn.
    assert (flip Z.le n b) as Hle.
    { eapply StronglySorted_app_1_elem_of; [exact Hsorted|done|by left]. }
    unfold flip in Hle. assert (n ≠ b) by (by intros ->). lia. }
  assert (Forall (λ n, ¬ b < n) (b :: older)) as Holder.
  { apply StronglySorted_app_1_r, StronglySorted_inv in Hsorted as [_ Holder].
    constructor; [lia|]. eapply Forall_impl; [exact Holder|].
    intros n Hn. unfold flip in Hn. lia. }
  rewrite filter_app.
  assert (filter (λ n, b < n) newer = newer) as ->.
  { clear -Hnewer. induction newer as [|n l IH]; [done|].
    apply Forall_cons in Hnewer as [Hn Hl]. by rewrite filter_cons_True, IH. }
  assert (filter (λ n, b < n) (b :: older) = []) as ->; [|by rewrite app_nil_r].
  clear -Holder. generalize dependent (b :: older). intros l Hl.
  induction l as [|n l IH]; [done|].
  apply Forall_cons in Hl as [Hn Hl]. by rewrite filter_cons_False, IH.
Qed.

Lemma nanoOf_fileOf_selectFiles level s e logFiles (ns : list Z) :
  ns ⊆ nanos (selectFiles level s e logFiles) →
  nanoOf <$> (fileOf (selectFiles level s e logFiles) <$> ns) = ns.
Proof.
  intros Hsub. induction ns as [|n ns IH]; [done|].
  rewrite !fmap_cons.
  destruct (fileOf_selectFiles level s e logFiles n) as (_ & _ & ->); [set_solver|].
  rewrite IH; [done|set_solver].
Qed.

(** The timestamps that a fetch reads, in order: a part of the retained
    timestamps, in descending order. *)
Lemma FetchEntiresFromFiles_opened_scanned env level s e :
  ∃ scanned,
    (FetchEntiresFromFiles_opened env level s e).1
    = fileOf (selectFiles level s e (ListLogFiles env).1) <$> scanned
    ∧ scanned ⊆ nanos (selectFiles level s e (ListLogFiles env).1)
    ∧ StronglySorted (flip Z.le) scanned.
Proof.
  unfold FetchEntiresFromFiles_opened.
  destruct (ListLogFiles env) as [logFiles [err|]]; simpl.
  { exists []. split; [done|]. split; [by intros ? ?%elem_of_nil|constructor]. }
  destruct (length _ =? 0)%nat.
  { exists []. split; [done|]. split; [by intros ? ?%elem_of_nil|constructor]. }
  destruct (fetchLoop_opened env (selectFiles level s e logFiles) s e
              (sortReverse (nanos (selectFiles level s e logFiles))) [])
    as (scanned & [rest Hrest] & ->).
  exists scanned. split; [done|]. split.
  - intros n Hn. apply sortReverse_elem_of. rewrite Hrest. apply elem_of_app. by left.
  - pose proof (sortReverse_sorted (nanos (selectFiles level s e logFiles))) as Hsorted.
    rewrite Hrest in Hsorted. by apply StronglySorted_app_1_l in Hsorted.
Qed.

Lemma FetchEntiresFromFiles_opened_sorted env level s e :
  StronglySorted (flip Z.le) (nanoOf <$> (FetchEntiresFromFiles_opened env level s e).1).
Proof.
  destruct (FetchEntiresFromFiles_opened_scanned env level s e)
    as (scanned & -> & Hsub & Hsorted).
  by rewrite nanoOf_fileOf_selectFiles.
Qed.

(** The file read for a timestamp is, among the retained segments with
    that timestamp, the one listed last. *)
Lemma fetch_opens_last_listed_int64 env level s e :
  Forall (λ f, last (filter (λ g, retained level e g ∧ nanoOf g = nanoOf f)
                       (ListLogFiles env).1) = Some f)
    (FetchEntiresFromFiles_opened env level s e).1.
Proof.
  destruct (FetchEntiresFromFiles_opened_scanned env level s e)
    as (scanned & -> & Hsub & _).
  apply Forall_forall. intros f (n & -> & Hn)%list_elem_of_fmap.
  destruct (fileOf_selectFiles level s e _ n (Hsub n Hn)) as (_ & _ & ->).
  destruct (nanos_selectFiles_lookup level s e _ n (Hsub n Hn)) as [g Hg].
  unfold fileOf. rewrite Hg. simpl.
  by rewrite <- (logFileMap_selectFiles level s e).
Qed.

(** The scan down to the boundary timestamp, over the [int64] timestamps
    that the code compares. *)
Lemma fetch_scans_down_to_boundary_int64 env level s e logFiles opened entries b :
  ListLogFiles env = (logFiles, None) →
  (∀ f, f ∈ logFiles → retained level e f → nanoOf f ≤ s → s - nanoOf f < MaxInt64) →
  b ∈ nanoOf <$> filter (retained level e) logFiles →
  b ≤ s →
  (∀ f, f ∈ logFiles → retained level e f → nanoOf f ≤ s → nanoOf f ≤ b) →
  FetchEntiresFromFiles_opened env level s e = (opened, Returns (entries, None)) →
  Z.of_nat (length entries) < EntiresCutoff env →
  nanoOf <$> opened
  = filter (λ n, b < n) (sortReverse (nanoOf <$> filter (retained level e) logFiles)) ++ [b].
Proof.
  intros Hlist Hsmall Hb Hbs Hmax Hfetch Hcut.
  rewrite <- nanos_selectFiles with (startTimeNano := s) in Hb |- *.
  rewrite (FetchEntiresFromFiles_opened_listed env level s e logFiles) in Hfetch;
    [|done|by intros Hnil; rewrite Hnil in Hb; apply elem_of_nil in Hb].
  assert (closestToStartNano (selectFiles level s e logFiles) = b) as Hclosest.
  { destruct (closestToStartNano_selectFiles level s e logFiles Hsmall)
      as [(_ & _ & Hnone)|(_ & Hle & _ & Hin & Hmax')].
    - rewrite nanos_selectFiles in Hb.
      apply list_elem_of_fmap in Hb as (f & -> & [Hk Hf]%list_elem_of_filter).
      specialize (Hnone f Hf Hk). lia.
    - rewrite nanos_selectFiles in Hb, Hin.
      apply list_elem_of_fmap in Hb as (f & -> & [Hk Hf]%list_elem_of_filter).
      apply list_elem_of_fmap in Hin as (g & Hg & [Hkg Hgl]%list_elem_of_filter).
      specialize (Hmax' f Hf Hk Hbs).
      rewrite Hg in Hle. specialize (Hmax g Hgl Hkg Hle). lia. }
  apply fetchLoop_boundary in Hfetch as (newer & older & Hsplit & Hnotin & ->);
    [|done|by rewrite Hclosest; apply sortReverse_elem_of].
  rewrite Hclosest in Hsplit, Hnotin |- *.
  rewrite nanoOf_fileOf_selectFiles.
  - pose proof (sortReverse_sorted (nanos (selectFiles level s e logFiles))) as Hsorted.
    rewrite Hsplit in Hsorted |- *.
    by rewrite <- (descending_split newer older b Hsorted Hnotin).
  - intros n [Hn| ->%list_elem_of_singleton]%elem_of_app;
      apply sortReverse_elem_of; rewrite Hsplit, elem_of_app, elem_of_cons; auto.
Qed.

(** The scan without a boundary timestamp, over the [int64] timestamps
    that the code compares. *)
Lemma fetch_scans_all_int64 env level s e logFiles opened entries :
  ListLogFiles env = (logFiles, None) →
  0 ≤ s →
  (∀ f, f ∈ logFiles → retained level e f → s < nanoOf f) →
  FetchEntiresFromFiles_opened env level s e = (opened, Returns (entries, None)) →
  Z.of_nat (length entries) < EntiresCutoff env →
  nanoOf <$> opened = sortReverse (nanoOf <$> filter (retained level e) logFiles).
Proof.
  intros Hlist Hs Hnewer Hfetch Hcut.
  rewrite <- nanos_selectFiles with (startTimeNano := s).
  unfold FetchEntiresFromFiles_opened in Hfetch. rewrite Hlist in Hfetch.
  destruct (nanos (selectFiles level s e logFiles)) as [|n ns] eqn:Hnanos.
  { simpl in Hfetch. by injection Hfetch as <- _. }
  cbn [length Nat.eqb] in Hfetch. rewrite <- Hnanos in *.
  assert (closestToStartNano (selectFiles level s e logFiles)
          ∉ sortReverse (nanos (selectFiles level s e logFiles))) as Hnotin.
  { destruct (closestToStartNano_selectFiles level s e logFiles)
      as [(_ & Hzero & _)|(_ & Hle & _ & Hin & _)].
    - intros f Hf Hk Hfs. specialize (Hnewer f Hf Hk). lia.
    - rewrite Hzero, sortReverse_elem_of, nanos_selectFiles.
      intros (f & Hf0 & [Hk Hf]%list_elem_of_filter)%list_elem_of_fmap.
      specialize (Hnewer f Hf Hk). lia.
    - rewrite nanos_selectFiles in Hin.
      apply list_elem_of_fmap in Hin as (f & Hf0 & [Hk Hf]%list_elem_of_filter).
      specialize (Hnewer f Hf Hk). lia. }
  rewrite (fetchLoop_all _ _ _ _ _ _ _ _ Hfetch Hcut Hnotin).
  apply nanoOf_fileOf_selectFiles.
  intros m Hm. by apply sortReverse_elem_of.
Qed.

(** ** A name that no directory holds *)

Lemma getLogReaderLoop_none env dirs filename err :
  (∀ scanned, scanned `prefix_of` dirs → scanned ≠ [] →
              verifyFile env (probePath env scanned filename) ≠ None) →
  getLogReaderLoop env dirs filename err = (None, err).
Proof.
  revert filename. induction dirs as [|dir dirs IH]; intros filename Hnone; [done|].
  simpl.
  destruct (verifyFile env (path_Join env dir filename)) as [verr|] eqn:Hver.
  - apply IH. intros scanned Hpre Hne.
    refine (Hnone (dir :: scanned) _ _); [by apply prefix_cons|done].
  - exfalso. refine (Hnone [dir] _ _ Hver); [apply prefix_cons, prefix_nil|done].
Qed.

(** X24. A name that has the form of a log file name but that no log
    directory holds as a verified file gives a nil reader and a nil error,
    whatever [allowAbsolute]: [GetLogReader] reports nothing, and
    [readAllEntriesFromFile] panics on such a file. *)
Theorem GetLogReader_not_found env filename allowAbsolute :
  path_IsAbs env filename = false →
  path_Base env filename = filename →
  MatchString logFileRE_groups logFileRE filename = true →
  (∀ scanned, scanned `prefix_of` logDirs env → scanned ≠ [] →
              verifyFile env (probePath env scanned filename) ≠ None) →
  GetLogReader env filename allowAbsolute = (None, None)
  ∧ ∀ file s e, Name file = filename →
      ∃ msg, readAllEntriesFromFile env file s e = Panics msg.
Proof.
  intros Habs Hbase Hre Hnone.
  assert (∀ allow, GetLogReader env filename allow = (None, None)) as Hget.
  { intros allow. unfold GetLogReader. rewrite Habs, Hbase, String.eqb_refl, Hre.
    cbn [negb]. by apply getLogReaderLoop_none. }
  split; [apply Hget|].
  intros file s e <-. by eapply readAllEntriesFromFile_nil_reader.
Qed.

Lemma GetLogReader_not_found_witness :
  GetLogReader Scenarios.three_segments
    (logName Mem.id0 INFO (Mem.at_second 150)).1 false = (None, None)
  ∧ ∀ file s e, Name file = (logName Mem.id0 INFO (Mem.at_second 150)).1 →
      ∃ msg, readAllEntriesFromFile Scenarios.three_segments file s e = Panics msg.
Proof.
  apply (GetLogReader_not_found Scenarios.three_segments
           (logName Mem.id0 INFO (Mem.at_second 150)).1 false).
  - vm_compute. reflexivity.
  - vm_compute. reflexivity.
  - vm_compute. reflexivity.
  - intros scanned Hpre Hne.
    destruct scanned as [|dir [|dir' scanned]]; [done| |].
    + apply prefix_cons_inv_1 in Hpre as ->. vm_compute. discriminate.
    + apply prefix_cons_inv_2, prefix_nil_inv in Hpre. discriminate.
Defined.

(** ** The order of the entries returned *)

Lemma StronglySorted_filter {A} (R : relation A) (P : A → Prop)
    `{∀ x, Decision (P x)} l :
  StronglySorted R l → StronglySorted R (filter P l).
Proof.
  induction 1 as [|x l Hl IH Hx]; [constructor|].
  destruct (decide (P x)).
  - rewrite filter_cons_True by done. constructor; [done|].
    apply Forall_forall. intros y [_ Hy]%list_elem_of_filter.
    rewrite Forall_forall in Hx. by apply Hx.
  - by rewrite filter_cons_False.
Qed.

Lemma StronglySorted_reverse {A} (R : relation A) l :
  StronglySorted R l → StronglySorted (flip R) (reverse l).
Proof.
  induction 1 as [|x l Hl IH Hx]; [constructor|].
  rewrite reverse_cons. apply StronglySorted_app_2; [|done|repeat constructor].
  intros y z Hy ->%list_elem_of_singleton. rewrite elem_of_reverse in Hy.
  rewrite Forall_forall in Hx. unfold flip. by apply Hx.
Qed.

(** Lists that are each in order, put one after the other, are in order
    when every element of a list is in order with those of the later
    lists. *)
Lemma StronglySorted_concat {A B} (R : relation B) (h : A → list B) l :
  Forall (λ a, StronglySorted R (h a)) l →
  StronglySorted (λ a b, ∀ x y, x ∈ h a → y ∈ h b → R x y) l →
  StronglySorted R (concat (h <$> l)).
Proof.
  intros Hall Hl. induction Hl as [|a l Hl IH Ha]; [constructor|].
  apply Forall_cons in Hall as [Hha Hall].
  simpl. apply StronglySorted_app_2; [|done|by apply IH].
  intros x y Hx (k & Hy & (b & -> & Hb)%list_elem_of_fmap)%elem_of_concat.
  rewrite Forall_forall in Ha. by apply (Ha b Hb).
Qed.

Lemma StronglySorted_strict {A} (h : A → Z) l :
  StronglySorted (flip Z.le) (h <$> l) → NoDup (h <$> l) →
  StronglySorted (λ a b, h b < h a) l.
Proof.
  induction l as [|a l IH]; [constructor|].
  rewrite fmap_cons. intros [Hl Ha]%StronglySorted_inv [Hnotin Hnd]%NoDup_cons.
  constructor; [by apply IH|].
  apply Forall_forall. intros b Hb.
  assert (h b ∈ h <$> l) as Hin by (apply list_elem_of_fmap; eauto).
  rewrite Forall_forall in Ha. specialize (Ha _ Hin). unfold flip in Ha.
  assert (h b ≠ h a) as Hne by (intros Heq; by rewrite Heq in Hin). lia.
Qed.

Lemma StronglySorted_impl_elem {A} (R1 R2 : relation A) l :
  (∀ a b, a ∈ l → b ∈ l → R1 a b → R2 a b) →
  StronglySorted R1 l → StronglySorted R2 l.
Proof.
  intros Himpl Hl. induction Hl as [|a l Hl IH Ha]; [constructor|].
  constructor.
  - apply IH. intros b c Hb Hc. apply Himpl; by right.
  - apply Forall_forall. intros b Hb. rewrite Forall_forall in Ha.
    apply Himpl; [by left|by right|by apply Ha].
Qed.

(** The order of the entries returned, over the [int64] timestamps of
    the files opened. *)
Lemma fetch_entries_newest_first_int64 env level s e opened entries :
  FetchEntiresFromFiles_opened env level s e = (opened, Returns (entries, None)) →
  NoDup (nanoOf <$> opened) →
  Forall (λ f, oldestFirst (entriesOf env f)) opened →
  Forall (λ f, Forall (λ x, nanoOf f ≤ Time x) (entriesOf env f)) opened →
  Forall (λ f, Forall (λ g, nanoOf f < nanoOf g →
                            Forall (λ x, Time x ≤ nanoOf g) (entriesOf env f)) opened)
    opened →
  newestFirst entries.
Proof.
  intros Hfetch Hnodup Hchrono Hafter Hbefore.
  pose proof (FetchEntiresFromFiles_opened_sorted env level s e) as Hsorted.
  rewrite Hfetch in Hsorted. cbn [fst] in Hsorted.
  apply FetchEntiresFromFiles_opened_entries in Hfetch as [-> _].
  rewrite Forall_forall in Hchrono. rewrite Forall_forall in Hafter.
  rewrite Forall_forall in Hbefore.
  apply StronglySorted_concat.
  - apply Forall_forall. intros f Hf.
    unfold keptEntries. fold (entriesOf env f).
    apply (StronglySorted_reverse (λ x y, Time x ≤ Time y)).
    apply StronglySorted_filter. by apply Hchrono.
  - eapply StronglySorted_impl_elem; [|by apply (StronglySorted_strict nanoOf)].
    intros f g Hf Hg Hlt x y Hx Hy. cbv beta.
    unfold keptEntries in Hx, Hy. fold (entriesOf env f) in Hx. fold (entriesOf env g) in Hy.
    apply elem_of_reverse, list_elem_of_filter in Hx as [_ Hx].
    apply elem_of_reverse, list_elem_of_filter in Hy as [_ Hy].
    specialize (Hafter f Hf). rewrite Forall_forall in Hafter. specialize (Hafter x Hx).
    specialize (Hbefore g Hg). rewrite Forall_forall in Hbefore.
    specialize (Hbefore f Hf Hlt). rewrite Forall_forall in Hbefore.
    specialize (Hbefore y Hy). lia.
Qed.

(** ** What [GetLogReader] opens *)

Lemma verifyFile_None env path :
  verifyFile env path = None →
  ∃ info, os_Stat env path = inl info
          ∧ Z.land (fi_Mode info) ModeType = 0
          ∧ (parseLogFilename (fi_Name info)).2 = None.
Proof.
  unfold verifyFile, verifyFileInfo.
  destruct (os_Stat env path) as [info|err] eqn:Hstat; [|done].
  destruct (Z.land (fi_Mode info) ModeType =? 0) eqn:Hmode; [|done].
  apply Z.eqb_eq in Hmode. cbn [negb].
  destruct (parseLogFilename (fi_Name info)) as [details [err|]] eqn:Hparse; [done|].
  intros _. exists info. split; [reflexivity|]. split; [exact Hmode|by rewrite Hparse].
Qed.

(** X26. Whatever [allowAbsolute], a file that [GetLogReader] returns open
    comes with a nil error and was opened under a path that [os.Stat]
    knows as a regular file whose base name [parseLogFilename] accepts.
    With [allowAbsolute] false the name asked for is not absolute. *)
Theorem GetLogReader_opens_verified env filename allowAbsolute f err :
  GetLogReader env filename allowAbsolute = (Some (OpenFile_ f), err) →
  err = None
  ∧ (allowAbsolute = false → path_IsAbs env filename = false)
  ∧ ∃ path info,
      os_Open env path = inl f
      ∧ os_Stat env path = inl info
      ∧ Z.land (fi_Mode info) ModeType = 0
      ∧ (parseLogFilename (fi_Name info)).2 = None.
Proof.
  unfold GetLogReader.
  assert (∀ path, verifyFile env path = None → os_Open env path = inl f →
            ∃ path info, os_Open env path = inl f ∧ os_Stat env path = inl info
              ∧ Z.land (fi_Mode info) ModeType = 0
              ∧ (parseLogFilename (fi_Name info)).2 = None) as Hverified.
  { intros path (info & ? & ? & ?)%verifyFile_None Hopen. by exists path, info. }
  assert ((if negb (String.eqb (path_Base env filename) filename)
           then (None, Some ("pathnames must be basenames only: " +:+ filename))
           else if negb (MatchString logFileRE_groups logFileRE filename)
           then (None, Some ("filename is not a cockroach log file: " +:+ filename))
           else getLogReaderLoop env (logDirs env) filename None)
          = (Some (OpenFile_ f), err) →
          err = None
          ∧ ∃ path info, os_Open env path = inl f ∧ os_Stat env path = inl info
              ∧ Z.land (fi_Mode info) ModeType = 0
              ∧ (parseLogFilename (fi_Name info)).2 = None) as Hloop.
  { destruct (negb (String.eqb _ _)); [done|].
    destruct (negb (MatchString _ _ _)); [done|].
    destruct (getLogReaderLoop_cases env (logDirs env) filename None)
      as [[err' ->]|(f' & scanned & -> & _ & _ & Hver & Hopen)]; [done|].
    intros [= <- <-]. split; [done|]. by eapply Hverified. }
  destruct (path_IsAbs env filename) eqn:Habs.
  - destruct allowAbsolute; cbn [negb]; [|done].
    destruct (verifyFile env filename) as [verr|] eqn:Hver.
    + intros [Herr Hex]%Hloop. split; [done|]. split; [done|]. exact Hex.
    + destruct (os_Open env filename) as [f'|e] eqn:Hopen; [|done].
      intros [= <- <-]. split; [done|]. split; [done|]. by eapply Hverified.
  - intros [Herr Hex]%Hloop. split; [done|]. split; [done|]. exact Hex.
Qed.

Lemma GetLogReader_opens_verified_witness :
  @None error = None
  ∧ (false = false → path_IsAbs Scenarios.three_segments
                       (logName Mem.id0 INFO (Mem.at_second 100)).1 = false)
  ∧ ∃ path info,
      os_Open Scenarios.three_segments path
      = inl {| file_path := "/logs/cockroach.node1.root.log.INFO.1970-01-01T00_01_40Z.4242";
               file_entries := [Mem.entry INFO (100 * Mem.sec) "i100"];
               file_ending := None |}
      ∧ os_Stat Scenarios.three_segments path = inl info
      ∧ Z.land (fi_Mode info) ModeType = 0
      ∧ (parseLogFilename (fi_Name info)).2 = None.
Proof.
  apply (GetLogReader_opens_verified Scenarios.three_segments
           (logName Mem.id0 INFO (Mem.at_second 100)).1 false).
  vm_compute. reflexivity.
Defined.

(** ** The identity set at start-up *)

Lemma shortHostname_notDot hostname : allBytes notDot (shortHostname hostname) = true.
Proof.
  unfold shortHostname.
  induction hostname as [|a h IH]; simpl; [done|].
  destruct (Ascii.eqb a ".") eqn:Hd; [done|].
  destruct (beforeByte "." h) as [p|]; simpl; unfold notDot at 1; by rewrite Hd, IH.
Qed.

Lemma substBytes_ext_allBytes (p : ascii → bool) f g s :
  (∀ a, p a = true → f a = g a) → allBytes p s = true →
  substBytes f s = substBytes g s.
Proof.
  intros Hfg. induction s as [|a s IH]; simpl; [done|].
  intros [Ha Hs]%andb_true_iff. by rewrite (Hfg a Ha), IH.
Qed.

(** X27. [init] sets the host name to the short form of what
    [os.Hostname] returns and the user name to what [user.Current]
    returns with every backslash replaced by an underscore (unchanged if
    it holds none); when a call fails, the default [unknownhost] or
    [unknownuser] stays. The pid and the program name are not touched.
    After [init] the host name therefore holds no period and the user name
    no backslash, and the host field of a log file name is the host name
    with its underscores doubled and nothing else changed. *)
Theorem init_identity os_Getpid arg0 os_Hostname user_Current :
  let id := init (initialIdentity os_Getpid arg0) os_Hostname user_Current in
  pid id = os_Getpid ∧ program id = arg0
  ∧ match os_Hostname with
    | inl h => host id = shortHostname h
    | inr _ => host id = "unknownhost"
    end
  ∧ match user_Current with
    | inl u =>
        userName id = Replace u (String "092" "") "_"
        ∧ (allBytes (λ c, negb (Ascii.eqb c "092")) u = true → userName id = u)
    | inr _ => userName id = "unknownuser"
    end
  ∧ allBytes notDot (host id) = true
  ∧ allBytes (λ c, negb (Ascii.eqb c "092")) (userName id) = true
  ∧ escapeStringForFilename (host id) = Replace (host id) "_" "__".
Proof.
  intros id.
  assert (allBytes notDot (host id) = true) as Hhost.
  { unfold id, init. cbn [host]. destruct os_Hostname as [h|err].
    - apply shortHostname_notDot.
    - reflexivity. }
  split; [reflexivity|]. split; [reflexivity|]. split.
  { unfold id, init. cbn [host]. by destruct os_Hostname. }
  split.
  { unfold id, init. cbn [userName]. destruct user_Current as [u|err]; [|reflexivity].
    split; [reflexivity|]. intros Hu. rewrite Replace_byte.
    by apply substBytes_allBytes_id. }
  split; [exact Hhost|]. split.
  - unfold id, init. cbn [userName]. rewrite Replace_byte.
    apply allBytes_substBytes. intros a.
    destruct (Ascii.eqb a "092") eqn:Ha; [done|]. simpl. by rewrite Ha.
  - rewrite escapeStringForFilename_bytes, Replace_byte.
    apply (substBytes_ext_allBytes notDot); [|exact Hhost].
    intros a Ha. unfold escapeByte. destruct (Ascii.eqb a "_"); [done|].
    unfold notDot in Ha. apply negb_true_iff in Ha. by rewrite Ha.
Qed.

(** ** Creation times within the range of [int64] *)

Lemma nanoOf_representable f : representable f → nanoOf f = createdAt f.
Proof.
  unfold representable, MaxInt64. intros Hf.
  unfold nanoOf, UnixNano. fold (createdAt f). apply wrap64_small. lia.
Qed.

Lemma retained_createdBy level e f :
  (Level_ (Details f) = level → representable f) →
  retained level e f ↔ createdBy level e f.
Proof.
  intros Hrep. unfold retained, createdBy.
  split; intros [Hl He]; (split; [exact Hl|]);
    [rewrite <- nanoOf_representable|rewrite nanoOf_representable]; auto.
Qed.

Lemma filter_ext_elem {A} (P Q : A → Prop) `{∀ x, Decision (P x), ∀ x, Decision (Q x)}
    (l : list A) :
  (∀ x, x ∈ l → P x ↔ Q x) → filter P l = filter Q l.
Proof.
  induction l as [|a l IH]; intros Hext; [reflexivity|].
  assert (filter P l = filter Q l) as Hl.
  { apply IH. intros x Hx. apply Hext. by right. }
  destruct (decide (P a)) as [Ha|Ha].
  - rewrite !filter_cons_True; [by rewrite Hl| |exact Ha].
    apply Hext; [by left|exact Ha].
  - rewrite !filter_cons_False; [exact Hl| |exact Ha].
    intros HQ. apply Ha. apply Hext; [by left|exact HQ].
Qed.

Lemma filter_retained_createdBy level e files :
  representableAt level files →
  filter (retained level e) files = filter (createdBy level e) files.
Proof.
  intros Hrep. apply filter_ext_elem. intros f Hf.
  apply retained_createdBy. unfold representableAt in Hrep.
  rewrite Forall_forall in Hrep. by apply Hrep.
Qed.

Lemma fmap_nanoOf_createdAt files :
  Forall representable files → nanoOf <$> files = createdAt <$> files.
Proof.
  intros Hrep. apply Forall_fmap_ext. eapply Forall_impl; [exact Hrep|].
  intros f Hf. by apply nanoOf_representable.
Qed.

Lemma filter_retained_representable level e files :
  representableAt level files → Forall representable (filter (retained level e) files).
Proof.
  unfold representableAt. rewrite !Forall_forall.
  intros Hrep f [[Hl _] Hf]%list_elem_of_filter. by apply Hrep.
Qed.

(** The files that a fetch opens have representable creation times when
    the listed segments of the level have. *)
Lemma FetchEntiresFromFiles_opened_representable env level s e :
  representableAt level (ListLogFiles env).1 →
  Forall representable (FetchEntiresFromFiles_opened env level s e).1.
Proof.
  unfold representableAt. rewrite !Forall_forall. intros Hrep f Hf.
  destruct (fetch_retains_int64 env level s e f) as (Hin & Hl & _); [by right|].
  by apply Hrep.
Qed.

(** X7. When the listing succeeds, every listed segment of the requested
    level has a creation time within the range of [int64] and none of them
    was created at [endTimeNano] or before, the fetch returns an empty
    sequence without an error and opens no file. *)
Theorem fetch_nothing_retained env level s e logFiles :
  ListLogFiles env = (logFiles, None) →
  representableAt level logFiles →
  Forall (λ f, ¬ createdBy level e f) logFiles →
  FetchEntiresFromFiles_opened env level s e = ([], Returns ([], None)).
Proof.
  intros Hlist Hrep Hnone. apply (fetch_nothing_retained_int64 _ _ _ _ logFiles Hlist).
  unfold representableAt in Hrep. rewrite Forall_forall in Hrep, Hnone |- *.
  intros f Hf Hret. apply (Hnone f Hf).
  apply retained_createdBy; [by apply Hrep|exact Hret].
Qed.

Lemma fetch_nothing_retained_witness :
  FetchEntiresFromFiles_opened Scenarios.three_segments INFO (10 * Mem.sec) (50 * Mem.sec)
  = ([], Returns ([], None)).
Proof.
  apply (fetch_nothing_retained Scenarios.three_segments INFO (10 * Mem.sec)
           (50 * Mem.sec) (ListLogFiles Scenarios.three_segments).1).
  - vm_compute. reflexivity.
  - apply (bool_decide_unpack _). vm_compute. reflexivity.
  - apply (bool_decide_unpack _). vm_compute. reflexivity.
Defined.

(** X21. The segments are opened newest first. When every listed segment
    of the requested level has a creation time within the range of
    [int64], the creation times of the files that a fetch opens, in the
    order in which it opens them, never increase; and every file opened
    is, among the listed segments of the level that were created at
    [endTimeNano] or before and have its creation time, the one listed
    last: a segment that is followed in the listing by another one of the
    same level and creation time is not the one read for that time. *)
Theorem fetch_opens_newest_first env level s e :
  representableAt level (ListLogFiles env).1 →
  StronglySorted (flip Z.le) (createdAt <$> (FetchEntiresFromFiles_opened env level s e).1)
  ∧ Forall (λ f, last (filter (λ g, createdBy level e g ∧ createdAt g = createdAt f)
                         (ListLogFiles env).1) = Some f)
      (FetchEntiresFromFiles_opened env level s e).1.
Proof.
  intros Hrep.
  pose proof (FetchEntiresFromFiles_opened_representable env level s e Hrep) as Hopened.
  split.
  - rewrite <- fmap_nanoOf_createdAt by exact Hopened.
    apply FetchEntiresFromFiles_opened_sorted.
  - pose proof (fetch_opens_last_listed_int64 env level s e) as Hlast.
    rewrite Forall_forall in Hlast, Hopened |- *. intros f Hf.
    rewrite <- (Hlast f Hf). f_equal. symmetry. apply filter_ext_elem.
    intros g Hg. unfold representableAt in Hrep. rewrite Forall_forall in Hrep.
    specialize (Hrep g Hg). specialize (Hopened f Hf).
    rewrite (nanoOf_representable f Hopened).
    split.
    + intros [Hret Heq]. pose proof Hret as [Hl _].
      rewrite (nanoOf_representable g (Hrep Hl)) in Heq.
      split; [by apply retained_createdBy|exact Heq].
    + intros [Hby Heq]. pose proof Hby as [Hl _].
      rewrite (nanoOf_representable g (Hrep Hl)).
      split; [by apply retained_createdBy|exact Heq].
Qed.

Lemma fetch_opens_newest_first_witness :
  StronglySorted (flip Z.le)
    (createdAt <$> (FetchEntiresFromFiles_opened Scenarios.same_second INFO
                      (10 * Mem.sec) (250 * Mem.sec)).1)
  ∧ Forall (λ f, last (filter (λ g, createdBy INFO (250 * Mem.sec) g
                                   ∧ createdAt g = createdAt f)
                         (ListLogFiles Scenarios.same_second).1) = Some f)
      (FetchEntiresFromFiles_opened Scenarios.same_second INFO
         (10 * Mem.sec) (250 * Mem.sec)).1.
Proof.
  apply (fetch_opens_newest_first Scenarios.same_second INFO (10 * Mem.sec) (250 * Mem.sec)).
  apply (bool_decide_unpack _). vm_compute. reflexivity.
Defined.

(** X22. The boundary segment. Let the listing succeed, let every listed
    segment of the requested level have a creation time within the range
    of [int64], and let no difference between [startTimeNano] and the
    creation time of an older segment of the level reach the largest
    [int64]. If a segment of the level was created at [startTimeNano] or
    before (and at [endTimeNano] or before), and [b] is the newest such
    creation time, then a fetch that ends without an error and with fewer
    entries than [EntiresCutoff] opened, in descending order, the creation
    times up to [endTimeNano] that are newer than [b], then [b] once, and
    nothing older. *)
Theorem fetch_scans_down_to_boundary env level s e logFiles opened entries b :
  ListLogFiles env = (logFiles, None) →
  representableAt level logFiles →
  (∀ f, f ∈ logFiles → createdBy level e f → createdAt f ≤ s →
        s - createdAt f < MaxInt64) →
  b ∈ createdAt <$> filter (createdBy level e) logFiles →
  b ≤ s →
  (∀ f, f ∈ logFiles → createdBy level e f → createdAt f ≤ s → createdAt f ≤ b) →
  FetchEntiresFromFiles_opened env level s e = (opened, Returns (entries, None)) →
  Z.of_nat (length entries) < EntiresCutoff env →
  createdAt <$> opened
  = filter (λ n, b < n) (sortReverse (createdAt <$> filter (createdBy level e) logFiles))
    ++ [b].
Proof.
  intros Hlist Hrep Hsmall Hb Hbs Hmax Hfetch Hcut.
  pose proof (FetchEntiresFromFiles_opened_representable env level s e) as Hopened.
  rewrite Hlist, Hfetch in Hopened. specialize (Hopened Hrep). cbn [fst] in Hopened.
  rewrite <- (filter_retained_createdBy level e logFiles Hrep) in Hb |- *.
  rewrite <- (fmap_nanoOf_createdAt (filter (retained level e) logFiles)) in Hb |- *
    by (by apply filter_retained_representable).
  rewrite <- (fmap_nanoOf_createdAt opened Hopened).
  unfold representableAt in Hrep. rewrite Forall_forall in Hrep.
  apply (fetch_scans_down_to_boundary_int64 env level s e logFiles opened entries b);
    try assumption.
  - intros f Hf Hret. pose proof Hret as [Hl _].
    rewrite (nanoOf_representable f (Hrep f Hf Hl)).
    apply Hsmall; [exact Hf|]. apply retained_createdBy; [by apply Hrep|exact Hret].
  - intros f Hf Hret. pose proof Hret as [Hl _].
    rewrite (nanoOf_representable f (Hrep f Hf Hl)).
    apply Hmax; [exact Hf|]. apply retained_createdBy; [by apply Hrep|exact Hret].
Qed.

Lemma fetch_scans_down_to_boundary_witness :
  createdAt <$> Scenarios.four_segments_opened
  = filter (λ n, 100 * Mem.sec < n)
      (sortReverse (createdAt <$> filter (createdBy INFO (250 * Mem.sec))
                                    (ListLogFiles Scenarios.four_segments).1))
    ++ [100 * Mem.sec].
Proof.
  apply (fetch_scans_down_to_boundary Scenarios.four_segments INFO
           (150 * Mem.sec) (250 * Mem.sec) (ListLogFiles Scenarios.four_segments).1
           Scenarios.four_segments_opened [Mem.entry INFO (200 * Mem.sec) "i200"]).
  - vm_compute. reflexivity.
  - apply (bool_decide_unpack _). vm_compute. reflexivity.
  - apply (proj1 (Forall_forall
             (λ f, createdBy INFO (250 * Mem.sec) f → createdAt f ≤ 150 * Mem.sec →
                   150 * Mem.sec - createdAt f < MaxInt64) _)).
    apply (bool_decide_unpack _). vm_compute. reflexivity.
  - apply (bool_decide_unpack _). vm_compute. reflexivity.
  - vm_compute. discriminate.
  - apply (proj1 (Forall_forall
             (λ f, createdBy INFO (250 * Mem.sec) f → createdAt f ≤ 150 * Mem.sec →
                   createdAt f ≤ 100 * Mem.sec) _)).
    apply (bool_decide_unpack _). vm_compute. reflexivity.
  - vm_compute. reflexivity.
  - vm_compute. reflexivity.
Defined.

(** X23. Without a boundary segment the scan goes through every segment
    of the level created up to [endTimeNano]. Let the listing succeed, let
    every listed segment of the requested level have a creation time
    within the range of [int64], let [startTimeNano] be zero or more and
    let every segment of the level created at [endTimeNano] or before be
    created after [startTimeNano]. Then a fetch that ends without an error
    and with fewer entries than [EntiresCutoff] opened all these creation
    times, in descending order. *)
Theorem fetch_scans_all_without_boundary env level s e logFiles opened entries :
  ListLogFiles env = (logFiles, None) →
  representableAt level logFiles →
  0 ≤ s →
  (∀ f, f ∈ logFiles → createdBy level e f → s < createdAt f) →
  FetchEntiresFromFiles_opened env level s e = (opened, Returns (entries, None)) →
  Z.of_nat (length entries) < EntiresCutoff env →
  createdAt <$> opened = sortReverse (createdAt <$> filter (createdBy level e) logFiles).
Proof.
  intros Hlist Hrep Hs Hnewer Hfetch Hcut.
  pose proof (FetchEntiresFromFiles_opened_representable env level s e) as Hopened.
  rewrite Hlist, Hfetch in Hopened. specialize (Hopened Hrep). cbn [fst] in Hopened.
  rewrite <- (filter_retained_createdBy level e logFiles Hrep).
  rewrite <- (fmap_nanoOf_createdAt (filter (retained level e) logFiles))
    by (by apply filter_retained_representable).
  rewrite <- (fmap_nanoOf_createdAt opened Hopened).
  unfold representableAt in Hrep. rewrite Forall_forall in Hrep.
  apply (fetch_scans_all_int64 env level s e logFiles opened entries); try assumption.
  intros f Hf Hret. pose proof Hret as [Hl _].
  rewrite (nanoOf_representable f (Hrep f Hf Hl)).
  apply Hnewer; [exact Hf|]. apply retained_createdBy; [by apply Hrep|exact Hret].
Qed.

Lemma fetch_scans_all_without_boundary_witness :
  createdAt <$> Scenarios.three_segments_opened
  = sortReverse (createdAt <$> filter (createdBy INFO (250 * Mem.sec))
                                 (ListLogFiles Scenarios.three_segments).1).
Proof.
  apply (fetch_scans_all_without_boundary Scenarios.three_segments INFO
           (50 * Mem.sec) (250 * Mem.sec) (ListLogFiles Scenarios.three_segments).1
           Scenarios.three_segments_opened
           [Mem.entry INFO (200 * Mem.sec) "i200"; Mem.entry INFO (100 * Mem.sec) "i100"]).
  - vm_compute. reflexivity.
  - apply (bool_decide_unpack _). vm_compute. reflexivity.
  - vm_compute. discriminate.
  - apply (proj1 (Forall_forall
             (λ f, createdBy INFO (250 * Mem.sec) f → 50 * Mem.sec < createdAt f) _)).
    apply (bool_decide_unpack _). vm_compute. reflexivity.
  - vm_compute. reflexivity.
  - vm_compute. reflexivity.
Defined.

(** C7, evaluation at the failing input. A segment whose name is stamped
    with the last second of the year 9999 was created long after a window
    that ends at 250 s, but the [int64] that [UnixNano] returns for its
    creation time has wrapped to a negative number, which passes the test
    [nano <= endTimeNano]: the first loop retains the segment, and the
    fetch opens it and returns its entry. *)
Theorem fetch_retains_segment_of_9999 :
  250 * Mem.sec < Unix Scenarios.y9999 * 1000000000
  ∧ UnixNano Scenarios.y9999 = -4852116232933722624
  ∧ nanos (selectFiles INFO (50 * Mem.sec) (250 * Mem.sec)
             (ListLogFiles Scenarios.far_future).1)
    = [100 * Mem.sec; -4852116232933722624]
  ∧ Name <$> (FetchEntiresFromFiles_opened Scenarios.far_future INFO
                (50 * Mem.sec) (250 * Mem.sec)).1
    = ["cockroach.node1.root.log.INFO.1970-01-01T00_01_40Z.4242";
       "cockroach.node1.root.log.INFO.9999-12-31T23_59_59Z.4242"]
  ∧ FetchEntiresFromFiles Scenarios.far_future INFO (50 * Mem.sec) (250 * Mem.sec)
    = Returns ([Mem.entry INFO (100 * Mem.sec) "i100";
                Mem.entry INFO (200 * Mem.sec) "i9999"], None).
Proof. repeat split; by vm_compute. Qed.

(** X28. [FetchEntiresFromFiles] retains in its file map, and opens, only
    listed segments whose decoded level is exactly the requested level (a
    more severe level is not retained either); such a segment was created
    at [endTimeNano] or before if its creation time is within the range of
    [int64]. *)
Theorem fetch_retains_exact_level env level startTimeNano endTimeNano f :
  (∃ nano, logFileMap (selectFiles level startTimeNano endTimeNano (ListLogFiles env).1)
             !! nano = Some f)
  ∨ f ∈ (FetchEntiresFromFiles_opened env level startTimeNano endTimeNano).1 →
  f ∈ (ListLogFiles env).1
  ∧ Level_ (Details f) = level
  ∧ (representable f → createdAt f ≤ endTimeNano).
Proof.
  intros (Hin & Hl & He)%fetch_retains_int64.
  split; [exact Hin|]. split; [exact Hl|].
  intros Hrep. by rewrite <- (nanoOf_representable f Hrep).
Qed.

Lemma fetch_retains_exact_level_witness :
  let f := fileOf (selectFiles INFO (50 * Mem.sec) (250 * Mem.sec)
                     (ListLogFiles Scenarios.three_segments).1) (200 * Mem.sec) in
  f ∈ (ListLogFiles Scenarios.three_segments).1
  ∧ Level_ (Details f) = INFO
  ∧ (representable f → createdAt f ≤ 250 * Mem.sec).
Proof.
  intros f.
  apply (fetch_retains_exact_level Scenarios.three_segments INFO
           (50 * Mem.sec) (250 * Mem.sec) f).
  right. vm_compute. left.
Defined.

(** ** The order of the entries, by creation time *)

(** C1, amended. The entries come newest first. Let a fetch end without
    an error, let the files it opened have distinct creation times within
    the range of [int64], let every opened segment hold its entries oldest
    first, none of them older than the creation of the segment and none
    newer than the creation of a newer opened segment. Then the times of
    the entries returned never increase. *)
Theorem fetch_entries_newest_first env level s e opened entries :
  FetchEntiresFromFiles_opened env level s e = (opened, Returns (entries, None)) →
  Forall representable opened →
  NoDup (createdAt <$> opened) →
  Forall (λ f, oldestFirst (entriesOf env f)) opened →
  Forall (λ f, Forall (λ x, createdAt f ≤ Time x) (entriesOf env f)) opened →
  Forall (λ f, Forall (λ g, createdAt f < createdAt g →
                            Forall (λ x, Time x ≤ createdAt g) (entriesOf env f)) opened)
    opened →
  newestFirst entries.
Proof.
  intros Hfetch Hrep Hnodup Hchrono Hafter Hbefore.
  apply (fetch_entries_newest_first_int64 env level s e opened entries Hfetch).
  - by rewrite (fmap_nanoOf_createdAt opened Hrep).
  - exact Hchrono.
  - rewrite Forall_forall in Hrep, Hafter |- *. intros f Hf.
    rewrite (nanoOf_representable f (Hrep f Hf)). by apply Hafter.
  - rewrite Forall_forall in Hrep, Hbefore |- *. intros f Hf.
    specialize (Hbefore f Hf). rewrite Forall_forall in Hbefore |- *. intros g Hg.
    rewrite (nanoOf_representable f (Hrep f Hf)), (nanoOf_representable g (Hrep g Hg)).
    by apply Hbefore.
Qed.

Lemma fetch_entries_newest_first_witness :
  newestFirst [Mem.entry INFO (200 * Mem.sec) "i200"; Mem.entry INFO (100 * Mem.sec) "i100"].
Proof.
  apply (fetch_entries_newest_first Scenarios.three_segments INFO
           (50 * Mem.sec) (250 * Mem.sec) Scenarios.three_segments_opened).
  - vm_compute. reflexivity.
  - apply (bool_decide_unpack _). vm_compute. reflexivity.
  - apply (bool_decide_unpack _). vm_compute. reflexivity.
  - apply (bool_decide_unpack _). vm_compute. reflexivity.
  - apply (bool_decide_unpack _). vm_compute. reflexivity.
  - apply (bool_decide_unpack _). vm_compute. reflexivity.
Defined.

(** ** The cutoff *)

(** A further file is opened only while fewer entries than the cutoff have
    been gathered. *)
Lemma FetchEntiresFromFiles_opened_cutoff env level s e opened entries before f after :
  FetchEntiresFromFiles_opened env level s e = (opened, Returns (entries, None)) →
  opened = before ++ f :: after → after ≠ [] →
  Z.of_nat (length (concat (keptEntries env s e <$> before ++ [f]))) < EntiresCutoff env.
Proof.
  unfold FetchEntiresFromFiles_opened.
  destruct (ListLogFiles env) as [logFiles [err|]]; [done|].
  destruct (length _ =? 0)%nat.
  { intros [= <- <-] Heq. by destruct before. }
  intros Hloop Heq Hafter.
  by apply (fetchLoop_cutoff _ _ _ _ _ _ _ _ before f after Hloop).
Qed.

(** C2, amended. The cutoff is tested after each whole file. With a
    positive [EntiresCutoff], a fetch that ends without an error returns
    fewer entries than the cutoff from the files opened before the last
    one, followed by all the entries inside the window of the last file
    opened: the result is not cut down to the cutoff, and no file is
    opened once the cutoff has been reached. *)
Theorem fetch_cutoff_after_whole_files env level s e opened entries earlier lastf :
  FetchEntiresFromFiles_opened env level s e = (opened, Returns (entries, None)) →
  0 < EntiresCutoff env →
  opened = earlier ++ [lastf] →
  entries = concat (keptEntries env s e <$> earlier) ++ keptEntries env s e lastf
  ∧ Z.of_nat (length (concat (keptEntries env s e <$> earlier))) < EntiresCutoff env.
Proof.
  intros Hfetch Hpos ->. split.
  - apply FetchEntiresFromFiles_opened_entries in Hfetch as [-> _].
    rewrite fmap_app, concat_app. simpl. by rewrite app_nil_r.
  - destruct earlier as [|f0 earlier _] using rev_ind; [simpl; lia|].
    eapply (FetchEntiresFromFiles_opened_cutoff _ _ _ _ _ _ earlier f0 [lastf] Hfetch);
      [by rewrite <- app_assoc|done].
Qed.

Lemma fetch_cutoff_after_whole_files_witness :
  [Mem.entry INFO (200 * Mem.sec) "d"; Mem.entry INFO (120 * Mem.sec) "c";
   Mem.entry INFO (110 * Mem.sec) "b"; Mem.entry INFO (100 * Mem.sec) "a"]
  = concat (keptEntries Scenarios.cutoff_two_files (50 * Mem.sec) (250 * Mem.sec)
              <$> take 1 Scenarios.cutoff_two_files_opened)
    ++ keptEntries Scenarios.cutoff_two_files (50 * Mem.sec) (250 * Mem.sec)
         (default zeroFileInfo (Scenarios.cutoff_two_files_opened !! 1%nat))
  ∧ Z.of_nat (length (concat (keptEntries Scenarios.cutoff_two_files
                                (50 * Mem.sec) (250 * Mem.sec)
                                <$> take 1 Scenarios.cutoff_two_files_opened)))
    < EntiresCutoff Scenarios.cutoff_two_files.
Proof.
  apply (fetch_cutoff_after_whole_files Scenarios.cutoff_two_files INFO
           (50 * Mem.sec) (250 * Mem.sec) Scenarios.cutoff_two_files_opened).
  - vm_compute. reflexivity.
  - vm_compute. reflexivity.
  - vm_compute. reflexivity.
Defined.

(** ** The round trip, as the test of the codec checks it *)

(** C5, amended. For the levels INFO, WARNING and ERROR, every valid time,
    and every process identity with a non-empty program, host and user
    name and a pid that is a non-negative [int], [parseLogFilename] decodes
    the name that [logName] produces: it returns no error, the level, and
    the time without its fraction of a second, which formats to the same
    text as the time encoded; encoding the decoded level and time gives
    the same name again. *)
Theorem logName_round_trip id level t :
  level ≠ FATAL →
  validTime t →
  program id ≠ "" → host id ≠ "" → userName id ≠ "" →
  0 ≤ pid id < 2 ^ 63 →
  ∃ details,
    parseLogFilename (logName id level t).1 = (details, None)
    ∧ Level_ details = level
    ∧ Time_ details = truncateSecond t
    ∧ Format (Time_ details) = Format t
    ∧ logName id (Level_ details) (Time_ details) = logName id level t.
Proof.
  intros Hlevel Ht Hprogram Hhost Huser Hpid.
  destruct (parseLogFilename_logName_details id level t) as [Hparse Hname]; try assumption.
  eexists. split; [exact Hparse|]. cbn [Level_ Time_].
  split; [reflexivity|]. split; [reflexivity|]. split; [reflexivity|exact Hname].
Qed.

Lemma logName_round_trip_witness :
  ∃ details,
    parseLogFilename (logName Mem.id0 ERROR (mkTime 2015 3 7 9 5 0 123456 (-300))).1
    = (details, None)
    ∧ Level_ details = ERROR
    ∧ Time_ details = truncateSecond (mkTime 2015 3 7 9 5 0 123456 (-300))
    ∧ Format (Time_ details) = Format (mkTime 2015 3 7 9 5 0 123456 (-300))
    ∧ logName Mem.id0 (Level_ details) (Time_ details)
      = logName Mem.id0 ERROR (mkTime 2015 3 7 9 5 0 123456 (-300)).
Proof.
  apply (logName_round_trip Mem.id0 ERROR (mkTime 2015 3 7 9 5 0 123456 (-300))).
  - done.
  - apply (bool_decide_unpack _). vm_compute. reflexivity.
  - done.
  - done.
  - done.
  - vm_compute. split; [discriminate|reflexivity].
Defined.

(** ** Segments with the same timestamp *)

Lemma length_filter_fmap {A B} (h : A → B) (P : B → Prop) `{∀ y, Decision (P y)}
    (l : list A) :
  length (filter P (h <$> l)) = length (filter (λ x, P (h x)) l).
Proof.
  induction l as [|a l IH]; [reflexivity|]. rewrite fmap_cons.
  destruct (decide (P (h a))) as [Ha|Ha].
  - rewrite !filter_cons_True by exact Ha. simpl. by rewrite IH.
  - rewrite !filter_cons_False by exact Ha. exact IH.
Qed.

Lemma length_filter_prefix {A} (P : A → Prop) `{∀ x, Decision (P x)} (l1 l2 : list A) :
  (length (filter P l1) ≤ length (filter P (l1 ++ l2)))%nat.
Proof. rewrite filter_app, length_app. lia. Qed.

Lemma length_filter_sortReverse (P : Z → Prop) `{∀ x, Decision (P x)} l :
  length (filter P (sortReverse l)) = length (filter P l).
Proof.
  apply Permutation_length. unfold sortReverse.
  by rewrite (merge_sort_Permutation (flip Z.le) l).
Qed.

(** The number of retained timestamps equal to [n] is the number of
    retained segments with the timestamp [n]. *)
Lemma length_filter_nanos level s e logFiles n :
  length (filter (λ m, m = n) (nanos (selectFiles level s e logFiles)))
  = length (duplicates level e n logFiles).
Proof.
  rewrite nanos_selectFiles, length_filter_fmap, list_filter_filter.
  unfold duplicates. f_equal. apply filter_ext_elem. intros f _. tauto.
Qed.

(** Among the files read for a list of retained timestamps, those with the
    timestamp [n] are as many as the occurrences of [n] in the list. *)
Lemma timesOpened_fileOf level s e logFiles n (scanned : list Z) :
  scanned ⊆ nanos (selectFiles level s e logFiles) →
  timesOpened n (fileOf (selectFiles level s e logFiles) <$> scanned)
  = length (filter (λ m, m = n) scanned).
Proof.
  intros Hsub. unfold timesOpened. rewrite length_filter_fmap. f_equal.
  apply filter_ext_elem. intros m Hm.
  destruct (fileOf_selectFiles level s e logFiles m (Hsub m Hm)) as (_ & _ & ->).
  tauto.
Qed.

(** The scan reads a prefix of its list of timestamps, and
    [closestToStartNano] at most once. *)
Lemma fetchLoop_opened_once env sel s e todo acc :
  ∃ scanned rest,
    todo = scanned ++ rest
    ∧ (fetchLoop env sel s e todo acc).1 = fileOf sel <$> scanned
    ∧ (length (filter (λ m, m = closestToStartNano sel) scanned) ≤ 1)%nat.
Proof.
  revert acc. induction todo as [|nano todo IH]; intros acc; simpl.
  { exists [], []. split; [done|]. split; [done|]. simpl. lia. }
  fold (fileOf sel nano).
  assert (length (filter (λ m, m = closestToStartNano sel) [nano]) ≤ 1)%nat as Hone.
  { etrans; [apply length_filter|]. simpl. lia. }
  destruct (readAllEntriesFromFile env (fileOf sel nano) s e)
    as [[newEntries [err|]]|msg]; simpl.
  - exists [nano], todo. done.
  - destruct (EntiresCutoff env <=? _); [by exists [nano], todo|].
    destruct (nano =? closestToStartNano sel) eqn:Hclosest; [by exists [nano], todo|].
    apply Z.eqb_neq in Hclosest.
    destruct (IH (acc ++ newEntries)) as (scanned & rest & -> & Heq & Hcount).
    destruct (fetchLoop env sel s e (scanned ++ rest) (acc ++ newEntries))
      as [opened res]. simpl in *.
    exists (nano :: scanned), rest. split; [done|]. split; [by rewrite Heq|].
    by rewrite filter_cons_False.
  - exists [nano], todo. done.
Qed.

Lemma FetchEntiresFromFiles_opened_once env level s e :
  ∃ scanned rest,
    sortReverse (nanos (selectFiles level s e (ListLogFiles env).1)) = scanned ++ rest
    ∧ (FetchEntiresFromFiles_opened env level s e).1
      = fileOf (selectFiles level s e (ListLogFiles env).1) <$> scanned
    ∧ (length (filter (λ m, m = closestToStartNano
                                   (selectFiles level s e (ListLogFiles env).1)) scanned)
       ≤ 1)%nat.
Proof.
  unfold FetchEntiresFromFiles_opened.
  destruct (ListLogFiles env) as [logFiles [err|]]; cbn [fst].
  { exists [], (sortReverse (nanos (selectFiles level s e logFiles))).
    split; [done|]. split; [done|]. simpl. lia. }
  destruct (length _ =? 0)%nat.
  { exists [], (sortReverse (nanos (selectFiles level s e logFiles))).
    split; [done|]. split; [done|]. simpl. lia. }
  apply fetchLoop_opened_once.
Qed.

(** C10, amended. Segments of the same timestamp. Let [g] be the last
    listed of the retained segments whose timestamp, the [int64] that keys
    the file map, is [n]. No other segment with this timestamp is ever
    opened. The file [g] is opened at most once for each retained segment
    with the timestamp; once at most when [n] is [closestToStartNano], the
    timestamp of the boundary segment, after which the scan stops; and
    exactly once for each retained segment with the timestamp when the
    fetch ends without an error, with fewer entries than [EntiresCutoff],
    and [n] is newer than [closestToStartNano]. *)
Theorem fetch_duplicate_timestamps env level s e n g :
  last (duplicates level e n (ListLogFiles env).1) = Some g →
  let opened := (FetchEntiresFromFiles_opened env level s e).1 in
  let sel := selectFiles level s e (ListLogFiles env).1 in
  (∀ f, f ∈ opened → nanoOf f = n → f = g)
  ∧ (timesOpened n opened ≤ length (duplicates level e n (ListLogFiles env).1))%nat
  ∧ (n = closestToStartNano sel → (timesOpened n opened ≤ 1)%nat)
  ∧ (∀ entries,
       (FetchEntiresFromFiles_opened env level s e).2 = Returns (entries, None) →
       Z.of_nat (length entries) < EntiresCutoff env →
       closestToStartNano sel < n →
       timesOpened n opened = length (duplicates level e n (ListLogFiles env).1)).
Proof.
  intros Hlast. cbv zeta.
  destruct (FetchEntiresFromFiles_opened_once env level s e)
    as (scanned & rest & Hsplit & Hopened & Hcount).
  assert (∀ logFiles l, l ⊆ sortReverse (nanos (selectFiles level s e logFiles)) →
                        l ⊆ nanos (selectFiles level s e logFiles)) as Hsub.
  { intros logFiles l Hl m Hm. by apply sortReverse_elem_of, Hl. }
  assert (scanned ⊆ nanos (selectFiles level s e (ListLogFiles env).1)) as Hscanned.
  { apply Hsub. intros m Hm. rewrite Hsplit. apply elem_of_app. by left. }
  assert (∀ logFiles,
            length (filter (λ m, m = n) (sortReverse (nanos (selectFiles level s e logFiles))))
            = length (duplicates level e n logFiles)) as Hall.
  { intros logFiles. rewrite length_filter_sortReverse. apply length_filter_nanos. }
  split; [|split; [|split]].
  - intros f Hf Hn.
    pose proof (fetch_opens_last_listed_int64 env level s e) as Hlisted.
    rewrite Forall_forall in Hlisted. specialize (Hlisted f Hf).
    rewrite Hn in Hlisted. unfold duplicates in Hlast.
    rewrite Hlast in Hlisted. by injection Hlisted.
  - rewrite Hopened, (timesOpened_fileOf level s e _ n scanned Hscanned).
    rewrite <- Hall, Hsplit. apply length_filter_prefix.
  - intros ->. by rewrite Hopened, (timesOpened_fileOf level s e _ _ scanned Hscanned).
  - intros entries Hres Hcut Hlt. rewrite <- Hall.
    clear Hcount Hsplit Hscanned Hopened scanned rest.
    assert (nanos (selectFiles level s e (ListLogFiles env).1) ≠ []) as Hne.
    { intros Hnil.
      pose proof (length_filter_nanos level s e (ListLogFiles env).1 n) as Hlen.
      rewrite Hnil in Hlen. simpl in Hlen.
      destruct (duplicates level e n (ListLogFiles env).1); [done|]. simpl in Hlen. lia. }
    clear Hlast.
    destruct (ListLogFiles env) as [logFiles [err|]] eqn:Hlist; cbn [fst] in *.
    { unfold FetchEntiresFromFiles_opened in Hres. by rewrite Hlist in Hres. }
    rewrite (FetchEntiresFromFiles_opened_listed env level s e logFiles Hlist Hne) in Hres |- *.
    specialize (Hsub logFiles). clear Hall Hlist Hne.
    revert Hres Hcut Hlt Hsub.
    generalize (sortReverse_sorted (nanos (selectFiles level s e logFiles))).
    generalize (timesOpened_fileOf level s e logFiles n).
    generalize (nanos (selectFiles level s e logFiles)).
    generalize (selectFiles level s e logFiles).
    intros sel ns Htimes Hsorted Hres Hcut Hlt Hsub.
    destruct (fetchLoop env sel s e (sortReverse ns) []) as [opened res] eqn:Hloop.
    cbn [fst snd] in *. subst res.
    destruct (decide (closestToStartNano sel ∈ sortReverse ns)) as [Hin|Hnotin].
    + destruct (fetchLoop_boundary _ _ _ _ _ _ _ _ Hloop Hcut Hin)
        as (newer & older & Hsplit & Hnewer & ->).
      rewrite Hsplit in Hsorted, Hsub |- *.
      rewrite Htimes.
      2:{ apply Hsub. intros m Hm. rewrite elem_of_app, elem_of_cons.
          apply elem_of_app in Hm as [Hm|Hm%list_elem_of_singleton]; auto. }
      rewrite filter_app, length_app.
      rewrite (filter_cons_False _ (closestToStartNano sel) []) by lia.
      rewrite filter_nil. simpl. rewrite Nat.add_0_r.
      rewrite (descending_split newer older _ Hsorted Hnewer) at 1.
      rewrite list_filter_filter. f_equal. apply filter_ext_elem. intros m _. lia.
    + rewrite (fetchLoop_all _ _ _ _ _ _ _ _ Hloop Hcut Hnotin).
      rewrite Htimes; [done|]. by apply Hsub.
Qed.

Lemma fetch_duplicate_timestamps_witness :
  let listed := (ListLogFiles Scenarios.same_second).1 in
  let n := 100 * Mem.sec in
  let g := default zeroFileInfo (last (duplicates INFO (250 * Mem.sec) n listed)) in
  let opened := (FetchEntiresFromFiles_opened Scenarios.same_second INFO
                   (10 * Mem.sec) (250 * Mem.sec)).1 in
  let sel := selectFiles INFO (10 * Mem.sec) (250 * Mem.sec) listed in
  (∀ f, f ∈ opened → nanoOf f = n → f = g)
  ∧ (timesOpened n opened ≤ length (duplicates INFO (250 * Mem.sec) n listed))%nat
  ∧ (n = closestToStartNano sel → (timesOpened n opened ≤ 1)%nat)
  ∧ (∀ entries,
       (FetchEntiresFromFiles_opened Scenarios.same_second INFO
          (10 * Mem.sec) (250 * Mem.sec)).2 = Returns (entries, None) →
       Z.of_nat (length entries) < EntiresCutoff Scenarios.same_second →
       closestToStartNano sel < n →
       timesOpened n opened = length (duplicates INFO (250 * Mem.sec) n listed)).
Proof.
  intros listed n g opened sel.
  apply (fetch_duplicate_timestamps Scenarios.same_second INFO
           (10 * Mem.sec) (250 * Mem.sec) n g).
  vm_compute. reflexivity.
Defined.
